(** * mono_live: the live monocular capture loop of ORB-SLAM3

    A shallow embedding of [Examples/Monocular/mono_live.cc].  The program is
    one [main] that talks to three collaborators: the OpenCV capture object
    [cap], the tracking engine [SLAM] and the C++ runtime (steady clock,
    standard streams, destructors at scope exit).  Every call that leaves
    [main] is recorded as an [Event]; what the collaborators answer is read
    from an [Env].  The [while (true)] loop is unrolled with fuel, one unit
    per iteration. *)

From Stdlib Require Import ZArith List Bool String Ascii Lia QArith Qabs Qpower.
From Stdlib Require Import SpecFloat.
Import ListNotations.

Local Open Scope Z_scope.

(** ** Machine numbers *)

Module Int32.

(** [static_cast<int>] of a [long]: the low 32 bits, read in two's
    complement. *)
Definition wrap (z : Z) : Z :=
  let r := Z.land z (Z.ones 32) in
  if Z.testbit r 31 then r - 2 ^ 32 else r.

End Int32.

Module Int64.

(** A 64-bit two's complement value: the low 64 bits of [z]. *)
Definition wrap (z : Z) : Z :=
  let r := Z.land z (Z.ones 64) in
  if Z.testbit r 63 then r - 2 ^ 64 else r.

(** The difference of two tick counts of [steady_clock], which are 64-bit
    integers.  Where the difference leaves the 64-bit range the C++
    standard does not define it; the model takes the two's complement
    subtraction of the target. *)
Definition sub (a b : Z) : Z := wrap (a - b).

End Int64.

Module Float32.

(** [float]: IEEE-754 binary32. *)
Definition prec : Z := 24.
Definition emax : Z := 128.

Definition of_int (n : Z) : spec_float :=
  binary_normalize prec emax n 0 false.

Definition mul (x y : spec_float) : spec_float := SFmul prec emax x y.

(** The literal [1.0f]. *)
Definition one : spec_float := S754_finite false 8388608 (-23).

(** [a != b] on floats: true as soon as one side is a NaN. *)
Definition neq (x y : spec_float) : bool := negb (SFeqb x y).

(** The real number a finite float stands for. *)
Definition to_Q (x : spec_float) : Q :=
  match x with
  | S754_finite s m e =>
      let v := (inject_Z (Z.pos m) * Qpower 2 e)%Q in
      if s then (- v)%Q else v
  | _ => 0%Q
  end.

(** Rounding of [m * 2^e] to the nearest integer, halfway cases away from
    zero, for [m] non-negative. *)
Definition round_half_away (m e : Z) : Z :=
  if 0 <=? e then m * 2 ^ e
  else
    let d := 2 ^ (- e) in
    if d <=? 2 * (m mod d) then m / d + 1 else m / d.

(** [std::lround(float)], returning a 64-bit [long].  When the argument is
    a NaN or an infinity, or the rounded value does not fit the return type,
    the C library leaves the value unspecified: [unspec] stands for what it
    returns then. *)
Definition lround (unspec : Z) (x : spec_float) : Z :=
  match x with
  | S754_zero _ => 0
  | S754_finite s m e =>
      let r := round_half_away (Z.pos m) e in
      let v := if s then - r else r in
      if (- 2 ^ 63 <=? v) && (v <? 2 ^ 63) then v else unspec
  | _ => unspec
  end.

End Float32.

Module Float64.

(** [double]: IEEE-754 binary64. *)
Definition prec : Z := 53.
Definition emax : Z := 1024.

Definition of_int (n : Z) : spec_float :=
  binary_normalize prec emax n 0 false.

Definition div (x y : spec_float) : spec_float := SFdiv prec emax x y.

Definition leb (x y : spec_float) : bool := SFleb x y.

End Float64.

(** ** Rounding to a binary format, in closed form

    [binary_round_aux] rounds by shifting a mantissa with two guard bits.
    The definitions below say what it computes on a non-negative fraction
    [N / D] scaled by [2 ^ ex]: the position of the fraction between two
    integers, its rounding to the nearest integer with ties to even, and the
    mantissa and exponent of the rounded float. *)

Module Round.

(** Where [N / D] lies between [N / D] rounded down and the next integer. *)
Definition loc_of (N D : Z) : location :=
  if N mod D =? 0 then loc_Exact else loc_Inexact (2 * (N mod D) ?= D).

(** The truncated mantissa of [N / D] with its round and sticky bits. *)
Definition rec_of (N D : Z) : shr_record :=
  shr_record_of_loc (N / D) (loc_of N D).

(** [N / D] rounded to the nearest integer, ties to even. *)
Definition rhe (N D : Z) : Z := round_nearest_even (N / D) (loc_of N D).

(** Mantissa and exponent of [N / D * 2 ^ ex] rounded to [prec] bits, for a
    quotient of at least [prec] bits. *)
Definition rnd (prec N D ex : Z) : Z * Z :=
  let n := Zdigits2 (N / D) - prec in
  let m := rhe N (D * 2 ^ n) in
  if m =? 2 ^ prec then (2 ^ (prec - 1), ex + n + 1) else (m, ex + n).

(** Order of the positive normal floats, exponent first. *)
Definition lex_le (a b : Z * Z) : Prop :=
  snd a < snd b \/ (snd a = snd b /\ fst a <= fst b).

End Round.

(** ** OpenCV values *)

Module Cv.

(** A [cv::Mat] header: the geometry and the channel count, without the
    pixel buffer. *)
Record Mat : Type := mkMat { cols : Z; rows : Z; channels : Z }.

(** [Mat::empty()]. *)
Definition empty (m : Mat) : bool := (cols m =? 0) || (rows m =? 0).

(** [cv::cvtColor(src, dst, COLOR_BGR2GRAY)]: same geometry, one channel. *)
Definition cvtColor_BGR2GRAY (src : Mat) : Mat :=
  mkMat (cols src) (rows src) 1.

(** [cv::resize(src, dst, Size(w, h))] with a non-zero [Size]: the
    destination takes that size and keeps the type of the source. *)
Definition resize (src : Mat) (w h : Z) : Mat :=
  mkMat w h (channels src).

Definition CAP_V4L2 : Z := 200.
Definition CAP_GSTREAMER : Z := 1800.
Definition CAP_PROP_FRAME_WIDTH : Z := 3.
Definition CAP_PROP_FRAME_HEIGHT : Z := 4.
Definition CAP_PROP_FPS : Z := 5.

End Cv.
Import Cv.

(** ** Frame preprocessing (lines 97-109) *)

(** Lines 98-102: [cvtColor] when [--gray] was given, else [proc = frame]. *)
Definition to_proc (forceGray : bool) (frame : Mat) : Mat :=
  if forceGray then cvtColor_BGR2GRAY frame else frame.

(** Lines 106-107: [static_cast<int>(std::lround(dim * imageScale))], the
    product taken in [float] after the usual conversion of the [int]. *)
Definition scaled_dim (unspec : Z) (imageScale : spec_float) (dim : Z) : Z :=
  Int32.wrap
    (Float32.lround unspec (Float32.mul (Float32.of_int dim) imageScale)).

(** Lines 105-109. *)
Definition rescale (unspec : Z) (imageScale : spec_float) (proc : Mat) : Mat :=
  if Float32.neq imageScale Float32.one then
    let w := scaled_dim unspec imageScale (cols proc) in
    let h := scaled_dim unspec imageScale (rows proc) in
    if (0 <? w) && (0 <? h) then resize proc w h else proc
  else proc.

Definition preprocess (unspec : Z) (forceGray : bool)
    (imageScale : spec_float) (frame : Mat) : Mat :=
  rescale unspec imageScale (to_proc forceGray frame).

(** ** Timestamps (lines 93-95) *)

(** [duration_cast<duration<double>>(d).count()] for a nanosecond tick
    count [d]: the count converted to [double] and divided by 1e9. *)
Definition seconds_of_ticks (d : Z) : spec_float :=
  Float64.div (Float64.of_int d) (Float64.of_int 1000000000).

(** ** Events and environment

    An event is one call that leaves [main], with what it returned. *)

Inductive Obj : Type := ObjCap | ObjSLAM | ObjFrame | ObjProc.

Inductive Sensor : Type := MONOCULAR.

Inductive Event : Type :=
| EStderr (msg : string)
| EStdout (msg : string)
| ECapOpenPipeline (pipeline : string) (api : Z) (ret : bool)
| ECapOpenIndex (index : Z) (api : Z) (ret : bool)
| ECapSet (prop : Z) (value : Z)
| ESystemCtor (voc settings : string) (sensor : Sensor) (viewer : bool)
    (ok : bool)
| EGetImageScale (ret : spec_float)
| ENow (ticks : Z)
| ECapRead (ret : bool) (frame : Mat)
| ETrackMonocular (im : Mat) (tframe : spec_float)
| EImshow (winname : string) (im : Mat)
| EWaitKey (delay : Z) (ret : Z)
| EShutdown
| ESaveKeyFrameTrajectoryTUM (path : string)
| EDestroy (o : Obj).

Definition Trace : Type := list Event.

(** Modelled from the spec: the constructor of [ORB_SLAM3::System] is not
    part of the example; initialization yields either an engine, whose
    image scale is then read back, or an EngineInitError, which is fatal and
    surfaces as a process exit with an implementation-defined status. *)
Inductive EngineInit : Type :=
| InitOk (imageScale : spec_float)
| InitError (status : Z).

Record Env : Type := mkEnv {
  open_pipeline : bool;          (* cap.open(pipeline, CAP_GSTREAMER) *)
  open_index : bool;             (* cap.open(0, CAP_V4L2) *)
  system_ctor : EngineInit;      (* ORB_SLAM3::System SLAM(...) *)
  steady_now : nat -> Z;         (* k-th steady_clock::now(), in ticks *)
  cap_read : nat -> bool * Mat;  (* k-th cap.read(frame) *)
  wait_key : nat -> Z;           (* k-th cv::waitKey(1) *)
  lround_unspec : Z              (* lround on a domain error *)
}.

Inductive Outcome : Type :=
| Returned (code : Z)   (* [return code] from [main] *)
| Exited (status : Z)   (* the process ended inside a callee *)
| Running.              (* still in the loop when the fuel ran out *)

Inductive LoopEnd : Type := BreakRead | BreakKey | NoBreak.

(** ** The program *)

Definition nl : string := String (ascii_of_nat 10) EmptyString.

Definition usage (argv0 : string) : string :=
  "Usage: " ++ argv0
  ++ " path_to_vocabulary path_to_settings [--gray] [--gstreamer]" ++ nl.

Definition pipeline : string :=
  "libcamerasrc ! video/x-raw,format=RGB,width=640,height=480,framerate=30/1 "
  ++ "! videoconvert ! video/x-raw,format=BGR ! appsink drop=1".

Definition msg_gstreamer : string :=
  "Error: could not open GStreamer pipeline." ++ nl.

Definition msg_v4l2 : string :=
  "Error: could not open camera with V4L2. "
  ++ "If using libcamera-only, retry with --gstreamer." ++ nl.

Definition msg_grab : string :=
  "Error: failed to grab frame. Exiting." ++ nl.

Definition banner : string :=
  nl ++ "-------" ++ nl ++ "Start live monocular on Raspberry Pi..." ++ nl
  ++ "Press 'q' or ESC to quit (window must be shown)." ++ nl.

Definition window : string := "ORB-SLAM3 Live (Pi)".

Definition trajectory_file : string := "KeyFrameTrajectory.txt".

(** Lines 42-48: one step of the flag loop on the state
    [(forceGray, useGStreamer)]. *)
Definition parse_step (st : bool * bool) (arg : string) : bool * bool :=
  if (arg =? "--gray")%string then (true, snd st)
  else if (arg =? "--gstreamer")%string then (fst st, true)
  else st.

Definition parse_flags (argv : list string) : bool * bool :=
  fold_left parse_step (skipn 3 argv) (false, false).

(** Lines 50-73: the events of the open, and whether [main] goes on. *)
Definition open_capture (useGStreamer : bool) (env : Env) : Trace * bool :=
  if useGStreamer then
    if open_pipeline env then
      ([ECapOpenPipeline pipeline CAP_GSTREAMER true], true)
    else
      ([ECapOpenPipeline pipeline CAP_GSTREAMER false; EStderr msg_gstreamer],
       false)
  else
    if open_index env then
      ([ECapOpenIndex 0 CAP_V4L2 true;
        ECapSet CAP_PROP_FRAME_WIDTH 640;
        ECapSet CAP_PROP_FRAME_HEIGHT 480;
        ECapSet CAP_PROP_FPS 30], true)
    else ([ECapOpenIndex 0 CAP_V4L2 false; EStderr msg_v4l2], false).

(** Line 117. *)
Definition quit_key (ret : Z) : bool :=
  let key := Z.land ret 255 in (key =? 113) || (key =? 27).

(** Lines 85-118.  Iteration [i] makes the [i]-th [cap.read], the
    [(i+1)]-th clock sample (the first one is [t0]) and the [i]-th
    [waitKey]. *)
Fixpoint capture_loop (env : Env) (forceGray : bool) (imageScale : spec_float)
    (fuel : nat) (i : nat) : Trace * LoopEnd :=
  match fuel with
  | O => ([], NoBreak)
  | S fuel' =>
      let '(ok, frame) := cap_read env i in
      if negb ok || empty frame then
        ([ECapRead ok frame; EStderr msg_grab], BreakRead)
      else
        let now := steady_now env (S i) in
        let tframe := seconds_of_ticks (Int64.sub now (steady_now env 0)) in
        let proc := preprocess (lround_unspec env) forceGray imageScale frame in
        let ret := wait_key env i in
        let body :=
          [ECapRead ok frame; ENow now; ETrackMonocular proc tframe;
           EImshow window frame; EWaitKey 1 ret] in
        if quit_key ret then (body, BreakKey)
        else
          let '(rest, e) := capture_loop env forceGray imageScale fuel' (S i) in
          (body ++ rest, e)
  end.

(** Destructors run by [return] once the loop has been left, in reverse
    order of construction. *)
Definition scope_exit : Trace :=
  [EDestroy ObjProc; EDestroy ObjFrame; EDestroy ObjSLAM; EDestroy ObjCap].

(** Lines 31-123. *)
Definition main (fuel : nat) (argv : list string) (env : Env)
    : Trace * Outcome :=
  if Z.of_nat (List.length argv) <? 3 then
    ([EStderr (usage (nth 0 argv ""%string))], Returned 1)
  else
    let voc_path := nth 1 argv ""%string in
    let settings_path := nth 2 argv ""%string in
    let '(forceGray, useGStreamer) := parse_flags argv in
    let '(tr_open, opened) := open_capture useGStreamer env in
    if negb opened then (tr_open ++ [EDestroy ObjCap], Returned 1)
    else
      let ctor := ESystemCtor voc_path settings_path MONOCULAR true in
      match system_ctor env with
      | InitError status => (tr_open ++ [ctor false], Exited status)
      | InitOk imageScale =>
          let '(tr_loop, e) :=
            capture_loop env forceGray imageScale fuel 0 in
          let tr :=
            tr_open
            ++ [ctor true; EGetImageScale imageScale; EStdout banner;
                ENow (steady_now env 0)]
            ++ tr_loop in
          match e with
          | NoBreak => (tr, Running)
          | _ =>
              (tr ++ [EShutdown; ESaveKeyFrameTrajectoryTUM trajectory_file]
                  ++ scope_exit,
               Returned 0)
          end
      end.

(** ** Observations on traces *)

Definition is_shutdown (e : Event) : bool :=
  match e with EShutdown => true | _ => false end.

Definition is_save (e : Event) : bool :=
  match e with ESaveKeyFrameTrajectoryTUM _ => true | _ => false end.

Definition is_ctor (e : Event) : bool :=
  match e with ESystemCtor _ _ _ _ _ => true | _ => false end.

Definition is_open_pipeline (e : Event) : bool :=
  match e with ECapOpenPipeline _ _ _ => true | _ => false end.

Definition is_open_index (e : Event) : bool :=
  match e with ECapOpenIndex _ _ _ => true | _ => false end.

Definition is_track (e : Event) : bool :=
  match e with ETrackMonocular _ _ => true | _ => false end.

Definition count (p : Event -> bool) (tr : Trace) : nat :=
  List.length (filter p tr).

(** The frames handed to [TrackMonocular], in order. *)
Fixpoint fed (tr : Trace) : list Mat :=
  match tr with
  | [] => []
  | ETrackMonocular im _ :: tr' => im :: fed tr'
  | _ :: tr' => fed tr'
  end.

(** The timestamps handed to [TrackMonocular], in order. *)
Fixpoint stamps (tr : Trace) : list spec_float :=
  match tr with
  | [] => []
  | ETrackMonocular _ t :: tr' => t :: stamps tr'
  | _ :: tr' => stamps tr'
  end.

(** The frames of the successful reads, in order. *)
Fixpoint captured (tr : Trace) : list Mat :=
  match tr with
  | [] => []
  | ECapRead ok frame :: tr' =>
      if negb ok || empty frame then captured tr' else frame :: captured tr'
  | _ :: tr' => captured tr'
  end.

Definition is_waitkey (e : Event) : bool :=
  match e with EWaitKey _ _ => true | _ => false end.

Definition is_destroy_cap (e : Event) : bool :=
  match e with EDestroy ObjCap => true | _ => false end.

(** A capture handle is held once an open has returned [true]; an engine
    once its constructor has completed. *)
Definition is_cap_acquired (e : Event) : bool :=
  match e with
  | ECapOpenPipeline _ _ ret => ret
  | ECapOpenIndex _ _ ret => ret
  | _ => false
  end.

Definition is_engine_acquired (e : Event) : bool :=
  match e with ESystemCtor _ _ _ _ ok => ok | _ => false end.

(** The events the loop body can emit. *)
Definition in_loop (e : Event) : bool :=
  match e with
  | ECapRead _ _ | ENow _ | ETrackMonocular _ _ | EImshow _ _ | EWaitKey _ _
  | EStderr _ => true
  | _ => false
  end.

(** ** The ways out of the loop *)

(** Line 87: the [i]-th read failed or gave an empty frame. *)
Definition read_fails (env : Env) (i : nat) : bool :=
  let '(ok, frame) := cap_read env i in negb ok || empty frame.

(** Iteration [i] leaves the loop: by line 89 or by line 117. *)
Definition stops (env : Env) (i : nat) : bool :=
  read_fails env i || quit_key (wait_key env i).

Definition first_stop (env : Env) (n : nat) : Prop :=
  stops env n = true /\ forall i, (i < n)%nat -> stops env i = false.

(** The arguments are there, the selected backend opens and the engine
    starts: [main] reaches line 85. *)
Definition enters_loop (argv : list string) (env : Env) : Prop :=
  3 <= Z.of_nat (List.length argv)
  /\ snd (open_capture (snd (parse_flags argv)) env) = true
  /\ exists imageScale, system_ctor env = InitOk imageScale.

(** The events of iteration [i] when its read succeeds, and when it does
    not, as [capture_loop] lays them out. *)
Definition loop_body (env : Env) (forceGray : bool) (imageScale : spec_float)
    (i : nat) : Trace :=
  let frame := snd (cap_read env i) in
  [ECapRead (fst (cap_read env i)) frame;
   ENow (steady_now env (S i));
   ETrackMonocular
     (preprocess (lround_unspec env) forceGray imageScale frame)
     (seconds_of_ticks
        (Int64.sub (steady_now env (S i)) (steady_now env 0)));
   EImshow window frame;
   EWaitKey 1 (wait_key env i)].

Definition loop_failed_read (env : Env) (i : nat) : Trace :=
  [ECapRead (fst (cap_read env i)) (snd (cap_read env i)); EStderr msg_grab].

(** What [main] emits before the loop (lines 50-82) once the backend has
    opened and the engine has started, and after it (lines 120-122). *)
Definition prologue (argv : list string) (env : Env)
    (imageScale : spec_float) : Trace :=
  fst (open_capture (snd (parse_flags argv)) env)
  ++ [ESystemCtor (nth 1 argv ""%string) (nth 2 argv ""%string) MONOCULAR
        true true;
      EGetImageScale imageScale; EStdout banner; ENow (steady_now env 0)].

Definition epilogue : Trace :=
  [EShutdown; ESaveKeyFrameTrajectoryTUM trajectory_file] ++ scope_exit.

(** The two fatal start-up conditions of lines 33 and 58-68. *)
Definition missing_args (argv : list string) : Prop :=
  Z.of_nat (List.length argv) < 3.

(** What the camera answers to the one open that the flags select: the
    pipeline when [--gstreamer] stands among the arguments from [argv[3]]
    on, device 0 otherwise. *)
Definition selected_open (argv : list string) (env : Env) (ret : bool)
    : Prop :=
  (In "--gstreamer"%string (skipn 3 argv) /\ open_pipeline env = ret)
  \/ (~ In "--gstreamer"%string (skipn 3 argv) /\ open_index env = ret).

Definition open_fails (argv : list string) (env : Env) : Prop :=
  3 <= Z.of_nat (List.length argv) /\ selected_open argv env false.

(** Every resource a trace has acquired it has also released: the capture
    handle by the destructor of [cap], the engine by [Shutdown]. *)
Definition releases_all (tr : Trace) : Prop :=
  ((0 < count is_cap_acquired tr)%nat -> (0 < count is_destroy_cap tr)%nat)
  /\ ((0 < count is_engine_acquired tr)%nat ->
      (0 < count is_shutdown tr)%nat).

(** Events that are neither a read, a feed nor a key poll: all that
    [main] emits outside the loop. *)
Definition quiet (e : Event) : bool :=
  match e with
  | ECapRead _ _ | ETrackMonocular _ _ | EWaitKey _ _ => false
  | _ => true
  end.

(** ** The rescale step against exact arithmetic *)

Definition dims (m : Mat) : Z * Z := (cols m, rows m).

(** [n] is a nearest integer of [q]; at a halfway point both neighbours
    are. *)
Definition nearest (q : Q) (n : Z) : Prop :=
  (Qabs (q - inject_Z n) <= 1 # 2)%Q.

(** The product of a dimension and a scale factor as a real number. *)
Definition exact_scaled (s : spec_float) (dim : Z) : Q :=
  (inject_Z dim * Float32.to_Q s)%Q.

(** A scale factor [s > 0]: a positive finite [float]. *)
Definition positive_scale (s : spec_float) : Prop :=
  match s with
  | S754_finite false _ _ => True
  | _ => False
  end.

(** The rescale step as the specification words it: with [rw] and [rh]
    nearest integers of the exact products, the output has dimensions
    [(rw, rh)] when both are positive and the input dimensions otherwise.
    The specification names no rule for a halfway point, so either
    neighbour is accepted there. *)
Definition spec_rescale_dims (proc : Mat) (rw rh : Z) : Z * Z :=
  if (0 <? rw) && (0 <? rh) then (rw, rh) else dims proc.

Definition rescale_as_specified (unspec : Z) (s : spec_float) (proc : Mat)
    : Prop :=
  positive_scale s ->
  exists rw rh,
    nearest (exact_scaled s (cols proc)) rw
    /\ nearest (exact_scaled s (rows proc)) rh
    /\ dims (rescale unspec s proc) = spec_rescale_dims proc rw rh.

(** ** The rescale step as the C++ library specifies its parts *)

(** [n] is the integer nearest to [q], a halfway point going away from
    zero: the value [lround] is specified to return.  There is exactly one
    such [n]. *)
Definition nearest_away (q : Q) (n : Z) : Prop :=
  (Qabs (q - inject_Z n) < 1 # 2)%Q
  \/ ((Qabs (q - inject_Z n) == 1 # 2)%Q
      /\ (Qabs q < Qabs (inject_Z n))%Q).

(** [n] is what [lround] returns on the float [p]: for a finite [p] the
    nearest integer, halves away from zero, when a 64-bit [long] holds it;
    [unspec] when it does not, and on an infinity or a NaN. *)
Definition lround_returns (unspec : Z) (p : spec_float) (n : Z) : Prop :=
  match p with
  | S754_zero _ | S754_finite _ _ _ =>
      exists r, nearest_away (Float32.to_Q p) r
                /\ n = if (- 2 ^ 63 <=? r) && (r <? 2 ^ 63) then r
                       else unspec
  | _ => n = unspec
  end.

(** [i] is the [int] a [long] [n] converts to: the one value of the
    32-bit range that differs from [n] by a multiple of [2 ^ 32]; [n]
    itself when it is in that range. *)
Definition int_of_long (n i : Z) : Prop :=
  - 2 ^ 31 <= i < 2 ^ 31 /\ exists k, i = n + k * 2 ^ 32.

(** ** Sample runs *)

Definition argv_default : list string :=
  ["./mono_live"; "ORBvoc.txt"; "Settings.yaml"]%string.

Definition frame_vga : Mat := mkMat 640 480 3.

(** The [float] nearest to 0.7 and the [float] 0.5. *)
Definition scale_0_7 : spec_float := S754_finite false 11744051 (-24).
Definition scale_0_5 : spec_float := S754_finite false 8388608 (-24).

(** The [float] 1e7. *)
Definition scale_1e7 : spec_float := S754_finite false 10000000 0.

(** A clock that advances by a thirtieth of a second per sample. *)
Definition clock_30fps (k : nat) : Z := 5000000000 + Z.of_nat k * 33333333.

(** A camera that delivers [n] frames and then fails to read; no key is
    ever pressed. *)
Definition env_stream (n : nat) (init : EngineInit) : Env :=
  mkEnv true true init clock_30fps
    (fun k => if (k <? n)%nat then (true, frame_vga) else (false, mkMat 0 0 0))
    (fun _ => -1) 0.

(** A camera that never stops; [q] is pressed during iteration [n]. *)
Definition env_quit (n : nat) (init : EngineInit) : Env :=
  mkEnv true true init clock_30fps
    (fun _ => (true, frame_vga))
    (fun k => if (k =? n)%nat then 113 else -1) 0.

(** No camera can be opened. *)
Definition env_no_camera : Env :=
  mkEnv false false (InitOk Float32.one) clock_30fps
    (fun _ => (false, mkMat 0 0 0)) (fun _ => -1) 0.

(** The timestamp of iteration [k]: line 93-95 on the [(k+1)]-th clock
    sample. *)
Definition tframe_at (env : Env) (k : nat) : spec_float :=
  seconds_of_ticks (Int64.sub (steady_now env (S k)) (steady_now env 0)).

(** ** Further observations on traces *)

Definition is_capset (e : Event) : bool :=
  match e with ECapSet _ _ => true | _ => false end.

Definition is_stderr (e : Event) : bool :=
  match e with EStderr _ => true | _ => false end.

Definition is_now (e : Event) : bool :=
  match e with ENow _ => true | _ => false end.

Definition is_read (e : Event) : bool :=
  match e with ECapRead _ _ => true | _ => false end.

(** A read that takes the branch of line 87. *)
Definition is_failed_read (e : Event) : bool :=
  match e with ECapRead ok frame => negb ok || empty frame | _ => false end.

(** Lines 70-72, the three mode requests. *)
Definition mode_requests : Trace :=
  [ECapSet CAP_PROP_FRAME_WIDTH 640;
   ECapSet CAP_PROP_FRAME_HEIGHT 480;
   ECapSet CAP_PROP_FPS 30].

(** The frames handed to [imshow], in order. *)
Fixpoint shown (tr : Trace) : list Mat :=
  match tr with
  | [] => []
  | EImshow _ im :: tr' => im :: shown tr'
  | _ :: tr' => shown tr'
  end.


(** The preview calls use the one window name and a one millisecond
    poll. *)
Definition preview_call_ok (e : Event) : Prop :=
  match e with
  | EImshow w _ => w = window
  | EWaitKey d _ => d = 1
  | _ => True
  end.

(** An event without the pixels of the image it feeds: the geometry and
    the timestamp stay. *)
Definition erase_channels (e : Event) : Event :=
  match e with
  | ETrackMonocular im t => ETrackMonocular (mkMat (cols im) (rows im) 0) t
  | _ => e
  end.

(** Zero or a positive finite number. *)
Definition finite_nonneg (x : spec_float) : Prop :=
  x = S754_zero false \/ exists m e, x = S754_finite false m e.

(** Strict order of the positive normal floats, exponent first. *)
Definition lex_lt (a b : Z * Z) : Prop :=
  snd a < snd b \/ (snd a = snd b /\ fst a < fst b).

(** The [float] 0.75. *)
Definition scale_0_75 : spec_float := S754_finite false 12582912 (-24).

(** * Theorems *)

(** ** Binary digits *)

Lemma digits2_pos_bounds (p : positive) :
  2 ^ (Z.pos (digits2_pos p) - 1) <= Z.pos p < 2 ^ Z.pos (digits2_pos p).
Proof.
  induction p as [p IH|p IH|]; cbn [digits2_pos].
  - rewrite Pos2Z.inj_succ.
    replace (Z.succ (Z.pos (digits2_pos p)) - 1)
      with (Z.succ (Z.pos (digits2_pos p) - 1)) by lia.
    rewrite !Z.pow_succ_r by lia. lia.
  - rewrite Pos2Z.inj_succ.
    replace (Z.succ (Z.pos (digits2_pos p)) - 1)
      with (Z.succ (Z.pos (digits2_pos p) - 1)) by lia.
    rewrite !Z.pow_succ_r by lia. lia.
  - simpl. lia.
Qed.

Lemma Zdigits2_bounds (m : Z) :
  0 < m -> 2 ^ (Zdigits2 m - 1) <= m < 2 ^ Zdigits2 m.
Proof.
  destruct m as [|p|p]; try lia. intros _. apply digits2_pos_bounds.
Qed.

Lemma Zdigits2_pos (m : Z) : 0 < m -> 0 < Zdigits2 m.
Proof. destruct m; simpl; lia. Qed.

Lemma Zdigits2_unique (m k : Z) :
  2 ^ (k - 1) <= m < 2 ^ k -> 0 < k -> Zdigits2 m = k.
Proof.
  intros [Hlo Hhi] Hk.
  assert (Hm : 0 < m).
  { pose proof (Z.pow_pos_nonneg 2 (k - 1) ltac:(lia) ltac:(lia)). lia. }
  destruct (Zdigits2_bounds m Hm) as [Hlo' Hhi'].
  pose proof (Zdigits2_pos m Hm) as Hd.
  assert (H1 : k - 1 < Zdigits2 m).
  { apply (Z.pow_lt_mono_r_iff 2); lia. }
  assert (H2 : Zdigits2 m - 1 < k).
  { apply (Z.pow_lt_mono_r_iff 2); lia. }
  lia.
Qed.

Lemma Zdigits2_mono (a b : Z) :
  0 < a -> a <= b -> Zdigits2 a <= Zdigits2 b.
Proof.
  intros Ha Hab.
  destruct (Zdigits2_bounds a Ha) as [Hlo _].
  destruct (Zdigits2_bounds b ltac:(lia)) as [_ Hhi].
  pose proof (Zdigits2_pos b ltac:(lia)) as Hd.
  assert (H : Zdigits2 a - 1 < Zdigits2 b).
  { apply (Z.pow_lt_mono_r_iff 2); lia. }
  lia.
Qed.

(** ** Shifting a mantissa with guard bits *)

Import Round.

Lemma shr_1_spec (m : Z) (r s : bool) :
  0 <= m ->
  shr_1 (Build_shr_record m r s)
  = Build_shr_record (m / 2) (m mod 2 =? 1) (r || s).
Proof.
  intro Hm. unfold shr_1.
  destruct m as [|[p|p|]|p]; try lia.
  - reflexivity.
  - rewrite <- (Z.div_unique_pos (Z.pos p~1) 2 (Z.pos p) 1) by lia.
    rewrite <- (Z.mod_unique_pos (Z.pos p~1) 2 (Z.pos p) 1) by lia.
    reflexivity.
  - rewrite <- (Z.div_unique_pos (Z.pos p~0) 2 (Z.pos p) 0) by lia.
    rewrite <- (Z.mod_unique_pos (Z.pos p~0) 2 (Z.pos p) 0) by lia.
    reflexivity.
  - reflexivity.
Qed.

Lemma rec_of_fields (N D : Z) :
  0 < D ->
  rec_of N D
  = Build_shr_record (N / D) (D <=? 2 * (N mod D))
      (negb (N mod D =? 0) && negb (2 * (N mod D) =? D)).
Proof.
  intro HD. unfold rec_of, loc_of.
  pose proof (Z.mod_pos_bound N D HD) as HR.
  destruct (Z.eqb_spec (N mod D) 0) as [H0|H0].
  - rewrite H0. cbn [shr_record_of_loc negb andb].
    destruct (Z.leb_spec D (2 * 0)); [lia | reflexivity].
  - cbn [negb andb].
    destruct (Z.compare_spec (2 * (N mod D)) D) as [H|H|H];
      cbn [shr_record_of_loc];
      destruct (Z.leb_spec D (2 * (N mod D)));
      destruct (Z.eqb_spec (2 * (N mod D)) D); try lia; reflexivity.
Qed.

Lemma div_mod_double (N D : Z) :
  0 < D ->
  N / (2 * D) = N / D / 2
  /\ N mod (2 * D) = (N / D) mod 2 * D + N mod D.
Proof.
  intro HD. split.
  - rewrite (Z.mul_comm 2 D). rewrite Z.div_div by lia. reflexivity.
  - rewrite (Z.mul_comm 2 D). rewrite Z.rem_mul_r by lia. lia.
Qed.

Lemma shr_1_rec (N D : Z) :
  0 <= N -> 0 < D -> shr_1 (rec_of N D) = rec_of N (2 * D).
Proof.
  intros HN HD.
  rewrite !rec_of_fields by lia.
  rewrite shr_1_spec by (apply Z.div_pos; lia).
  destruct (div_mod_double N D HD) as [Hq HR]. rewrite Hq, HR.
  pose proof (Z.mod_pos_bound N D HD) as Hr.
  pose proof (Z.mod_pos_bound (N / D) 2 ltac:(lia)) as Hb.
  assert (Hcase : (N / D) mod 2 = 0 \/ (N / D) mod 2 = 1) by lia.
  destruct Hcase as [Hc|Hc]; rewrite Hc; f_equal.
  - destruct (Z.leb_spec (2 * D) (2 * (0 * D + N mod D))); [lia|reflexivity].
  - destruct (Z.leb_spec D (2 * (N mod D)));
      destruct (Z.eqb_spec (N mod D) 0);
      destruct (Z.eqb_spec (2 * (N mod D)) D);
      destruct (Z.eqb_spec (0 * D + N mod D) 0);
      destruct (Z.eqb_spec (2 * (0 * D + N mod D)) (2 * D));
      try lia; reflexivity.
  - destruct (Z.leb_spec (2 * D) (2 * (1 * D + N mod D))); [reflexivity|lia].
  - destruct (Z.leb_spec D (2 * (N mod D)));
      destruct (Z.eqb_spec (N mod D) 0);
      destruct (Z.eqb_spec (2 * (N mod D)) D);
      destruct (Z.eqb_spec (1 * D + N mod D) 0);
      destruct (Z.eqb_spec (2 * (1 * D + N mod D)) (2 * D));
      try lia; reflexivity.
Qed.

Lemma iter_shr_1_rec (n : positive) (N D : Z) :
  0 <= N -> 0 < D ->
  iter_pos shr_1 n (rec_of N D) = rec_of N (D * 2 ^ Z.pos n).
Proof.
  intro HN. revert D.
  induction n as [n IH|n IH|]; intros D HD; cbn [iter_pos].
  - assert (Hp : 0 < 2 ^ Z.pos n) by (apply Z.pow_pos_nonneg; lia).
    rewrite shr_1_rec, IH, IH by nia. f_equal.
    replace (Z.pos n~1) with (Z.pos n + Z.pos n + 1) by lia.
    rewrite !Z.pow_add_r, Z.pow_1_r by lia. ring.
  - assert (Hp : 0 < 2 ^ Z.pos n) by (apply Z.pow_pos_nonneg; lia).
    rewrite IH, IH by nia. f_equal.
    replace (Z.pos n~0) with (Z.pos n + Z.pos n) by lia.
    rewrite !Z.pow_add_r by lia. ring.
  - rewrite shr_1_rec by lia. f_equal. rewrite Z.pow_1_r. ring.
Qed.

Lemma shr_rec (N D e n : Z) :
  0 <= N -> 0 < D -> 0 <= n ->
  shr (rec_of N D) e n = (rec_of N (D * 2 ^ n), e + n).
Proof.
  intros HN HD Hn. unfold shr. destruct n as [|n|n]; try lia.
  - rewrite Z.pow_0_r, Z.mul_1_r, Z.add_0_r. reflexivity.
  - rewrite iter_shr_1_rec by lia. reflexivity.
Qed.

Lemma shr_m_rec (N D : Z) : shr_m (rec_of N D) = N / D.
Proof.
  unfold rec_of. destruct (loc_of N D) as [|[ | | ]]; reflexivity.
Qed.

Lemma loc_rec (N D : Z) : loc_of_shr_record (rec_of N D) = loc_of N D.
Proof.
  unfold rec_of. destruct (loc_of N D) as [|[ | | ]]; reflexivity.
Qed.

Lemma rec_of_exact (m : Z) : shr_record_of_loc m loc_Exact = rec_of m 1.
Proof.
  unfold rec_of, loc_of. rewrite Z.mod_1_r, Z.div_1_r. reflexivity.
Qed.

(** ** Rounding a fraction to the nearest integer, ties to even *)

Lemma rhe_spec (N D : Z) :
  0 < D ->
  rhe N D
  = if 2 * (N mod D) <? D then N / D
    else if D <? 2 * (N mod D) then N / D + 1
    else if Z.even (N / D) then N / D else N / D + 1.
Proof.
  intro HD. unfold rhe, loc_of.
  pose proof (Z.mod_pos_bound N D HD) as HR.
  destruct (Z.eqb_spec (N mod D) 0) as [H0|H0].
  - cbn [round_nearest_even].
    destruct (Z.ltb_spec (2 * (N mod D)) D); [reflexivity | lia].
  - destruct (Z.compare_spec (2 * (N mod D)) D) as [H|H|H];
      cbn [round_nearest_even];
      destruct (Z.ltb_spec (2 * (N mod D)) D);
      destruct (Z.ltb_spec D (2 * (N mod D))); try lia; reflexivity.
Qed.

Lemma rhe_bounds (N D : Z) :
  0 < D -> N / D <= rhe N D <= N / D + 1.
Proof.
  intro HD. rewrite rhe_spec by exact HD.
  destruct (2 * (N mod D) <? D); [lia|].
  destruct (D <? 2 * (N mod D)); [lia|].
  destruct (Z.even (N / D)); lia.
Qed.

Lemma rhe_mono (N1 N2 D : Z) :
  0 < D -> N1 <= N2 -> rhe N1 D <= rhe N2 D.
Proof.
  intros HD HN.
  pose proof (Z.div_le_mono N1 N2 D HD HN) as Hq.
  destruct (Z.eq_dec (N1 / D) (N2 / D)) as [Heq|Hne].
  - pose proof (Z.div_mod N1 D ltac:(lia)) as H1.
    pose proof (Z.div_mod N2 D ltac:(lia)) as H2.
    rewrite !rhe_spec by exact HD. rewrite Heq in *.
    destruct (Z.ltb_spec (2 * (N1 mod D)) D);
      destruct (Z.ltb_spec (2 * (N2 mod D)) D);
      destruct (Z.ltb_spec D (2 * (N1 mod D)));
      destruct (Z.ltb_spec D (2 * (N2 mod D)));
      destruct (Z.even (N2 / D)); lia.
  - pose proof (rhe_bounds N1 D HD). pose proof (rhe_bounds N2 D HD). lia.
Qed.

Lemma rhe_ge (N D t : Z) : 0 < D -> t * D <= N -> t <= rhe N D.
Proof.
  intros HD Ht. pose proof (rhe_bounds N D HD).
  assert (t <= N / D) by (apply Z.div_le_lower_bound; lia). lia.
Qed.

Lemma rhe_le (N D t : Z) : 0 < D -> N <= t * D -> rhe N D <= t.
Proof.
  intros HD Ht.
  destruct (Z.eq_dec N (t * D)) as [->|Hne].
  - rewrite rhe_spec by exact HD.
    rewrite Z.mod_mul, Z.div_mul by lia.
    destruct (Z.ltb_spec (2 * 0) D); lia.
  - pose proof (rhe_bounds N D HD).
    assert (N / D < t) by (apply Z.div_lt_upper_bound; lia). lia.
Qed.

Lemma rhe_scale (N D c : Z) :
  0 < D -> 0 < c -> rhe (N * c) (D * c) = rhe N D.
Proof.
  intros HD Hc. unfold rhe, loc_of.
  rewrite Z.div_mul_cancel_r, Z.mul_mod_distr_r by lia.
  replace (N mod D * c =? 0) with (N mod D =? 0).
  - replace (2 * (N mod D * c) ?= D * c) with (2 * (N mod D) ?= D);
      [reflexivity|].
    destruct (Z.compare_spec (2 * (N mod D)) D),
      (Z.compare_spec (2 * (N mod D * c)) (D * c)); try reflexivity; nia.
  - destruct (Z.eqb_spec (N mod D) 0), (Z.eqb_spec (N mod D * c) 0);
      try reflexivity; nia.
Qed.

Lemma rhe_exact (m : Z) : rhe m 1 = m.
Proof.
  unfold rhe, loc_of. rewrite Z.mod_1_r, Z.div_1_r. reflexivity.
Qed.

(** ** [binary_round_aux] in closed form *)

Section Format.

Variables prec emax : Z.
Hypothesis prec_pos : 0 < prec.

Lemma fexp_normal (k : Z) :
  emin prec emax <= k - prec -> fexp prec emax k = k - prec.
Proof. unfold fexp. lia. Qed.

Lemma shr_fexp_rec (N D ex : Z) :
  0 <= N -> 0 < D ->
  0 <= fexp prec emax (Zdigits2 (N / D) + ex) - ex ->
  shr_fexp prec emax (N / D) ex (loc_of N D)
  = (rec_of N (D * 2 ^ (fexp prec emax (Zdigits2 (N / D) + ex) - ex)),
     fexp prec emax (Zdigits2 (N / D) + ex)).
Proof.
  intros HN HD Hn. unfold shr_fexp. fold (rec_of N D).
  rewrite shr_rec by assumption. f_equal. lia.
Qed.

(** A quotient of at least [prec] bits shifted down to [prec] bits and
    rounded stays between [2 ^ (prec - 1)] and [2 ^ prec]. *)
Lemma rhe_normal (N D : Z) :
  0 < D -> 2 ^ (prec - 1) <= N / D ->
  0 <= Zdigits2 (N / D) - prec
  /\ 2 ^ (prec - 1) <= rhe N (D * 2 ^ (Zdigits2 (N / D) - prec)) <= 2 ^ prec.
Proof.
  intros HD Hq.
  assert (Hq0 : 0 < N / D).
  { pose proof (Z.pow_pos_nonneg 2 (prec - 1) ltac:(lia) ltac:(lia)). lia. }
  destruct (Zdigits2_bounds (N / D) Hq0) as [Hlo Hhi].
  set (d := Zdigits2 (N / D)) in *.
  assert (Hd : prec <= d).
  { assert (prec - 1 < d); [|lia].
    apply (Z.pow_lt_mono_r_iff 2); try lia.
    pose proof (Zdigits2_pos (N / D) Hq0). fold d in H. lia. }
  split; [lia|].
  set (n := d - prec).
  assert (Hp : 0 < 2 ^ n) by (apply Z.pow_pos_nonneg; lia).
  assert (H1 : 2 ^ (d - 1) = 2 ^ (prec - 1) * 2 ^ n).
  { rewrite <- Z.pow_add_r by lia. f_equal. lia. }
  assert (H2 : 2 ^ d = 2 ^ prec * 2 ^ n).
  { rewrite <- Z.pow_add_r by lia. f_equal. lia. }
  pose proof (Z.mul_div_le N D HD) as Hle.
  pose proof (Z.mul_succ_div_gt N D HD) as Hgt.
  split.
  - apply rhe_ge; [nia|].
    transitivity (D * (N / D)); [|exact Hle].
    rewrite Z.mul_assoc, (Z.mul_comm _ D), <- Z.mul_assoc, <- H1.
    apply Z.mul_le_mono_nonneg_l; lia.
  - apply rhe_le; [nia|].
    rewrite Z.mul_assoc, (Z.mul_comm _ D), <- Z.mul_assoc, <- H2.
    assert (D * Z.succ (N / D) <= D * 2 ^ d)
      by (apply Z.mul_le_mono_nonneg_l; lia).
    lia.
Qed.

Lemma rnd_mantissa (N D ex : Z) :
  0 < D -> 2 ^ (prec - 1) <= N / D ->
  2 ^ (prec - 1) <= fst (rnd prec N D ex) < 2 ^ prec.
Proof.
  intros HD Hq. destruct (rhe_normal N D HD Hq) as [_ [Hlo Hhi]].
  unfold rnd.
  destruct (Z.eqb_spec (rhe N (D * 2 ^ (Zdigits2 (N / D) - prec)))
              (2 ^ prec)) as [He|He]; cbn [fst].
  - split; [lia|]. apply Z.pow_lt_mono_r; lia.
  - lia.
Qed.

Lemma rnd_exponent (N D ex : Z) :
  ex + (Zdigits2 (N / D) - prec) <= snd (rnd prec N D ex)
  <= ex + (Zdigits2 (N / D) - prec) + 1.
Proof.
  unfold rnd.
  destruct (rhe N (D * 2 ^ (Zdigits2 (N / D) - prec)) =? 2 ^ prec);
    cbn [snd]; lia.
Qed.

Theorem binary_round_aux_rnd (sx : bool) (N D ex : Z) :
  0 <= N -> 0 < D ->
  2 ^ (prec - 1) <= N / D ->
  emin prec emax <= ex + (Zdigits2 (N / D) - prec) ->
  snd (rnd prec N D ex) <= emax - prec ->
  binary_round_aux prec emax sx (N / D) ex (loc_of N D)
  = S754_finite sx (Z.to_pos (fst (rnd prec N D ex))) (snd (rnd prec N D ex)).
Proof.
  intros HN HD Hq Hmin Hmax.
  destruct (rhe_normal N D HD Hq) as [Hn [Hlo Hhi]].
  pose proof (Z.pow_pos_nonneg 2 (prec - 1) ltac:(lia) ltac:(lia)) as Hpp.
  unfold rnd in *. set (n := Zdigits2 (N / D) - prec) in *.
  assert (Hf : fexp prec emax (Zdigits2 (N / D) + ex) = ex + n).
  { rewrite fexp_normal by lia. lia. }
  assert (Hpn : 0 < 2 ^ n) by (apply Z.pow_pos_nonneg; lia).
  unfold binary_round_aux.
  rewrite shr_fexp_rec by (try assumption; lia).
  rewrite Hf. replace (ex + n - ex) with n by lia.
  cbv beta iota. rewrite shr_m_rec, loc_rec.
  fold (rhe N (D * 2 ^ n)). set (m1 := rhe N (D * 2 ^ n)) in *.
  unfold shr_fexp. rewrite rec_of_exact.
  destruct (Z.eqb_spec m1 (2 ^ prec)) as [He|He]; cbn [fst snd] in *.
  - assert (Hd : Zdigits2 m1 = prec + 1).
    { apply Zdigits2_unique; [|lia]. rewrite He.
      replace (prec + 1 - 1) with prec by lia.
      split; [lia|]. apply Z.pow_lt_mono_r; lia. }
    rewrite Hd, fexp_normal by lia.
    replace (prec + 1 + (ex + n) - prec - (ex + n)) with 1 by lia.
    rewrite shr_rec by lia. cbv beta iota. rewrite shr_m_rec.
    replace (ex + n + 1 <=? emax - prec) with true
      by (symmetry; apply Z.leb_le; lia).
    rewrite He. change (1 * 2 ^ 1) with 2.
    replace (2 ^ prec) with (2 ^ (prec - 1) * 2).
    + rewrite Z.div_mul by lia.
      destruct (2 ^ (prec - 1)) as [|p|p]; try lia. reflexivity.
    + replace prec with (prec - 1 + 1) at 2 by lia.
      rewrite Z.pow_add_r by lia. reflexivity.
  - assert (Hd : Zdigits2 m1 = prec).
    { apply Zdigits2_unique; lia. }
    rewrite Hd, fexp_normal by lia.
    replace (prec + (ex + n) - prec - (ex + n)) with 0 by lia.
    rewrite shr_rec by lia. cbv beta iota. rewrite shr_m_rec.
    change (1 * 2 ^ 0) with 1. rewrite Z.div_1_r, Z.add_0_r.
    replace (ex + n <=? emax - prec) with true
      by (symmetry; apply Z.leb_le; lia).
    destruct m1 as [|p|p]; try lia. reflexivity.
Qed.

End Format.

(** ** Rounding is monotone *)

Section Monotone.

Variable prec : Z.
Hypothesis prec_pos : 0 < prec.

Lemma Zdigits2_shift (N D j : Z) :
  0 < D -> 0 < N / D -> 0 <= j ->
  Zdigits2 (N * 2 ^ j / D) = Zdigits2 (N / D) + j.
Proof.
  intros HD Hq Hj.
  destruct (Zdigits2_bounds (N / D) Hq) as [Hlo Hhi].
  pose proof (Zdigits2_pos (N / D) Hq) as Hd.
  set (d := Zdigits2 (N / D)) in *.
  assert (Hp : 0 < 2 ^ j) by (apply Z.pow_pos_nonneg; lia).
  pose proof (Z.mul_div_le N D HD) as Hle.
  pose proof (Z.mul_succ_div_gt N D HD) as Hgt.
  apply Zdigits2_unique; [|lia]. split.
  - apply Z.div_le_lower_bound; [exact HD|].
    replace (d + j - 1) with (d - 1 + j) by lia.
    rewrite Z.pow_add_r by lia.
    assert (D * 2 ^ (d - 1) <= D * (N / D))
      by (apply Z.mul_le_mono_nonneg_l; lia).
    nia.
  - apply Z.div_lt_upper_bound; [exact HD|].
    rewrite Z.pow_add_r by lia.
    assert (D * Z.succ (N / D) <= D * 2 ^ d)
      by (apply Z.mul_le_mono_nonneg_l; lia).
    nia.
Qed.

(** The same number written with another denominator and another
    exponent rounds to the same float. *)
Lemma rnd_scale (N D ex c j : Z) :
  0 < D -> 0 < c -> 0 <= j -> 2 ^ (prec - 1) <= N / D ->
  rnd prec (N * 2 ^ j * c) (D * c) (ex - j) = rnd prec N D ex.
Proof.
  intros HD Hc Hj Hq.
  assert (Hq0 : 0 < N / D).
  { pose proof (Z.pow_pos_nonneg 2 (prec - 1) ltac:(lia) ltac:(lia)). lia. }
  destruct (rhe_normal prec prec_pos N D HD Hq) as [Hn _].
  unfold rnd.
  rewrite Z.div_mul_cancel_r by lia.
  rewrite Zdigits2_shift by assumption.
  set (n := Zdigits2 (N / D) - prec) in *.
  replace (Zdigits2 (N / D) + j - prec) with (n + j) by lia.
  assert (Hp : 0 < 2 ^ j) by (apply Z.pow_pos_nonneg; lia).
  assert (Hpn : 0 < 2 ^ n) by (apply Z.pow_pos_nonneg; lia).
  replace (N * 2 ^ j * c) with (N * (2 ^ j * c)) by ring.
  replace (D * c * 2 ^ (n + j)) with (D * 2 ^ n * (2 ^ j * c))
    by (rewrite Z.pow_add_r by lia; ring).
  rewrite rhe_scale by nia.
  replace (ex - j + (n + j)) with (ex + n) by lia.
  reflexivity.
Qed.

Lemma rnd_mono_same (N1 N2 D ex : Z) :
  0 < D -> 2 ^ (prec - 1) <= N1 / D -> N1 <= N2 ->
  lex_le (rnd prec N1 D ex) (rnd prec N2 D ex).
Proof.
  intros HD Hq1 HN.
  pose proof (Z.div_le_mono N1 N2 D HD HN) as Hq.
  assert (Hq2 : 2 ^ (prec - 1) <= N2 / D) by lia.
  assert (Hq0 : 0 < N1 / D).
  { pose proof (Z.pow_pos_nonneg 2 (prec - 1) ltac:(lia) ltac:(lia)). lia. }
  pose proof (Zdigits2_mono _ _ Hq0 Hq) as Hd.
  destruct (rhe_normal prec prec_pos N1 D HD Hq1) as [Hn1 [Hlo1 Hhi1]].
  destruct (rhe_normal prec prec_pos N2 D HD Hq2) as [Hn2 [Hlo2 Hhi2]].
  unfold rnd, lex_le.
  destruct (Z.eq_dec (Zdigits2 (N1 / D)) (Zdigits2 (N2 / D))) as [He|Hne].
  - rewrite <- He in *.
    set (n := Zdigits2 (N1 / D) - prec) in *.
    assert (Hpn : 0 < 2 ^ n) by (apply Z.pow_pos_nonneg; lia).
    pose proof (rhe_mono N1 N2 (D * 2 ^ n) ltac:(nia) HN) as Hm.
    destruct (Z.eqb_spec (rhe N1 (D * 2 ^ n)) (2 ^ prec));
      destruct (Z.eqb_spec (rhe N2 (D * 2 ^ n)) (2 ^ prec));
      cbn [fst snd]; lia.
  - destruct (Z.eqb_spec (rhe N1 (D * 2 ^ (Zdigits2 (N1 / D) - prec)))
                (2 ^ prec));
      destruct (Z.eqb_spec (rhe N2 (D * 2 ^ (Zdigits2 (N2 / D) - prec)))
                  (2 ^ prec));
      cbn [fst snd]; lia.
Qed.

Lemma lex_le_leb (p1 p2 : positive) (e1 e2 : Z) :
  lex_le (Z.pos p1, e1) (Z.pos p2, e2) ->
  SFleb (S754_finite false p1 e1) (S754_finite false p2 e2) = true.
Proof.
  unfold lex_le, SFleb, SFcompare. cbn [fst snd].
  intros [Hlt | [-> Hle]].
  - apply Z.compare_lt_iff in Hlt. rewrite Hlt. reflexivity.
  - rewrite Z.compare_refl.
    change (Pos.compare_cont Eq p1 p2) with (Pos.compare p1 p2).
    destruct (Pos.compare_spec p1 p2); try reflexivity. lia.
Qed.

End Monotone.

(** ** Conversion and division in a binary format *)

Lemma pos_iter_xO (p k : positive) :
  Z.pos (Pos.iter xO p k) = Z.pos p * 2 ^ Z.pos k.
Proof.
  induction k as [|k IH] using Pos.peano_ind.
  - simpl. lia.
  - rewrite Pos.iter_succ, Pos2Z.inj_succ, Z.pow_succ_r by lia.
    rewrite Pos2Z.inj_xO, IH. ring.
Qed.

Lemma shl_align_spec (mx : positive) (ex ex' : Z) :
  snd (shl_align mx ex ex') = Z.min ex ex'
  /\ Z.pos (fst (shl_align mx ex ex'))
     = Z.pos mx * 2 ^ (ex - snd (shl_align mx ex ex')).
Proof.
  unfold shl_align. destruct (ex' - ex) as [|d|d] eqn:Hd; cbn [fst snd].
  - split; [lia|]. rewrite Z.sub_diag. simpl. lia.
  - split; [lia|]. rewrite Z.sub_diag. simpl. lia.
  - split; [lia|]. rewrite pos_iter_xO. f_equal. f_equal. lia.
Qed.

Section Operations.

Variables prec emax : Z.
Hypothesis prec_pos : 0 < prec.

(** The conversion of a positive integer, for a format whose exponent
    range holds it. *)
Lemma binary_normalize_rnd (a : Z) :
  0 < a ->
  emin prec emax <= Zdigits2 a - prec ->
  Z.max 0 (Zdigits2 a - prec) + 1 <= emax - prec ->
  binary_normalize prec emax a 0 false
  = S754_finite false
      (Z.to_pos (fst (rnd prec (a * 2 ^ (prec - 1)) 1 (- (prec - 1)))))
      (snd (rnd prec (a * 2 ^ (prec - 1)) 1 (- (prec - 1)))).
Proof.
  intros Ha Hmin Hmax. destruct a as [|p|p]; try lia.
  cbn [binary_normalize]. unfold binary_round.
  destruct (shl_align_spec p 0 (fexp prec emax (Z.pos (digits2_pos p) + 0)))
    as [Hez Hmz].
  destruct (shl_align p 0 (fexp prec emax (Z.pos (digits2_pos p) + 0)))
    as [mz ez].
  cbn [fst snd] in Hez, Hmz.
  change (Z.pos (digits2_pos p)) with (Zdigits2 (Z.pos p)) in Hez.
  rewrite Z.add_0_r, fexp_normal in Hez by lia.
  assert (Hez0 : ez <= 0) by lia.
  assert (Hp : 0 < 2 ^ (0 - ez)) by (apply Z.pow_pos_nonneg; lia).
  assert (Hdz : Zdigits2 (Z.pos mz) = Zdigits2 (Z.pos p) + (0 - ez)).
  { rewrite Hmz.
    rewrite <- (Z.div_1_r (Z.pos p * 2 ^ (0 - ez))).
    rewrite Zdigits2_shift; rewrite ?Z.div_1_r; lia. }
  pose proof (Zdigits2_pos (Z.pos p) Ha) as Hd0.
  assert (Hq : 2 ^ (prec - 1) <= Z.pos mz / 1).
  { rewrite Z.div_1_r.
    destruct (Zdigits2_bounds (Z.pos mz) ltac:(lia)) as [Hlo _].
    rewrite Hdz in Hlo.
    transitivity (2 ^ (Zdigits2 (Z.pos p) + (0 - ez) - 1)); [|exact Hlo].
    apply Z.pow_le_mono_r; lia. }
  pose proof (rnd_exponent prec (Z.pos mz) 1 ez) as Hexp.
  rewrite Z.div_1_r, Hdz in Hexp.
  assert (Hscale : rnd prec (Z.pos p * 2 ^ (prec - 1)) 1 (- (prec - 1))
                   = rnd prec (Z.pos mz) 1 ez).
  { rewrite <- (rnd_scale prec prec_pos (Z.pos mz) 1 ez 1 (ez + (prec - 1)))
      by lia.
    f_equal; [|lia]. rewrite Hmz, Z.mul_1_r, <- Z.mul_assoc.
    rewrite <- Z.pow_add_r by lia. f_equal. f_equal. lia. }
  rewrite Hscale.
  replace (binary_round_aux prec emax false (Z.pos mz) ez loc_Exact)
    with (binary_round_aux prec emax false (Z.pos mz / 1) ez
            (loc_of (Z.pos mz) 1)).
  - apply binary_round_aux_rnd; try assumption; try lia.
    rewrite Z.div_1_r, Hdz. lia.
  - unfold loc_of. rewrite Z.div_1_r, Z.mod_1_r. reflexivity.
Qed.

(** The quotient of two positive normal floats, the divisor with an even
    mantissa. *)
Lemma SFdiv_rnd (m1 m2 : positive) (e1 e2 : Z) :
  2 ^ (prec - 1) <= Z.pos m1 < 2 ^ prec ->
  2 ^ (prec - 1) <= Z.pos m2 < 2 ^ prec ->
  Z.even (Z.pos m2) = true ->
  emin prec emax <= e1 - e2 - prec ->
  e1 - e2 - prec + 2 <= emax - prec ->
  SFdiv prec emax (S754_finite false m1 e1) (S754_finite false m2 e2)
  = S754_finite false
      (Z.to_pos (fst (rnd prec (Z.pos m1 * 2 ^ prec) (Z.pos m2)
                        (e1 - e2 - prec))))
      (snd (rnd prec (Z.pos m1 * 2 ^ prec) (Z.pos m2) (e1 - e2 - prec))).
Proof.
  intros Hm1 Hm2 Heven Hmin Hmax.
  assert (Hd1 : Zdigits2 (Z.pos m1) = prec)
    by (apply Zdigits2_unique; lia).
  assert (Hd2 : Zdigits2 (Z.pos m2) = prec)
    by (apply Zdigits2_unique; lia).
  assert (Hpp : 0 < 2 ^ prec) by (apply Z.pow_pos_nonneg; lia).
  assert (Hpow : 2 ^ prec = 2 * 2 ^ (prec - 1)).
  { rewrite <- Z.pow_succ_r by lia. f_equal. lia. }
  set (N := Z.pos m1 * 2 ^ prec).
  set (D := Z.pos m2).
  assert (Hcore : SFdiv_core_binary prec emax (Z.pos m1) e1 (Z.pos m2) e2
                  = (N / D, e1 - e2 - prec, loc_of N D)).
  { unfold SFdiv_core_binary. rewrite Hd1, Hd2.
    replace (prec + e1 - (prec + e2)) with (e1 - e2) by lia.
    rewrite fexp_normal by lia.
    rewrite Z.min_l by lia.
    replace (e1 - e2 - (e1 - e2 - prec)) with prec by lia.
    destruct prec as [|pp|pp] eqn:Eprec; try lia.
    rewrite Z.shiftl_mul_pow2 by lia. fold N.
    unfold Z.div, Z.modulo, loc_of, new_location, new_location_even.
    fold D. destruct (Z.div_eucl N D) as [q r] eqn:Hqr.
    assert (Hr : r = N mod D) by (unfold Z.modulo; rewrite Hqr; reflexivity).
    fold D in Heven. rewrite Heven.
    unfold Z.modulo. rewrite Hqr. reflexivity. }
  unfold SFdiv. rewrite Hcore. cbn [xorb].
  assert (Hlo : 2 ^ (prec - 1) <= N / D).
  { apply Z.div_le_lower_bound; [lia|]. unfold N, D. nia. }
  assert (Hhi : N / D < 2 ^ (prec + 1)).
  { apply Z.div_lt_upper_bound; [lia|].
    rewrite Z.pow_add_r, Z.pow_1_r by lia. unfold N, D. nia. }
  assert (Hdq : Zdigits2 (N / D) <= prec + 1).
  { destruct (Zdigits2_bounds (N / D) ltac:(lia)) as [Hb _].
    assert (Zdigits2 (N / D) - 1 < prec + 1); [|lia].
    apply (Z.pow_lt_mono_r_iff 2); lia. }
  destruct (rhe_normal prec prec_pos N D ltac:(lia) Hlo) as [Hn _].
  pose proof (rnd_exponent prec N D (e1 - e2 - prec)) as Hexp.
  assert (HN0 : 0 <= N) by (unfold N; nia).
  assert (HD0 : 0 < D) by (unfold D; lia).
  apply binary_round_aux_rnd; try assumption; lia.
Qed.

(** Dividing two ordered positive normal floats by the same divisor keeps
    the order. *)
Lemma rnd_div_mono (m1 m2 e1 e2 D k : Z) :
  2 ^ (prec - 1) <= m1 < 2 ^ prec ->
  2 ^ (prec - 1) <= m2 < 2 ^ prec ->
  0 < D < 2 ^ prec ->
  lex_le (m1, e1) (m2, e2) ->
  lex_le (rnd prec (m1 * 2 ^ prec) D (e1 - k))
         (rnd prec (m2 * 2 ^ prec) D (e2 - k)).
Proof.
  intros Hm1 Hm2 HD Hle.
  assert (Hpp : 0 < 2 ^ prec) by (apply Z.pow_pos_nonneg; lia).
  assert (Hq : forall m, 2 ^ (prec - 1) <= m ->
                         2 ^ (prec - 1) <= m * 2 ^ prec / D).
  { intros m Hm. apply Z.div_le_lower_bound; [lia|]. nia. }
  unfold lex_le in Hle. cbn [fst snd] in Hle.
  destruct Hle as [Hlt | [-> Hmm]].
  - set (j := e2 - e1).
    assert (Hpj : 2 <= 2 ^ j).
    { change 2 with (2 ^ 1) at 1. apply Z.pow_le_mono_r; unfold j; lia. }
    rewrite <- (rnd_scale prec prec_pos (m2 * 2 ^ prec) D (e2 - k) 1 j)
      by (try apply Hq; unfold j; lia).
    rewrite !Z.mul_1_r. replace (e2 - k - j) with (e1 - k) by (unfold j; lia).
    apply rnd_mono_same; [exact prec_pos | lia | apply Hq; lia |].
    assert (Hpow : 2 ^ prec = 2 * 2 ^ (prec - 1)).
    { rewrite <- Z.pow_succ_r by lia. f_equal. lia. }
    assert (Hmj : m1 <= m2 * 2 ^ j) by nia.
    replace (m2 * 2 ^ prec * 2 ^ j) with (m2 * 2 ^ j * 2 ^ prec) by ring.
    apply Z.mul_le_mono_nonneg_r; lia.
  - apply rnd_mono_same; [exact prec_pos | lia | apply Hq; lia | nia].
Qed.

End Operations.

(** ** Timestamps in [double] *)

Lemma of_int_rnd (a : Z) :
  0 < a < 2 ^ 63 ->
  Float64.of_int a
  = S754_finite false (Z.to_pos (fst (rnd 53 (a * 2 ^ 52) 1 (-52))))
      (snd (rnd 53 (a * 2 ^ 52) 1 (-52))).
Proof.
  intros [Ha Hb].
  assert (Hd : 0 < Zdigits2 a <= 63).
  { split; [apply Zdigits2_pos; exact Ha|].
    destruct (Zdigits2_bounds a Ha) as [Hlo _].
    assert (Zdigits2 a - 1 < 63); [|lia].
    apply (Z.pow_lt_mono_r_iff 2); lia. }
  unfold Float64.of_int, Float64.prec, Float64.emax.
  rewrite (binary_normalize_rnd 53 1024 ltac:(lia) a Ha).
  - reflexivity.
  - unfold emin. lia.
  - lia.
Qed.

(** The mantissa and the exponent of the conversion of a tick count. *)
Lemma of_int_range (a : Z) :
  0 < a < 2 ^ 63 ->
  2 ^ 52 <= fst (rnd 53 (a * 2 ^ 52) 1 (-52)) < 2 ^ 53
  /\ -52 <= snd (rnd 53 (a * 2 ^ 52) 1 (-52)) <= 11.
Proof.
  intros [Ha Hb].
  assert (Hq : 2 ^ (53 - 1) <= a * 2 ^ 52 / 1).
  { rewrite Z.div_1_r. change (53 - 1) with 52. lia. }
  split.
  - apply (rnd_mantissa 53 ltac:(lia) (a * 2 ^ 52) 1 (-52) ltac:(lia) Hq).
  - pose proof (rnd_exponent 53 (a * 2 ^ 52) 1 (-52)) as Hexp.
    rewrite Z.div_1_r in *.
    assert (Hd : 53 <= Zdigits2 (a * 2 ^ 52) <= 115).
    { destruct (Zdigits2_bounds (a * 2 ^ 52) ltac:(lia)) as [Hlo Hhi].
      pose proof (Zdigits2_pos (a * 2 ^ 52) ltac:(lia)).
      split.
      - assert (52 < Zdigits2 (a * 2 ^ 52)); [|lia].
        apply (Z.pow_lt_mono_r_iff 2); lia.
      - assert (Zdigits2 (a * 2 ^ 52) - 1 < 115); [|lia].
        apply (Z.pow_lt_mono_r_iff 2); lia. }
    lia.
Qed.

(** 1e9 as a [double]. *)
Lemma of_int_1e9 :
  Float64.of_int 1000000000 = S754_finite false 8388608000000000 (-23).
Proof. reflexivity. Qed.

Lemma seconds_of_ticks_rnd (a : Z) :
  0 < a < 2 ^ 63 ->
  seconds_of_ticks a
  = S754_finite false
      (Z.to_pos
         (fst (rnd 53 (fst (rnd 53 (a * 2 ^ 52) 1 (-52)) * 2 ^ 53)
                 8388608000000000
                 (snd (rnd 53 (a * 2 ^ 52) 1 (-52)) - 30))))
      (snd (rnd 53 (fst (rnd 53 (a * 2 ^ 52) 1 (-52)) * 2 ^ 53)
              8388608000000000
              (snd (rnd 53 (a * 2 ^ 52) 1 (-52)) - 30))).
Proof.
  intro Ha. destruct (of_int_range a Ha) as [Hm He].
  unfold seconds_of_ticks. rewrite of_int_1e9, (of_int_rnd a Ha).
  set (m := fst (rnd 53 (a * 2 ^ 52) 1 (-52))) in *.
  set (e := snd (rnd 53 (a * 2 ^ 52) 1 (-52))) in *.
  unfold Float64.div, Float64.prec, Float64.emax.
  rewrite (SFdiv_rnd 53 1024 ltac:(lia)).
  - rewrite Z2Pos.id by lia.
    replace (e - -23 - 53) with (e - 30) by lia. reflexivity.
  - rewrite Z2Pos.id by lia. exact Hm.
  - split; [vm_compute; discriminate | reflexivity].
  - reflexivity.
  - unfold emin. lia.
  - lia.
Qed.

(** Line 93-95 is monotone: a later tick count gives a timestamp that is
    not smaller. *)
Theorem seconds_of_ticks_mono (a b : Z) :
  0 <= a -> a <= b -> b < 2 ^ 63 ->
  Float64.leb (seconds_of_ticks a) (seconds_of_ticks b) = true.
Proof.
  intros Ha Hab Hb. unfold Float64.leb.
  destruct (Z.eq_dec a 0) as [->|Ha0].
  - destruct (Z.eq_dec b 0) as [->|Hb0]; [reflexivity|].
    rewrite (seconds_of_ticks_rnd b) by lia. reflexivity.
  - rewrite (seconds_of_ticks_rnd a), (seconds_of_ticks_rnd b) by lia.
    destruct (of_int_range a ltac:(lia)) as [Hma Hea].
    destruct (of_int_range b ltac:(lia)) as [Hmb Heb].
    assert (Hle : lex_le (rnd 53 (a * 2 ^ 52) 1 (-52))
                         (rnd 53 (b * 2 ^ 52) 1 (-52))).
    { apply rnd_mono_same; try lia. rewrite Z.div_1_r.
      change (53 - 1) with 52. lia. }
    set (ra := rnd 53 (a * 2 ^ 52) 1 (-52)) in *.
    set (rb := rnd 53 (b * 2 ^ 52) 1 (-52)) in *.
    pose proof (rnd_div_mono 53 ltac:(lia) (fst ra) (fst rb) (snd ra) (snd rb)
                  8388608000000000 30 Hma Hmb
                  ltac:(split; reflexivity)) as Hdiv.
    rewrite <- !surjective_pairing in Hdiv. specialize (Hdiv Hle).
    assert (Hq : forall m, 2 ^ 52 <= m ->
               2 ^ (53 - 1) <= m * 2 ^ 53 / 8388608000000000).
    { intros m Hm. apply Z.div_le_lower_bound; [lia|].
      change (53 - 1) with 52. lia. }
    pose proof (rnd_mantissa 53 ltac:(lia) (fst ra * 2 ^ 53) 8388608000000000
                  (snd ra - 30) ltac:(lia) (Hq _ (proj1 Hma))) as Ha'.
    pose proof (rnd_mantissa 53 ltac:(lia) (fst rb * 2 ^ 53) 8388608000000000
                  (snd rb - 30) ltac:(lia) (Hq _ (proj1 Hmb))) as Hb'.
    apply lex_le_leb. rewrite !Z2Pos.id by lia.
    rewrite <- !surjective_pairing. exact Hdiv.
Qed.
(** ** Counting events *)

Lemma count_app (p : Event -> bool) (a b : Trace) :
  count p (a ++ b) = (count p a + count p b)%nat.
Proof.
  unfold count. rewrite filter_app, length_app. reflexivity.
Qed.

Lemma count_none (p : Event -> bool) (tr : Trace) :
  Forall (fun e => p e = false) tr -> count p tr = 0%nat.
Proof.
  unfold count. induction 1 as [|e tr He _ IH]; simpl.
  - reflexivity.
  - rewrite He. exact IH.
Qed.

Lemma fed_app (a b : Trace) : fed (a ++ b) = fed a ++ fed b.
Proof.
  induction a as [|e a IH]; simpl; [reflexivity|].
  destruct e; simpl; rewrite ?IH; reflexivity.
Qed.

Lemma stamps_app (a b : Trace) : stamps (a ++ b) = stamps a ++ stamps b.
Proof.
  induction a as [|e a IH]; simpl; [reflexivity|].
  destruct e; simpl; rewrite ?IH; reflexivity.
Qed.

Lemma captured_app (a b : Trace) : captured (a ++ b) = captured a ++ captured b.
Proof.
  induction a as [|e a IH]; simpl; [reflexivity|].
  destruct e; simpl; rewrite ?IH; try reflexivity.
  destruct (negb ret || empty frame); simpl; rewrite ?IH; reflexivity.
Qed.

Lemma count_track_fed (tr : Trace) : count is_track tr = List.length (fed tr).
Proof.
  unfold count. induction tr as [|e tr IH]; simpl; [reflexivity|].
  destruct e; simpl; rewrite ?IH; reflexivity.
Qed.

(** ** The loop *)

Section Loop.

Variable env : Env.
Variable g : bool.
Variable s : spec_float.

Lemma loop_step (fuel i : nat) :
  capture_loop env g s (S fuel) i =
  if read_fails env i then (loop_failed_read env i, BreakRead)
  else if quit_key (wait_key env i) then (loop_body env g s i, BreakKey)
  else (loop_body env g s i ++ fst (capture_loop env g s fuel (S i)),
        snd (capture_loop env g s fuel (S i))).
Proof.
  unfold read_fails, loop_failed_read, loop_body. simpl.
  destruct (cap_read env i) as [ok frame]; simpl.
  destruct (negb ok || empty frame); [reflexivity|].
  destruct (quit_key (wait_key env i)); [reflexivity|].
  destruct (capture_loop env g s fuel (S i)); reflexivity.
Qed.

Lemma loop_in_loop (fuel i : nat) :
  Forall (fun e => in_loop e = true) (fst (capture_loop env g s fuel i)).
Proof.
  revert i. induction fuel as [|fuel IH]; intro i.
  - constructor.
  - rewrite loop_step.
    destruct (read_fails env i); [repeat constructor|].
    destruct (quit_key (wait_key env i)); [repeat constructor|].
    cbn [fst]. unfold loop_body. simpl app.
    repeat (constructor; [reflexivity|]). apply IH.
Qed.

Lemma loop_count_none (p : Event -> bool) (fuel i : nat) :
  (forall e, in_loop e = true -> p e = false) ->
  count p (fst (capture_loop env g s fuel i)) = 0%nat.
Proof.
  intro Hp. apply count_none.
  eapply Forall_impl; [|apply loop_in_loop]. exact Hp.
Qed.

(** [k] iterations that do not stop: the loop is still running, and has fed
    [k] frames. *)
Lemma loop_running (k i : nat) :
  (forall j, (i <= j < i + k)%nat -> stops env j = false) ->
  snd (capture_loop env g s k i) = NoBreak
  /\ List.length (fed (fst (capture_loop env g s k i))) = k.
Proof.
  revert i. induction k as [|k IH]; intros i Hgo.
  - split; reflexivity.
  - rewrite loop_step.
    assert (Hi : stops env i = false) by (apply Hgo; lia).
    unfold stops in Hi. apply orb_false_iff in Hi. destruct Hi as [Hr Hq].
    rewrite Hr, Hq. cbn [fst snd].
    destruct (IH (S i)) as [He Hn]; [intros j Hj; apply Hgo; lia|].
    split; [exact He|].
    rewrite fed_app, length_app, Hn. reflexivity.
Qed.

(** With the first stop at iteration [i + k] and fuel beyond it, the loop
    is the [k] running iterations followed by the stopping one. *)
Lemma loop_stop (k fuel i : nat) :
  (forall j, (i <= j < i + k)%nat -> stops env j = false) ->
  stops env (i + k) = true ->
  (k < fuel)%nat ->
  capture_loop env g s fuel i =
  if read_fails env (i + k)
  then (fst (capture_loop env g s k i) ++ loop_failed_read env (i + k),
        BreakRead)
  else (fst (capture_loop env g s k i) ++ loop_body env g s (i + k),
        BreakKey).
Proof.
  revert fuel i. induction k as [|k IH]; intros fuel i Hgo Hstop Hfuel.
  - destruct fuel as [|fuel]; [lia|].
    rewrite Nat.add_0_r in *. rewrite loop_step. cbn [fst].
    unfold stops in Hstop.
    destruct (read_fails env i); [reflexivity|].
    simpl in Hstop. rewrite Hstop. reflexivity.
  - destruct fuel as [|fuel]; [lia|].
    rewrite (loop_step fuel), (loop_step k).
    assert (Hi : stops env i = false) by (apply Hgo; lia).
    unfold stops in Hi. apply orb_false_iff in Hi. destruct Hi as [Hr Hq].
    rewrite Hr, Hq. cbn [fst].
    replace (i + S k)%nat with (S i + k)%nat in * by lia.
    rewrite (IH fuel (S i));
      [| intros j Hj; apply Hgo; lia | exact Hstop | lia].
    destruct (read_fails env (S i + k)); cbn [fst]; rewrite <- app_assoc;
      reflexivity.
Qed.

End Loop.

(** ** [main] once the loop is entered *)

Lemma main_entered (fuel : nat) (argv : list string) (env : Env)
    (imageScale : spec_float) :
  enters_loop argv env ->
  system_ctor env = InitOk imageScale ->
  let l := capture_loop env (fst (parse_flags argv)) imageScale fuel 0 in
  main fuel argv env =
  match snd l with
  | NoBreak => (prologue argv env imageScale ++ fst l, Running)
  | _ => ((prologue argv env imageScale ++ fst l) ++ epilogue, Returned 0)
  end.
Proof.
  intros (Hargc & Hopen & _) Hctor l. unfold main, prologue.
  apply Z.ltb_ge in Hargc. rewrite Hargc.
  destruct (parse_flags argv) as [g u]. cbn [fst snd] in *.
  destruct (open_capture u env) as [tr_open opened]. cbn [fst snd] in *.
  subst opened. cbn [negb]. rewrite Hctor. subst l.
  destruct (capture_loop env g imageScale fuel 0) as [tr_loop e].
  cbn [fst snd]. rewrite <- !app_assoc.
  destruct e; reflexivity.
Qed.

Lemma open_capture_no (p : Event -> bool) (u : bool) (env : Env) :
  (forall s a r, p (ECapOpenPipeline s a r) = false) ->
  (forall i a r, p (ECapOpenIndex i a r) = false) ->
  (forall a b, p (ECapSet a b) = false) ->
  (forall s, p (EStderr s) = false) ->
  count p (fst (open_capture u env)) = 0%nat.
Proof.
  intros H1 H2 H3 H4. unfold open_capture, count.
  destruct u, (open_pipeline env), (open_index env); simpl;
    rewrite ?H1, ?H2, ?H3, ?H4; reflexivity.
Qed.

Lemma prologue_no (p : Event -> bool) argv env imageScale :
  (forall e, is_shutdown e = false -> is_save e = false -> p e = false) ->
  count p (prologue argv env imageScale) = 0%nat.
Proof.
  intro Hp. unfold prologue. rewrite count_app.
  rewrite open_capture_no by (intros; apply Hp; reflexivity).
  unfold count. simpl. rewrite !Hp by reflexivity. reflexivity.
Qed.

(** C1. Every run that enters the capture loop and whose loop is left, be it
    by the quit key, by a failed or empty read, or by the end of the
    stream (a failed read as well), calls [Shutdown] exactly once and
    [SaveKeyFrameTrajectoryTUM] exactly once, the save right after the
    shutdown; and a loop that has a first stopping iteration is left as soon
    as the fuel reaches it. *)
Theorem shutdown_then_export_once (argv : list string) (env : Env)
    (n fuel : nat) :
  enters_loop argv env ->
  first_stop env n ->
  (n < fuel)%nat ->
  exists pre post,
    main fuel argv env =
      (pre ++ EShutdown :: ESaveKeyFrameTrajectoryTUM trajectory_file :: post,
       Returned 0)
    /\ count is_shutdown (fst (main fuel argv env)) = 1%nat
    /\ count is_save (fst (main fuel argv env)) = 1%nat.
Proof.
  intros Henter [Hstop Hgo] Hfuel.
  destruct Henter as (Hargc & Hopen & imageScale & Hctor).
  assert (Henter : enters_loop argv env) by (repeat split; eauto).
  pose proof (main_entered fuel argv env imageScale Henter Hctor) as Hmain.
  cbv zeta in Hmain.
  pose proof (loop_stop env (fst (parse_flags argv)) imageScale n fuel 0)
    as Hloop.
  cbn [Nat.add] in Hloop.
  specialize (Hloop (fun j Hj => Hgo j (proj2 Hj)) Hstop Hfuel).
  assert (He : snd (capture_loop env (fst (parse_flags argv)) imageScale
                      fuel 0) <> NoBreak).
  { rewrite Hloop. destruct (read_fails env n); discriminate. }
  remember (capture_loop env (fst (parse_flags argv)) imageScale fuel 0)
    as l eqn:El.
  assert (Hm : main fuel argv env =
               ((prologue argv env imageScale ++ fst l) ++ epilogue,
                Returned 0)).
  { rewrite Hmain. destruct (snd l); [reflexivity | reflexivity |].
    contradiction He; reflexivity. }
  exists (prologue argv env imageScale ++ fst l), scope_exit.
  rewrite Hm. cbn [fst]. split; [reflexivity|].
  rewrite !count_app.
  rewrite !prologue_no by (intros e H1 H2; assumption).
  subst l. rewrite !loop_count_none by (intros []; simpl; congruence).
  split; reflexivity.
Qed.

(** ** Command line *)

Lemma parse_step_other (st : bool * bool) (x : string) :
  x <> "--gray"%string -> x <> "--gstreamer"%string -> parse_step st x = st.
Proof.
  intros H1 H2. unfold parse_step.
  apply String.eqb_neq in H1. apply String.eqb_neq in H2.
  rewrite H1, H2. reflexivity.
Qed.

Lemma parse_fold (l : list string) (st : bool * bool) :
  fold_left parse_step l st =
  (fst st || existsb (String.eqb "--gray") l,
   snd st || existsb (String.eqb "--gstreamer") l).
Proof.
  revert st. induction l as [|a l IH]; intros [g u];
    cbn [fold_left existsb fst snd].
  - rewrite !orb_false_r. reflexivity.
  - rewrite IH. unfold parse_step.
    rewrite (String.eqb_sym "--gray" a), (String.eqb_sym "--gstreamer" a).
    destruct (String.eqb_spec a "--gray") as [->|_]; cbn [fst snd orb].
    + rewrite orb_true_r. reflexivity.
    + destruct (a =? "--gstreamer")%string; cbn [fst snd orb];
        rewrite ?orb_true_r, ?orb_false_r; reflexivity.
Qed.

Lemma existsb_eqb_In (s : string) (l : list string) :
  existsb (String.eqb s) l = true <-> In s l.
Proof.
  rewrite existsb_exists. split.
  - intros (x & Hx & Heq). apply String.eqb_eq in Heq. subst. exact Hx.
  - intro H. exists s. split; [exact H | apply String.eqb_refl].
Qed.

Lemma forceGray_iff (argv : list string) :
  fst (parse_flags argv) = true <-> In "--gray"%string (skipn 3 argv).
Proof.
  unfold parse_flags. rewrite parse_fold. cbn [fst orb].
  apply existsb_eqb_In.
Qed.

Lemma useGStreamer_iff (argv : list string) :
  snd (parse_flags argv) = true <-> In "--gstreamer"%string (skipn 3 argv).
Proof.
  unfold parse_flags. rewrite parse_fold. cbn [snd orb].
  apply existsb_eqb_In.
Qed.

Lemma skipn_app_long {A : Type} (k : nat) (pre l : list A) :
  (k <= List.length pre)%nat -> skipn k (pre ++ l) = skipn k pre ++ l.
Proof.
  intro H. rewrite skipn_app.
  replace (k - List.length pre)%nat with 0%nat by lia. reflexivity.
Qed.

Lemma parse_flags_ignores (pre post : list string) (x : string) :
  (3 <= List.length pre)%nat ->
  x <> "--gray"%string -> x <> "--gstreamer"%string ->
  parse_flags (pre ++ x :: post) = parse_flags (pre ++ post).
Proof.
  intros Hlen H1 H2. unfold parse_flags.
  rewrite !skipn_app_long by exact Hlen.
  rewrite !fold_left_app. simpl.
  rewrite parse_step_other by assumption. reflexivity.
Qed.

(** C10. An argument after the two paths that is neither [--gray] nor
    [--gstreamer] changes nothing: the run with it and the run without it
    emit the same events and end the same way. *)
Theorem unknown_argument_ignored (fuel : nat) (env : Env)
    (pre post : list string) (x : string) :
  (3 <= List.length pre)%nat ->
  x <> "--gray"%string ->
  x <> "--gstreamer"%string ->
  parse_flags (pre ++ x :: post) = parse_flags (pre ++ post)
  /\ main fuel (pre ++ x :: post) env = main fuel (pre ++ post) env.
Proof.
  intros Hlen H1 H2.
  pose proof (parse_flags_ignores pre post x Hlen H1 H2) as Hflags.
  split; [exact Hflags|].
  unfold main. rewrite Hflags.
  assert (Hl : forall l, (Z.of_nat (List.length (pre ++ l)) <? 3) = false).
  { intro l. apply Z.ltb_ge. rewrite length_app. lia. }
  rewrite !Hl.
  assert (Hn : forall k l, (k < 3)%nat ->
             nth k (pre ++ l) ""%string = nth k pre ""%string).
  { intros k l Hk. apply app_nth1. lia. }
  rewrite (Hn 1%nat (x :: post)), (Hn 2%nat (x :: post)) by lia.
  rewrite (Hn 1%nat post), (Hn 2%nat post) by lia.
  reflexivity.
Qed.

(** ** Opening the capture *)

Lemma open_capture_attempts (u : bool) (env : Env) :
  count is_open_pipeline (fst (open_capture u env)) = (if u then 1 else 0)%nat
  /\ count is_open_index (fst (open_capture u env)) = (if u then 0 else 1)%nat.
Proof.
  unfold open_capture.
  destruct u, (open_pipeline env), (open_index env); split; reflexivity.
Qed.

(** The events of [main] are those of the open, then events that are
    neither an open nor a constructor call nor a shutdown, unless the
    loop was entered. *)
Lemma main_opens (p : Event -> bool) (fuel : nat) (argv : list string)
    (env : Env) :
  (forall e, is_open_pipeline e = false -> is_open_index e = false ->
             p e = false) ->
  count p (fst (main fuel argv env)) =
  if Z.of_nat (List.length argv) <? 3 then 0%nat
  else count p (fst (open_capture (snd (parse_flags argv)) env)).
Proof.
  intro Hp. unfold main.
  destruct (Z.of_nat (List.length argv) <? 3).
  { unfold count. simpl. rewrite Hp by reflexivity. reflexivity. }
  destruct (parse_flags argv) as [g u]. cbn [snd].
  destruct (open_capture u env) as [tr_open opened]. cbn [fst].
  destruct opened; cbn [negb].
  - destruct (system_ctor env) as [imageScale|status].
    + pose proof (loop_count_none env g imageScale p fuel 0) as Hloop.
      destruct (capture_loop env g imageScale fuel 0) as [tr_loop e].
      cbn [fst] in Hloop.
      assert (Hl : List.length (filter p tr_loop) = 0%nat).
      { apply Hloop. intros [] H; try discriminate H; apply Hp; reflexivity. }
      destruct e; cbn [fst]; rewrite ?count_app; unfold count; rewrite Hl;
        simpl; rewrite ?Hp by reflexivity; simpl; lia.
    + cbn [fst]. rewrite count_app. unfold count at 2. simpl.
      rewrite Hp by reflexivity. simpl. lia.
  - cbn [fst]. rewrite count_app. unfold count at 2. simpl.
    rewrite Hp by reflexivity. simpl. lia.
Qed.

(** C4. The two backends exclude each other: with [--gstreamer] among the
    flags no open by device index is attempted, without it no open of
    the pipeline is attempted, and no run attempts more than one open, so a
    failed open is never followed by an attempt on the other backend. *)
Theorem backend_exclusive (fuel : nat) (argv : list string) (env : Env) :
  (In "--gstreamer"%string (skipn 3 argv) ->
   count is_open_index (fst (main fuel argv env)) = 0%nat)
  /\ (~ In "--gstreamer"%string (skipn 3 argv) ->
      count is_open_pipeline (fst (main fuel argv env)) = 0%nat)
  /\ (count is_open_index (fst (main fuel argv env))
      + count is_open_pipeline (fst (main fuel argv env)) <= 1)%nat.
Proof.
  rewrite !main_opens by (intros []; simpl; congruence).
  destruct (Z.of_nat (List.length argv) <? 3).
  { repeat split; intros; lia. }
  destruct (open_capture_attempts (snd (parse_flags argv)) env) as [Hp Hi].
  rewrite Hp, Hi. rewrite <- useGStreamer_iff.
  destruct (snd (parse_flags argv)); repeat split; intros; try lia;
    congruence.
Qed.

(** The go-on flag of the open is the answer of the camera that the
    flags select. *)
Lemma open_capture_answer (argv : list string) (env : Env) (ret : bool) :
  snd (open_capture (snd (parse_flags argv)) env) = ret
  <-> selected_open argv env ret.
Proof.
  unfold selected_open. rewrite <- useGStreamer_iff.
  unfold open_capture.
  destruct (snd (parse_flags argv)).
  - destruct (open_pipeline env); cbn [snd]; split.
    + intro H. left. split; [reflexivity | exact H].
    + intros [[_ H] | [H _]]; [exact H | exfalso; apply H; reflexivity].
    + intro H. left. split; [reflexivity | exact H].
    + intros [[_ H] | [H _]]; [exact H | exfalso; apply H; reflexivity].
  - destruct (open_index env); cbn [snd]; split.
    + intro H. right. split; [discriminate | exact H].
    + intros [[H _] | [_ H]]; [discriminate H | exact H].
    + intro H. right. split; [discriminate | exact H].
    + intros [[H _] | [_ H]]; [discriminate H | exact H].
Qed.

(** C5. Missing positional arguments and a failed open of the selected
    backend (the camera answers [false] to the pipeline open under
    [--gstreamer], to the open of device 0 without it) both end the
    process with [return 1]; on these paths the engine is neither
    constructed nor shut down. *)
Theorem startup_failure_exits_1 (fuel : nat) (argv : list string)
    (env : Env) :
  missing_args argv \/ open_fails argv env ->
  snd (main fuel argv env) = Returned 1
  /\ count is_ctor (fst (main fuel argv env)) = 0%nat
  /\ count is_shutdown (fst (main fuel argv env)) = 0%nat.
Proof.
  unfold missing_args, open_fails.
  intros [Hargc | [Hargc Hopen]].
  - unfold main. apply Z.ltb_lt in Hargc. rewrite Hargc.
    repeat split; reflexivity.
  - apply open_capture_answer in Hopen.
    unfold main. apply Z.ltb_ge in Hargc. rewrite Hargc.
    destruct (parse_flags argv) as [g u]. cbn [snd] in Hopen.
    pose proof (open_capture_no is_ctor u env) as Hc.
    pose proof (open_capture_no is_shutdown u env) as Hs.
    destruct (open_capture u env) as [tr_open opened].
    cbn [fst snd] in *. subst opened. cbn [negb fst snd].
    rewrite !count_app, Hc, Hs by reflexivity.
    repeat split; reflexivity.
Qed.

(** C6. A failed or empty read (the end of the stream is one) ends the
    loop at once: after the [n] iterations that fed a frame come the
    failed read, its message, then shutdown, export and [return 0]; exactly
    [n] frames were fed. *)
Theorem read_failure_is_graceful (argv : list string) (env : Env)
    (n fuel : nat) :
  enters_loop argv env ->
  first_stop env n ->
  read_fails env n = true ->
  (n < fuel)%nat ->
  exists pre,
    main fuel argv env =
      (pre ++ loop_failed_read env n ++ epilogue, Returned 0)
    /\ List.length (fed pre) = n
    /\ count is_track (fst (main fuel argv env)) = n.
Proof.
  intros Henter [Hstop Hgo] Hfail Hfuel.
  destruct Henter as (Hargc & Hopen & imageScale & Hctor).
  assert (Henter : enters_loop argv env) by (repeat split; eauto).
  pose proof (main_entered fuel argv env imageScale Henter Hctor) as Hmain.
  cbv zeta in Hmain.
  pose proof (loop_stop env (fst (parse_flags argv)) imageScale n fuel 0)
    as Hloop.
  cbn [Nat.add] in Hloop.
  specialize (Hloop (fun j Hj => Hgo j (proj2 Hj)) Hstop Hfuel).
  rewrite Hfail in Hloop. rewrite Hloop in Hmain. cbn [fst snd] in Hmain.
  destruct (loop_running env (fst (parse_flags argv)) imageScale n 0)
    as [_ Hfed]; [intros j Hj; apply Hgo; lia|].
  assert (Hpro : fed (prologue argv env imageScale) = []).
  { unfold prologue, open_capture. rewrite fed_app.
    destruct (snd (parse_flags argv)), (open_pipeline env), (open_index env);
      reflexivity. }
  exists (prologue argv env imageScale
          ++ fst (capture_loop env (fst (parse_flags argv)) imageScale n 0)).
  rewrite Hmain. cbn [fst]. rewrite <- !app_assoc.
  split; [reflexivity|].
  rewrite count_track_fed, !fed_app, !length_app, Hpro, Hfed.
  split; simpl; lia.
Qed.

(** ** Traces around the loop *)

Lemma quiet_fed (tr : Trace) :
  Forall (fun e => quiet e = true) tr -> fed tr = [].
Proof.
  induction 1 as [|e tr He _ IH]; [reflexivity|].
  destruct e; try discriminate He; exact IH.
Qed.

Lemma quiet_captured (tr : Trace) :
  Forall (fun e => quiet e = true) tr -> captured tr = [].
Proof.
  induction 1 as [|e tr He _ IH]; [reflexivity|].
  destruct e; try discriminate He; exact IH.
Qed.

Lemma quiet_waitkey (tr : Trace) :
  Forall (fun e => quiet e = true) tr -> count is_waitkey tr = 0%nat.
Proof.
  intro H. apply count_none. eapply Forall_impl; [|exact H].
  intros [] He; try discriminate He; reflexivity.
Qed.

Lemma quiet_open_capture (u : bool) (env : Env) :
  Forall (fun e => quiet e = true) (fst (open_capture u env)).
Proof.
  unfold open_capture.
  destruct u, (open_pipeline env), (open_index env); repeat constructor.
Qed.

Lemma quiet_prologue argv env imageScale :
  Forall (fun e => quiet e = true) (prologue argv env imageScale).
Proof.
  unfold prologue. apply Forall_app. split.
  - apply quiet_open_capture.
  - repeat constructor.
Qed.

Lemma quiet_epilogue : Forall (fun e => quiet e = true) epilogue.
Proof. repeat constructor. Qed.

(** A run either enters the loop or emits quiet events only and ends with
    [return 1] or inside the engine constructor. *)
Lemma main_cases (fuel : nat) (argv : list string) (env : Env) :
  (exists imageScale,
      enters_loop argv env /\ system_ctor env = InitOk imageScale)
  \/ (Forall (fun e => quiet e = true) (fst (main fuel argv env))
      /\ (snd (main fuel argv env) = Returned 1
          \/ exists status,
               system_ctor env = InitError status
               /\ main fuel argv env =
                    (fst (open_capture (snd (parse_flags argv)) env)
                     ++ [ESystemCtor (nth 1 argv ""%string)
                           (nth 2 argv ""%string) MONOCULAR true false],
                     Exited status)
               /\ snd (open_capture (snd (parse_flags argv)) env) = true)).
Proof.
  unfold enters_loop, main.
  destruct (Z.ltb_spec (Z.of_nat (List.length argv)) 3) as [Hargc|Hargc].
  { right. split; [repeat constructor | left; reflexivity]. }
  destruct (parse_flags argv) as [g u]. cbn [snd].
  pose proof (quiet_open_capture u env) as Hq.
  destruct (open_capture u env) as [tr_open opened]. cbn [fst snd] in *.
  destruct opened; cbn [negb].
  - destruct (system_ctor env) as [imageScale|status].
    + left. exists imageScale. repeat split; eauto.
    + right. cbn [fst snd]. split.
      * apply Forall_app. split; [exact Hq | repeat constructor].
      * right. exists status. repeat split.
  - right. cbn [fst snd]. split; [|left; reflexivity].
    apply Forall_app. split; [exact Hq | repeat constructor].
Qed.

(** The trace of a run that entered the loop, without the outcome. *)
Lemma main_entered_trace (fuel : nat) (argv : list string) (env : Env)
    (imageScale : spec_float) :
  enters_loop argv env ->
  system_ctor env = InitOk imageScale ->
  let l := capture_loop env (fst (parse_flags argv)) imageScale fuel 0 in
  fst (main fuel argv env) =
  prologue argv env imageScale ++ fst l
  ++ match snd l with NoBreak => [] | _ => epilogue end.
Proof.
  intros Henter Hctor l.
  rewrite (main_entered fuel argv env imageScale Henter Hctor).
  fold l. destruct (snd l); cbn [fst]; rewrite <- ?app_assoc, ?app_nil_r;
    reflexivity.
Qed.

Lemma split_middle (a l b pre post : Trace) (x : Event) :
  a ++ l ++ b = pre ++ x :: post ->
  quiet x = false ->
  Forall (fun e => quiet e = true) a ->
  Forall (fun e => quiet e = true) b ->
  exists pre' post',
    pre = a ++ pre' /\ post = post' ++ b /\ l = pre' ++ x :: post'.
Proof.
  intros Heq Hx Ha Hb. revert pre Heq.
  induction Ha as [|e a He Ha IH]; intros pre Heq.
  - cbn [app] in Heq. revert pre Heq.
    induction l as [|e l IHl]; intros pre Heq.
    + cbn [app] in Heq. exfalso.
      rewrite Forall_forall in Hb.
      assert (Hin : In x b) by (rewrite Heq; apply in_elt).
      apply Hb in Hin. congruence.
    + destruct pre as [|e' pre]; cbn [app] in Heq.
      * injection Heq as Hex Hpost. subst e post.
        exists [], l. repeat split.
      * injection Heq as -> Heq.
        destruct (IHl pre Heq) as (pre' & post' & Hpre & Hpost & Hl).
        exists (e' :: pre'), post'. cbn [app] in *. subst. repeat split.
  - destruct pre as [|e' pre]; cbn [app] in Heq.
    + injection Heq as -> _. congruence.
    + injection Heq as -> Heq.
      destruct (IH pre Heq) as (pre' & post' & Hpre & Hpost & Hl).
      exists pre', post'. subst. repeat split.
Qed.

(** ** What the loop feeds *)

Lemma read_fails_eq (env : Env) (i : nat) :
  read_fails env i
  = negb (fst (cap_read env i)) || empty (snd (cap_read env i)).
Proof. unfold read_fails. destruct (cap_read env i); reflexivity. Qed.

Lemma loop_fed (env : Env) (g : bool) (s : spec_float) (fuel i : nat) :
  fed (fst (capture_loop env g s fuel i))
  = map (preprocess (lround_unspec env) g s)
        (captured (fst (capture_loop env g s fuel i))).
Proof.
  revert i. induction fuel as [|fuel IH]; intro i; [reflexivity|].
  rewrite loop_step. pose proof (read_fails_eq env i) as Hr.
  destruct (read_fails env i).
  - cbn [fst loop_failed_read fed captured]. rewrite <- Hr. reflexivity.
  - destruct (quit_key (wait_key env i)); cbn [fst];
      rewrite ?fed_app, ?captured_app, ?IH;
      cbn [loop_body fed captured]; rewrite <- Hr; reflexivity.
Qed.

Lemma main_fed (fuel : nat) (argv : list string) (env : Env)
    (imageScale : spec_float) :
  enters_loop argv env ->
  system_ctor env = InitOk imageScale ->
  fed (fst (main fuel argv env))
  = map (preprocess (lround_unspec env) (fst (parse_flags argv)) imageScale)
        (captured (fst (main fuel argv env))).
Proof.
  intros Henter Hctor.
  rewrite (main_entered_trace fuel argv env imageScale Henter Hctor).
  cbv zeta. rewrite !fed_app, !captured_app.
  rewrite (quiet_fed _ (quiet_prologue argv env imageScale)).
  rewrite (quiet_captured _ (quiet_prologue argv env imageScale)).
  destruct (snd (capture_loop env (fst (parse_flags argv)) imageScale
                   fuel 0));
    change (fed epilogue) with (@nil Mat);
    change (captured epilogue) with (@nil Mat);
    change (fed []) with (@nil Mat); change (captured []) with (@nil Mat);
    rewrite !app_nil_r; cbn [app]; apply loop_fed.
Qed.

Lemma rescale_channels (unspec : Z) (s : spec_float) (proc : Mat) :
  channels (rescale unspec s proc) = channels proc.
Proof.
  unfold rescale. destruct (Float32.neq s Float32.one); [|reflexivity].
  destruct ((0 <? scaled_dim unspec s (cols proc))
            && (0 <? scaled_dim unspec s (rows proc))); reflexivity.
Qed.

Lemma preprocess_channels (unspec : Z) (g : bool) (s : spec_float)
    (frame : Mat) :
  channels (preprocess unspec g s frame) = if g then 1 else channels frame.
Proof.
  unfold preprocess. rewrite rescale_channels. destruct g; reflexivity.
Qed.

(** C7. With [--gray] among the flags every frame handed to
    [TrackMonocular] has one channel; without it the fed frames have, one
    for one, the channel counts of the frames that were read. *)
Theorem fed_channels (fuel : nat) (argv : list string) (env : Env) :
  (In "--gray"%string (skipn 3 argv) ->
   Forall (fun im => channels im = 1) (fed (fst (main fuel argv env))))
  /\ (~ In "--gray"%string (skipn 3 argv) ->
      map channels (fed (fst (main fuel argv env)))
      = map channels (captured (fst (main fuel argv env)))).
Proof.
  rewrite <- forceGray_iff.
  destruct (main_cases fuel argv env) as [(s & Henter & Hctor) | [Hq _]].
  - rewrite (main_fed fuel argv env s Henter Hctor). split; intro Hg.
    + apply Forall_map, Forall_forall. intros frame _.
      rewrite preprocess_channels, Hg. reflexivity.
    + rewrite map_map. apply map_ext. intro frame.
      rewrite preprocess_channels.
      destruct (fst (parse_flags argv)); [congruence | reflexivity].
  - rewrite (quiet_fed _ Hq), (quiet_captured _ Hq).
    split; intros _; [constructor | reflexivity].
Qed.

(** ** Feeding comes before polling *)

Lemma loop_poll (env : Env) (g : bool) (s : spec_float) (fuel i : nat)
    (pre post : Trace) (d k : Z) :
  fst (capture_loop env g s fuel i) = pre ++ EWaitKey d k :: post ->
  fed pre = map (preprocess (lround_unspec env) g s) (captured pre)
  /\ List.length (captured pre) = S (count is_waitkey pre)
  /\ (quit_key k = true ->
      post = [] /\ snd (capture_loop env g s fuel i) = BreakKey).
Proof.
  revert i pre. induction fuel as [|fuel IH]; intros i pre Heq.
  { destruct pre; discriminate Heq. }
  rewrite loop_step in *. pose proof (read_fails_eq env i) as Hr.
  assert (Hbody : forall pre' post',
             loop_body env g s i = pre' ++ EWaitKey d k :: post' ->
             pre' = [ECapRead (fst (cap_read env i)) (snd (cap_read env i));
                     ENow (steady_now env (S i));
                     ETrackMonocular
                       (preprocess (lround_unspec env) g s
                          (snd (cap_read env i)))
                       (seconds_of_ticks
                          (Int64.sub (steady_now env (S i))
                             (steady_now env 0)));
                     EImshow window (snd (cap_read env i))]
             /\ post' = [] /\ k = wait_key env i).
  { intros pre' post' H. unfold loop_body in H.
    destruct pre' as [|e1 [|e2 [|e3 [|e4 [|e5 pre']]]]]; cbn [app] in H;
      try discriminate H.
    - injection H as <- <- <- <- <- <- <-. repeat split.
    - exfalso. injection H. intros.
      match goal with
      | Hn : [] = ?p ++ _ |- _ => destruct p; discriminate Hn
      end. }
  destruct (read_fails env i).
  - cbn [fst loop_failed_read] in Heq.
    destruct pre as [|e1 [|e2 [|e3 pre]]]; discriminate Heq.
  - assert (Hfirst : forall pre',
              pre' = [ECapRead (fst (cap_read env i)) (snd (cap_read env i));
                      ENow (steady_now env (S i));
                      ETrackMonocular
                        (preprocess (lround_unspec env) g s
                           (snd (cap_read env i)))
                        (seconds_of_ticks
                           (Int64.sub (steady_now env (S i))
                              (steady_now env 0)));
                      EImshow window (snd (cap_read env i))] ->
              fed pre' = map (preprocess (lround_unspec env) g s)
                             (captured pre')
              /\ List.length (captured pre') = S (count is_waitkey pre')).
    { intros pre' ->. cbn [fed captured]. rewrite <- Hr. split; reflexivity. }
    destruct (quit_key (wait_key env i)) eqn:Hq; cbn [fst snd] in *.
    + destruct (Hbody pre post Heq) as (Hpre & -> & ->).
      destruct (Hfirst pre Hpre) as [H1 H2]. repeat split; assumption.
    + apply app_eq_app in Heq. destruct Heq as [l [[Hb Hp] | [Hp Hl]]].
      * destruct l as [|e l].
        { exfalso. cbn [app] in Hp. clear - Hp.
          destruct fuel as [|fuel]; [discriminate Hp|].
          rewrite loop_step in Hp.
          destruct (read_fails env (S i)); [discriminate Hp|].
          destruct (quit_key (wait_key env (S i))); discriminate Hp. }
        { cbn [app] in Hp. injection Hp as <- Hp.
          destruct (Hbody pre l Hb) as (Hpre & Hl & Hk).
          destruct (Hfirst pre Hpre) as [H1 H2].
          split; [exact H1|]. split; [exact H2|].
          intro Hquit. congruence. }
      * subst pre. destruct (IH (S i) l Hl) as (H1 & H2 & H3).
        rewrite fed_app, captured_app, count_app, length_app, map_app, H1, H2.
        cbn [loop_body fed captured]. rewrite <- Hr.
        split; [reflexivity|]. split; [|exact H3].
        unfold count, loop_body. simpl. lia.
Qed.

(** C9. At every key poll of a run, each frame read so far has been
    preprocessed and handed to [TrackMonocular], the one read in the same
    iteration included; so a poll that returns the quit key discards
    nothing, and what follows it is shutdown and export. *)
Theorem fed_before_poll (fuel : nat) (argv : list string) (env : Env)
    (pre post : Trace) (d k : Z) :
  fst (main fuel argv env) = pre ++ EWaitKey d k :: post ->
  exists imageScale,
    system_ctor env = InitOk imageScale
    /\ fed pre
       = map (preprocess (lround_unspec env) (fst (parse_flags argv))
                imageScale)
             (captured pre)
    /\ List.length (captured pre) = S (count is_waitkey pre)
    /\ (quit_key k = true -> post = epilogue).
Proof.
  intro Heq.
  destruct (main_cases fuel argv env) as [(s & Henter & Hctor) | [Hq _]].
  - exists s. split; [exact Hctor|].
    rewrite (main_entered_trace fuel argv env s Henter Hctor) in Heq.
    cbv zeta in Heq.
    remember (capture_loop env (fst (parse_flags argv)) s fuel 0) as l
      eqn:El.
    assert (Htail : Forall (fun e => quiet e = true)
                      (match snd l with NoBreak => [] | _ => epilogue end)).
    { destruct (snd l); [apply quiet_epilogue | apply quiet_epilogue
                        | constructor]. }
    destruct (split_middle _ _ _ _ _ _ Heq eq_refl
                (quiet_prologue argv env s) Htail)
      as (pre' & post' & Hpre & Hpost & Hl).
    subst l. destruct (loop_poll env _ s fuel 0 pre' post' d k Hl)
      as (H1 & H2 & H3).
    subst pre. rewrite fed_app, captured_app, count_app.
    rewrite (quiet_fed _ (quiet_prologue argv env s)).
    rewrite (quiet_captured _ (quiet_prologue argv env s)).
    rewrite (quiet_waitkey _ (quiet_prologue argv env s)).
    cbn [app Nat.add]. repeat split; try assumption.
    intro Hquit. destruct (H3 Hquit) as [Hnil Hend].
    subst post. rewrite Hnil, Hend. reflexivity.
  - exfalso. rewrite Heq in Hq. rewrite Forall_forall in Hq.
    specialize (Hq (EWaitKey d k) (in_elt _ _ _)). discriminate Hq.
Qed.

(** ** Releasing what was acquired *)

(** C8, as amended. When [main] returns, what it acquired has been
    released: the capture handle by the destructor of [cap] at scope exit,
    the engine by the [Shutdown] that follows the loop, reached by normal
    control flow only; when the engine constructor fails the process ends
    there, with the capture handle open and no cleanup step of [main]. *)
Theorem cleanup_on_return (fuel : nat) (argv : list string) (env : Env) :
  (forall code,
      snd (main fuel argv env) = Returned code ->
      releases_all (fst (main fuel argv env))
      /\ ((0 < count is_engine_acquired (fst (main fuel argv env)))%nat ->
          exists pre,
            fst (main fuel argv env) = pre ++ epilogue
            /\ count is_shutdown pre = 0%nat))
  /\ (forall status,
         snd (main fuel argv env) = Exited status ->
         count is_cap_acquired (fst (main fuel argv env)) = 1%nat
         /\ count is_destroy_cap (fst (main fuel argv env)) = 0%nat
         /\ count is_shutdown (fst (main fuel argv env)) = 0%nat).
Proof.
  assert (Hopen_acq : forall u,
             snd (open_capture u env) = true ->
             count is_cap_acquired (fst (open_capture u env)) = 1%nat).
  { intros u. unfold open_capture.
    destruct u, (open_pipeline env), (open_index env); simpl;
      intro H; try discriminate H; reflexivity. }
  assert (Hopen_fail : forall u,
             snd (open_capture u env) = false ->
             count is_cap_acquired (fst (open_capture u env)) = 0%nat).
  { intros u. unfold open_capture.
    destruct u, (open_pipeline env), (open_index env); simpl;
      intro H; try discriminate H; reflexivity. }
  unfold releases_all, main.
  destruct (Z.of_nat (List.length argv) <? 3).
  { split; [intros code _ | intros status H; discriminate H].
    cbn [fst]. unfold count. simpl. repeat split; intro H; lia. }
  destruct (parse_flags argv) as [g u].
  specialize (Hopen_acq u). specialize (Hopen_fail u).
  pose proof (open_capture_no is_destroy_cap u env) as Hd.
  pose proof (open_capture_no is_shutdown u env) as Hs.
  pose proof (open_capture_no is_engine_acquired u env) as He.
  destruct (open_capture u env) as [tr_open opened]. cbn [fst snd] in *.
  specialize (Hd (fun _ _ _ => eq_refl) (fun _ _ _ => eq_refl)
                (fun _ _ => eq_refl) (fun _ => eq_refl)).
  specialize (Hs (fun _ _ _ => eq_refl) (fun _ _ _ => eq_refl)
                (fun _ _ => eq_refl) (fun _ => eq_refl)).
  specialize (He (fun _ _ _ => eq_refl) (fun _ _ _ => eq_refl)
                (fun _ _ => eq_refl) (fun _ => eq_refl)).
  destruct opened; cbn [negb].
  - destruct (system_ctor env) as [imageScale|status].
    + pose proof (loop_count_none env g imageScale is_shutdown fuel 0) as Ls.
      pose proof (loop_count_none env g imageScale is_destroy_cap fuel 0)
        as Ld.
      destruct (capture_loop env g imageScale fuel 0) as [tr_loop e].
      cbn [fst] in Ls, Ld.
      specialize (Ls ltac:(intros []; simpl; congruence)).
      specialize (Ld ltac:(intros []; simpl; congruence)).
      split; [intros code Hret | intros status H; destruct e; discriminate H].
      destruct e; try discriminate Hret; cbn [fst];
        (split;
         [ rewrite !count_app, Hd, Hs, Ls, Ld; unfold count; simpl;
           split; intro; lia
         | intros _; eexists; split; [reflexivity|];
           rewrite !count_app, Hs, Ls; reflexivity ]).
    + split; [intros code H; discriminate H | intros status' _].
      cbn [fst]. rewrite !count_app, Hd, Hs, Hopen_acq by reflexivity.
      repeat split.
  - split; [intros code _ | intros status H; discriminate H].
    cbn [fst]. rewrite !count_app, He, Hopen_fail by reflexivity.
    unfold count. simpl. repeat split; intro H; lia.
Qed.

(** C8, as the specification states it, fails: the camera opens, the
    engine constructor fails, and the process ends with the capture handle
    acquired and never released. *)
Lemma init_failure_leaks_capture :
  let r := main 5 argv_default (env_stream 10 (InitError 1)) in
  snd r = Exited 1 /\ ~ releases_all (fst r).
Proof.
  split; [reflexivity|].
  intros [Hcap _]. vm_compute in Hcap.
  specialize (Hcap (le_n 1)). inversion Hcap.
Qed.

(** ** The rescale step *)

Lemma to_Q_finite (sgn : bool) (m : positive) (e : Z) :
  e < 0 ->
  (Float32.to_Q (S754_finite sgn m e)
   == (if sgn then Z.neg m else Z.pos m) # Z.to_pos (2 ^ (- e)))%Q.
Proof.
  intro He. unfold Float32.to_Q.
  destruct e as [|e|e]; try lia.
  change (- Z.neg e) with (Z.pos e).
  assert (Hpow : (Qpower 2 (Z.neg e) == 1 # Z.to_pos (2 ^ Z.pos e))%Q).
  { change (Qpower 2 (Z.neg e)) with (/ Qpower 2 (Z.pos e))%Q.
    rewrite <- (Zpower_Qpower 2 (Z.pos e)) by lia.
    assert (Hp : 0 < 2 ^ Z.pos e) by (apply Z.pow_pos_nonneg; lia).
    destruct (2 ^ Z.pos e) as [|p|p] eqn:E; try lia.
    reflexivity. }
  destruct sgn; rewrite Hpow; unfold Qeq, Qmult, Qopp; simpl;
    rewrite Pos.mul_1_r; reflexivity.
Qed.

Lemma nearest_fraction (a n : Z) (d : positive) :
  - Z.pos d <= 2 * (a - n * Z.pos d) <= Z.pos d ->
  nearest (a # d) n.
Proof.
  intro H. unfold nearest. apply Qabs_Qle_condition.
  unfold Qle, Qminus, Qplus, Qopp, inject_Z. cbn [Qnum Qden].
  rewrite !Pos2Z.inj_mul. lia.
Qed.

Lemma round_half_away_nearest (m : positive) (e : Z) :
  nearest (Float32.to_Q (S754_finite false m e))
          (Float32.round_half_away (Z.pos m) e).
Proof.
  unfold Float32.round_half_away.
  destruct (Z.leb_spec 0 e) as [He|He].
  - unfold nearest, Float32.to_Q.
    rewrite <- (Zpower_Qpower 2 e) by exact He.
    rewrite <- inject_Z_mult.
    setoid_replace (inject_Z (Z.pos m * 2 ^ e) - inject_Z (Z.pos m * 2 ^ e))%Q
      with 0%Q by ring.
    discriminate.
  - unfold nearest. rewrite to_Q_finite by exact He.
    fold (nearest (Z.pos m # Z.to_pos (2 ^ (- e)))
            (if 2 ^ (- e) <=? 2 * (Z.pos m mod 2 ^ (- e))
             then Z.pos m / 2 ^ (- e) + 1 else Z.pos m / 2 ^ (- e))).
    apply nearest_fraction.
    assert (Hd : 0 < 2 ^ (- e)) by (apply Z.pow_pos_nonneg; lia).
    rewrite Z2Pos.id by exact Hd.
    pose proof (Z.div_mod (Z.pos m) (2 ^ (- e)) ltac:(lia)) as Hdm.
    pose proof (Z.mod_pos_bound (Z.pos m) (2 ^ (- e)) Hd) as Hr.
    destruct (Z.leb_spec (2 ^ (- e)) (2 * (Z.pos m mod 2 ^ (- e))));
      nia.
Qed.

Lemma wrap_small (z : Z) : 0 <= z < 2 ^ 31 -> Int32.wrap z = z.
Proof.
  intro Hz. unfold Int32.wrap. rewrite Z.land_ones by lia.
  rewrite Z.mod_small by lia.
  assert (Hbit : Z.testbit z 31 = false).
  { pose proof (Z.testbit_spec' z 31 ltac:(lia)) as Hs.
    rewrite Z.div_small, Z.mod_0_l in Hs by lia.
    destruct (Z.testbit z 31); [discriminate Hs | reflexivity]. }
  cbv zeta. rewrite Hbit. reflexivity.
Qed.

Lemma round_half_away_nonneg (m : positive) (e : Z) :
  0 <= Float32.round_half_away (Z.pos m) e.
Proof.
  unfold Float32.round_half_away.
  destruct (0 <=? e) eqn:He.
  - apply Z.leb_le in He. apply Z.mul_nonneg_nonneg; [lia|].
    apply Z.pow_nonneg; lia.
  - apply Z.leb_gt in He.
    assert (Hd : 0 < 2 ^ (- e)) by (apply Z.pow_pos_nonneg; lia).
    pose proof (Z.div_pos (Z.pos m) (2 ^ (- e)) ltac:(lia) Hd).
    destruct (2 ^ (- e) <=? 2 * (Z.pos m mod 2 ^ (- e))); lia.
Qed.

Lemma nearest_fraction_inv (a n : Z) (d : positive) :
  nearest (a # d) n ->
  - Z.pos d <= 2 * (a - n * Z.pos d) <= Z.pos d.
Proof.
  unfold nearest. intro H. apply Qabs_Qle_condition in H.
  unfold Qle, Qminus, Qplus, Qopp, inject_Z in H. cbn [Qnum Qden] in H.
  rewrite !Pos2Z.inj_mul in H. lia.
Qed.

(** C2, as the specification states it, fails: on a 5 x 5 frame with the
    scale factor 0.7f the exact products are 3.4999999..., whose one
    nearest integer is 3, but the product taken in [float] is 3.5 and
    [lround] makes the output 4 x 4. *)
Lemma rescale_not_exact_rounding :
  ~ rescale_as_specified 0 scale_0_7 (mkMat 5 5 3).
Proof.
  intro H. destruct (H I) as (rw & rh & Hw & Hh & Hd).
  assert (Hq : (exact_scaled scale_0_7 5 == 58720255 # 16777216)%Q)
    by reflexivity.
  cbn [cols rows] in Hw, Hh.
  unfold nearest in Hw, Hh. rewrite Hq in Hw, Hh.
  apply nearest_fraction_inv in Hw. apply nearest_fraction_inv in Hh.
  assert (Hrw : rw = 3) by lia. assert (Hrh : rh = 3) by lia.
  subst rw rh. vm_compute in Hd. discriminate Hd.
Qed.

(** *** [lround] and the conversion to [int] *)

Lemma nearest_away_fraction (a n : Z) (d : positive) :
  nearest_away (a # d) n
  <-> 2 * Z.abs (a - n * Z.pos d) < Z.pos d
      \/ (2 * Z.abs (a - n * Z.pos d) = Z.pos d
          /\ Z.abs a < Z.abs n * Z.pos d).
Proof.
  unfold nearest_away, Qlt, Qeq, Qabs, Qminus, Qplus, Qopp, inject_Z.
  cbn [Qnum Qden]. rewrite !Pos2Z.inj_mul.
  replace (a * 1 + - n * Z.pos d) with (a - n * Z.pos d) by ring.
  split; intros [H | [H1 H2]]; [left | right | left | right]; lia.
Qed.

(** There is one nearest integer, halves away from zero. *)
Lemma nearest_away_unique (q : Q) (n1 n2 : Z) :
  nearest_away q n1 -> nearest_away q n2 -> n1 = n2.
Proof.
  destruct q as [a d]. rewrite !nearest_away_fraction.
  intros H1 H2.
  assert (Hd : 0 < Z.pos d) by lia.
  assert (Hclose : - 1 <= n1 - n2 <= 1).
  { assert (Z.abs ((n1 - n2) * Z.pos d) <= Z.pos d) by lia.
    split; nia. }
  destruct (Z.eq_dec n1 n2) as [E|E]; [exact E | exfalso].
  assert (Hcase : n1 = n2 + 1 \/ n2 = n1 + 1) by lia.
  destruct Hcase as [-> | ->].
  - replace ((n2 + 1) * Z.pos d) with (n2 * Z.pos d + Z.pos d) in * by ring.
    destruct (Z.abs_spec (n2 + 1)) as [[? Ha]|[? Ha]];
      destruct (Z.abs_spec n2) as [[? Hb]|[? Hb]];
      rewrite Ha, Hb in *; try lia;
      replace (- (n2 + 1) * Z.pos d) with (- (n2 * Z.pos d) - Z.pos d)
        in * by ring;
      replace ((n2 + 1) * Z.pos d) with (n2 * Z.pos d + Z.pos d)
        in * by ring;
      replace (- n2 * Z.pos d) with (- (n2 * Z.pos d)) in * by ring;
      try lia; nia.
  - replace ((n1 + 1) * Z.pos d) with (n1 * Z.pos d + Z.pos d) in * by ring.
    destruct (Z.abs_spec (n1 + 1)) as [[? Ha]|[? Ha]];
      destruct (Z.abs_spec n1) as [[? Hb]|[? Hb]];
      rewrite Ha, Hb in *; try lia;
      replace (- (n1 + 1) * Z.pos d) with (- (n1 * Z.pos d) - Z.pos d)
        in * by ring;
      replace ((n1 + 1) * Z.pos d) with (n1 * Z.pos d + Z.pos d)
        in * by ring;
      replace (- n1 * Z.pos d) with (- (n1 * Z.pos d)) in * by ring;
      try lia; nia.
Qed.
Lemma to_Q_integer (sgn : bool) (m : positive) (e : Z) :
  0 <= e ->
  (Float32.to_Q (S754_finite sgn m e)
   == (if sgn then Z.neg m else Z.pos m) * 2 ^ e # 1)%Q.
Proof.
  intro He. unfold Float32.to_Q.
  destruct sgn; cbv zeta; rewrite <- (Zpower_Qpower 2 e) by exact He;
    rewrite <- inject_Z_mult; unfold Qeq, Qopp, inject_Z;
    cbn [Qnum Qden]; lia.
Qed.

(** [round_half_away] on the mantissa and [lround]'s sign handling give
    the nearest integer, halves away from zero, for either sign. *)
Lemma round_half_away_away (sgn : bool) (m : positive) (e : Z) :
  nearest_away (Float32.to_Q (S754_finite sgn m e))
    (if sgn then - Float32.round_half_away (Z.pos m) e
     else Float32.round_half_away (Z.pos m) e).
Proof.
  unfold Float32.round_half_away.
  destruct (Z.leb_spec 0 e) as [He|He].
  - unfold nearest_away. rewrite (to_Q_integer sgn m e He).
    fold (nearest_away ((if sgn then Z.neg m else Z.pos m) * 2 ^ e # 1)
            (if sgn then - (Z.pos m * 2 ^ e) else Z.pos m * 2 ^ e)).
    apply nearest_away_fraction. left. destruct sgn; lia.
  - unfold nearest_away. rewrite (to_Q_finite sgn m e He).
    set (d := 2 ^ (- e)).
    set (r := if d <=? 2 * (Z.pos m mod d)
              then Z.pos m / d + 1 else Z.pos m / d).
    fold (nearest_away ((if sgn then Z.neg m else Z.pos m) # Z.to_pos d)
            (if sgn then - r else r)).
    apply nearest_away_fraction.
    assert (Hd : 0 < d) by (apply Z.pow_pos_nonneg; lia).
    rewrite Z2Pos.id by exact Hd.
    pose proof (Z.div_mod (Z.pos m) d ltac:(lia)) as Hdm.
    pose proof (Z.mod_pos_bound (Z.pos m) d Hd) as Hr.
    assert (Hq : 0 <= Z.pos m / d) by (apply Z.div_pos; lia).
    assert (Hcase :
              2 * Z.abs (Z.pos m - r * d) < d
              \/ (2 * Z.abs (Z.pos m - r * d) = d /\ Z.pos m < r * d
                  /\ 0 <= r)).
    { subst r. destruct (Z.leb_spec d (2 * (Z.pos m mod d))) as [Hge|Hlt].
      - replace (Z.pos m - (Z.pos m / d + 1) * d)
          with (Z.pos m mod d - d) by lia.
        destruct (Z.eq_dec (2 * (Z.pos m mod d)) d) as [Heq|Hne].
        + right. split; [lia|]. split; [|lia].
          replace ((Z.pos m / d + 1) * d) with (d * (Z.pos m / d) + d)
            by ring. lia.
        + left. lia.
      - left. replace (Z.pos m - Z.pos m / d * d) with (Z.pos m mod d)
          by lia. lia. }
    destruct sgn.
    + change (Z.neg m) with (- Z.pos m).
      replace (- Z.pos m - - r * d) with (- (Z.pos m - r * d)) by ring.
      rewrite !Z.abs_opp.
      destruct Hcase as [H | (H1 & H2 & H3)]; [left; exact H | right].
      split; [exact H1|]. rewrite (Z.abs_eq r) by exact H3. lia.
    + destruct Hcase as [H | (H1 & H2 & H3)]; [left; exact H | right].
      split; [exact H1|]. rewrite (Z.abs_eq r) by exact H3. lia.
Qed.

(** [lround] of the model returns what [lround] is specified to return. *)
Lemma lround_spec (unspec : Z) (p : spec_float) :
  lround_returns unspec p (Float32.lround unspec p).
Proof.
  destruct p as [sgn | sgn | | sgn m e]; cbn [lround_returns Float32.lround].
  - exists 0. split; [left; reflexivity | reflexivity].
  - reflexivity.
  - reflexivity.
  - exists (if sgn then - Float32.round_half_away (Z.pos m) e
            else Float32.round_half_away (Z.pos m) e).
    split; [apply round_half_away_away | reflexivity].
Qed.

Lemma lround_returns_unique (unspec : Z) (p : spec_float) (n1 n2 : Z) :
  lround_returns unspec p n1 -> lround_returns unspec p n2 -> n1 = n2.
Proof.
  destruct p as [sgn | sgn | | sgn m e]; cbn [lround_returns];
    try congruence;
    intros (r1 & H1 & ->) (r2 & H2 & ->);
    rewrite (nearest_away_unique _ _ _ H1 H2); reflexivity.
Qed.

Lemma testbit_top (r n : Z) :
  0 <= n -> 0 <= r < 2 ^ (n + 1) -> Z.testbit r n = (2 ^ n <=? r).
Proof.
  intros Hn Hr. rewrite Z.pow_add_r in Hr by lia.
  change (2 ^ 1) with 2 in Hr.
  assert (Hp : 0 < 2 ^ n) by (apply Z.pow_pos_nonneg; lia).
  pose proof (Z.testbit_spec' r n Hn) as Hs.
  destruct (Z.leb_spec (2 ^ n) r) as [Hge|Hlt].
  - assert (Hq : r / 2 ^ n = 1).
    { symmetry. apply (Z.div_unique r (2 ^ n) 1 (r - 2 ^ n)); lia. }
    rewrite Hq in Hs. change (1 mod 2) with 1 in Hs.
    destruct (Z.testbit r n); [reflexivity | discriminate Hs].
  - rewrite Z.div_small in Hs by lia. change (0 mod 2) with 0 in Hs.
    destruct (Z.testbit r n); [discriminate Hs | reflexivity].
Qed.

(** [static_cast<int>] of the model converts as the language says. *)
Lemma wrap_spec (n : Z) : int_of_long n (Int32.wrap n).
Proof.
  unfold int_of_long, Int32.wrap. rewrite Z.land_ones by lia.
  pose proof (Z.mod_pos_bound n (2 ^ 32) ltac:(lia)) as Hr.
  pose proof (Z.div_mod n (2 ^ 32) ltac:(lia)) as Hdm.
  cbv zeta. rewrite (testbit_top (n mod 2 ^ 32) 31) by (simpl; lia).
  destruct (Z.leb_spec (2 ^ 31) (n mod 2 ^ 32)).
  - split; [lia|]. exists (- (n / 2 ^ 32) - 1). lia.
  - split; [lia|]. exists (- (n / 2 ^ 32)). lia.
Qed.

Lemma int_of_long_unique (n i j : Z) :
  int_of_long n i -> int_of_long n j -> i = j.
Proof. intros [Hi (k & ->)] [Hj (l & ->)]. lia. Qed.

Lemma int_of_long_small (n i : Z) :
  - 2 ^ 31 <= n < 2 ^ 31 -> int_of_long n i -> i = n.
Proof. intros Hn [Hi (k & ->)]. lia. Qed.

(** C2, as amended. At the scale 1.0f the frame keeps its dimensions.
    At any other scale, NaN, infinite, zero and negative ones included,
    with [pw] and [ph] the products of the width and of the height with
    the scale taken in [float], [nw] and [nh] what [lround] returns on
    them (for a finite product its one nearest integer, halves away from
    zero, as long as a [long] holds it) and [W] and [H] the [int]s these
    convert to ([nw] and [nh] themselves when they fit 32 bits, their
    residues modulo [2 ^ 32] otherwise): the frame gets the dimensions
    [(W, H)] when both are positive, and keeps its own when not. *)
Theorem rescale_dims (unspec : Z) (s : spec_float) (proc : Mat) :
  (Float32.neq s Float32.one = false ->
   dims (rescale unspec s proc) = dims proc)
  /\ (Float32.neq s Float32.one = true ->
      exists nw nh W H,
        lround_returns unspec
          (SFmul 24 128 (binary_normalize 24 128 (cols proc) 0 false) s) nw
        /\ lround_returns unspec
             (SFmul 24 128 (binary_normalize 24 128 (rows proc) 0 false) s) nh
        /\ int_of_long nw W /\ int_of_long nh H
        /\ (- 2 ^ 31 <= nw < 2 ^ 31 -> W = nw)
        /\ (- 2 ^ 31 <= nh < 2 ^ 31 -> H = nh)
        /\ dims (rescale unspec s proc)
           = if (0 <? W) && (0 <? H) then (W, H) else dims proc).
Proof.
  split; intro Hneq; unfold rescale; rewrite Hneq; [reflexivity|].
  exists (Float32.lround unspec
            (Float32.mul (Float32.of_int (cols proc)) s)),
         (Float32.lround unspec
            (Float32.mul (Float32.of_int (rows proc)) s)),
         (scaled_dim unspec s (cols proc)),
         (scaled_dim unspec s (rows proc)).
  split; [apply lround_spec|]. split; [apply lround_spec|].
  split; [apply wrap_spec|]. split; [apply wrap_spec|].
  split; [intro H; apply (int_of_long_small _ _ H), wrap_spec|].
  split; [intro H; apply (int_of_long_small _ _ H), wrap_spec|].
  cbv zeta.
  destruct ((0 <? scaled_dim unspec s (cols proc))
            && (0 <? scaled_dim unspec s (rows proc))); reflexivity.
Qed.

(** Where the rounded product does not fit an [int]: 640 x 480 at the
    scale 1e7f has the products 6400000000 and 4800000000, which [lround]
    returns as they are and the conversion to [int] reduces modulo
    [2 ^ 32]. *)
Example rescale_int_overflow :
  Float32.lround 0 (Float32.mul (Float32.of_int 640) scale_1e7) = 6400000000
  /\ Float32.lround 0 (Float32.mul (Float32.of_int 480) scale_1e7)
     = 4800000000
  /\ dims (rescale 0 scale_1e7 frame_vga) = (2105032704, 505032704).
Proof. repeat split; reflexivity. Qed.

(** Where the step is skipped: a zero, a negative and an infinite scale
    leave 640 x 480 as it is (the last one with an [lround] that answers
    0 to an infinity), and so does a scale that rounds a dimension to 0. *)
Example rescale_skipped :
  dims (rescale 0 (S754_zero false) frame_vga) = (640, 480)
  /\ dims (rescale 0 (S754_finite true 8388608 (-24)) frame_vga)
     = (640, 480)
  /\ dims (rescale 0 (S754_infinity false) frame_vga) = (640, 480)
  /\ dims (rescale 0 (S754_finite false 8388608 (-34)) frame_vga)
     = (640, 480).
Proof. repeat split; reflexivity. Qed.

(** The halfway rule: 5 x 3 at 0.5 has the products 2.5 and 1.5, which go
    away from zero to 3 and 2. *)
Example rescale_tie_away :
  dims (rescale 0 scale_0_5 (mkMat 5 3 3)) = (3, 2).
Proof. reflexivity. Qed.

(** Scenario B: 640 x 480 at scale 0.5 gives 320 x 240; and the scale
    1.0f leaves the frame as it is. *)
Example rescale_vga_half :
  dims (rescale 0 scale_0_5 frame_vga) = (320, 240)
  /\ rescale 0 Float32.one frame_vga = frame_vga.
Proof. split; reflexivity. Qed.

(** The same disagreement on a frame of a plausible size. *)
Example rescale_645_485 :
  dims (rescale 0 scale_0_7 (mkMat 645 485 3)) = (452, 340)
  /\ nearest (exact_scaled scale_0_7 645) 451
  /\ nearest (exact_scaled scale_0_7 485) 339.
Proof.
  split; [reflexivity|].
  split; unfold nearest; apply Qle_bool_iff; vm_compute; reflexivity.
Qed.

(** The two sample scale factors are [float]s in canonical form. *)
Example sample_scales_valid :
  valid_binary Float32.prec Float32.emax scale_0_7 = true
  /\ valid_binary Float32.prec Float32.emax scale_0_5 = true
  /\ valid_binary Float32.prec Float32.emax Float32.one = true.
Proof. repeat split; reflexivity. Qed.

(** At scale 1.0f the step is skipped, also for a width that [float]
    cannot hold: 16777217 stays, although its product with 1.0f taken in
    [float] rounds to 16777216. *)
Example rescale_one_keeps_wide_frame :
  dims (rescale 0 Float32.one (mkMat 16777217 480 3)) = (16777217, 480)
  /\ scaled_dim 0 Float32.one 16777217 = 16777216.
Proof. split; reflexivity. Qed.

(** ** The theorems on sample runs *)

Lemma enters_loop_default (env : Env) (s : spec_float) :
  open_index env = true -> system_ctor env = InitOk s ->
  enters_loop argv_default env.
Proof.
  intros Hopen Hctor. unfold enters_loop. split; [simpl; lia|].
  split; [|exists s; exact Hctor].
  change (snd (parse_flags argv_default)) with false.
  unfold open_capture. rewrite Hopen. reflexivity.
Defined.

(** [q] pressed during the third iteration: three frames fed, one shutdown,
    one export. *)
Lemma shutdown_then_export_once_witness :
  exists pre post,
    main 3 argv_default (env_quit 2 (InitOk scale_0_5)) =
      (pre ++ EShutdown :: ESaveKeyFrameTrajectoryTUM trajectory_file :: post,
       Returned 0)
    /\ count is_shutdown
         (fst (main 3 argv_default (env_quit 2 (InitOk scale_0_5)))) = 1%nat
    /\ count is_save
         (fst (main 3 argv_default (env_quit 2 (InitOk scale_0_5)))) = 1%nat.
Proof.
  apply (shutdown_then_export_once argv_default
           (env_quit 2 (InitOk scale_0_5)) 2 3).
  - apply (enters_loop_default _ scale_0_5); reflexivity.
  - split; [reflexivity|].
    intros [|[|i]] Hi; [reflexivity | reflexivity | lia].
  - lia.
Defined.

(** The three start-up failures: Scenario D on either backend (no camera
    answers, [return 1], no engine), and a command line without the
    settings path. *)
Lemma startup_failure_exits_1_witness :
  (snd (main 5 argv_default env_no_camera) = Returned 1
   /\ count is_ctor (fst (main 5 argv_default env_no_camera)) = 0%nat
   /\ count is_shutdown (fst (main 5 argv_default env_no_camera)) = 0%nat)
  /\ (let argv := (argv_default ++ ["--gstreamer"%string]) in
      let env := mkEnv false true (InitOk Float32.one) clock_30fps
                   (fun _ => (true, frame_vga)) (fun _ => -1) 0 in
      snd (main 5 argv env) = Returned 1
      /\ count is_ctor (fst (main 5 argv env)) = 0%nat
      /\ count is_shutdown (fst (main 5 argv env)) = 0%nat)
  /\ (let argv := ["./mono_live"; "ORBvoc.txt"]%string in
      let env := env_stream 10 (InitOk Float32.one) in
      snd (main 5 argv env) = Returned 1
      /\ count is_ctor (fst (main 5 argv env)) = 0%nat
      /\ count is_shutdown (fst (main 5 argv env)) = 0%nat).
Proof.
  split; [|split].
  - apply (startup_failure_exits_1 5 argv_default env_no_camera).
    right. split; [simpl; lia|]. right.
    split; [|reflexivity]. simpl. tauto.
  - apply (startup_failure_exits_1 5
             (argv_default ++ ["--gstreamer"%string])
             (mkEnv false true (InitOk Float32.one) clock_30fps
                (fun _ => (true, frame_vga)) (fun _ => -1) 0)).
    right. split; [simpl; lia|]. left.
    split; [|reflexivity]. simpl. tauto.
  - apply (startup_failure_exits_1 5 ["./mono_live"; "ORBvoc.txt"]%string
             (env_stream 10 (InitOk Float32.one))).
    left. unfold missing_args. simpl. lia.
Defined.

(** Scenario C: the stream ends on the fifth read of an expected ten; four
    frames are fed. *)
Lemma read_failure_is_graceful_witness :
  exists pre,
    main 10 argv_default (env_stream 4 (InitOk Float32.one)) =
      (pre ++ loop_failed_read (env_stream 4 (InitOk Float32.one)) 4
           ++ epilogue,
       Returned 0)
    /\ List.length (fed pre) = 4%nat
    /\ count is_track
         (fst (main 10 argv_default (env_stream 4 (InitOk Float32.one))))
       = 4%nat.
Proof.
  apply (read_failure_is_graceful argv_default
           (env_stream 4 (InitOk Float32.one)) 4 10).
  - apply (enters_loop_default _ Float32.one); reflexivity.
  - split; [reflexivity|].
    intros [|[|[|[|i]]]] Hi; try reflexivity; lia.
  - reflexivity.
  - lia.
Defined.

(** The first poll of a run with [--gray] at scale 0.5: the frame just
    read has been fed as 320 x 240 with one channel, and [q] leads to the
    shutdown. *)
Lemma fed_before_poll_witness :
  let env := env_quit 0 (InitOk scale_0_5) in
  let argv := argv_default ++ ["--gray"%string] in
  let tr := fst (main 1 argv env) in
  exists imageScale,
    system_ctor env = InitOk imageScale
    /\ fed (firstn 12 tr)
       = map (preprocess (lround_unspec env) (fst (parse_flags argv))
                imageScale)
             (captured (firstn 12 tr))
    /\ List.length (captured (firstn 12 tr))
       = S (count is_waitkey (firstn 12 tr))
    /\ (quit_key 113 = true -> skipn 13 tr = epilogue).
Proof.
  exact (fed_before_poll 1 (argv_default ++ ["--gray"%string])
           (env_quit 0 (InitOk scale_0_5))
           (firstn 12 (fst (main 1 (argv_default ++ ["--gray"%string])
                              (env_quit 0 (InitOk scale_0_5)))))
           (skipn 13 (fst (main 1 (argv_default ++ ["--gray"%string])
                             (env_quit 0 (InitOk scale_0_5)))))
           1 113 eq_refl).
Defined.

Lemma unknown_argument_ignored_witness :
  let env := env_stream 2 (InitOk scale_0_5) in
  parse_flags (argv_default ++ "--verbose"%string :: ["--gray"%string])
  = parse_flags (argv_default ++ ["--gray"%string])
  /\ main 5 (argv_default ++ "--verbose"%string :: ["--gray"%string]) env
     = main 5 (argv_default ++ ["--gray"%string]) env.
Proof.
  apply (unknown_argument_ignored 5 (env_stream 2 (InitOk scale_0_5))
           argv_default ["--gray"%string] "--verbose"%string).
  - simpl. lia.
  - discriminate.
  - discriminate.
Defined.

(** ** Timestamps *)

Lemma quiet_stamps (tr : Trace) :
  Forall (fun e => quiet e = true) tr -> stamps tr = [].
Proof.
  induction 1 as [|e tr He _ IH]; [reflexivity|].
  destruct e; try discriminate He; exact IH.
Qed.

(** The loop stamps one frame per iteration, iteration [k] with its own
    clock sample. *)
Lemma loop_stamps (env : Env) (g : bool) (s : spec_float) (fuel i : nat) :
  exists n, (n <= fuel)%nat
    /\ stamps (fst (capture_loop env g s fuel i))
       = map (tframe_at env) (seq i n).
Proof.
  revert i. induction fuel as [|fuel IH]; intro i.
  - exists 0%nat. split; [lia | reflexivity].
  - rewrite loop_step. destruct (read_fails env i).
    + exists 0%nat. split; [lia | reflexivity].
    + destruct (quit_key (wait_key env i)).
      * exists 1%nat. split; [lia | reflexivity].
      * destruct (IH (S i)) as (n & Hn & Hs). exists (S n).
        split; [lia|]. cbn [fst]. rewrite stamps_app, Hs. reflexivity.
Qed.

Lemma main_stamps (fuel : nat) (argv : list string) (env : Env) :
  exists n, (n <= fuel)%nat
    /\ stamps (fst (main fuel argv env)) = map (tframe_at env) (seq 0 n).
Proof.
  destruct (main_cases fuel argv env) as [(s & Henter & Hctor) | [Hq _]].
  - rewrite (main_entered_trace fuel argv env s Henter Hctor). cbv zeta.
    destruct (loop_stamps env (fst (parse_flags argv)) s fuel 0)
      as (n & Hn & Hs).
    exists n. split; [exact Hn|].
    rewrite !stamps_app, Hs.
    rewrite (quiet_stamps _ (quiet_prologue argv env s)).
    destruct (snd (capture_loop env (fst (parse_flags argv)) s fuel 0));
      cbn [app]; rewrite ?(quiet_stamps _ quiet_epilogue);
      change (stamps []) with (@nil spec_float); apply app_nil_r.
  - exists 0%nat. split; [lia|]. apply quiet_stamps, Hq.
Qed.

Lemma consecutive_in_map_seq {A : Type} (f : nat -> A) (n : nat)
    (pre post : list A) (x y : A) :
  map f (seq 0 n) = pre ++ x :: y :: post ->
  exists k, (S k < n)%nat /\ x = f k /\ y = f (S k).
Proof.
  intro Heq. exists (List.length pre).
  assert (Hlen : List.length (map f (seq 0 n))
                 = (List.length pre + S (S (List.length post)))%nat).
  { rewrite Heq, length_app. reflexivity. }
  rewrite length_map, length_seq in Hlen.
  split; [lia|].
  assert (Hnth : forall k, (k < n)%nat ->
             nth_error (map f (seq 0 n)) k = Some (f k)).
  { intros k Hk. rewrite nth_error_map, nth_error_seq.
    destruct (Nat.ltb_spec k n); [reflexivity | lia]. }
  split.
  - pose proof (Hnth (List.length pre) ltac:(lia)) as H.
    rewrite Heq, nth_error_app2, Nat.sub_diag in H by lia.
    injection H as H. exact H.
  - pose proof (Hnth (S (List.length pre)) ltac:(lia)) as H.
    rewrite Heq, nth_error_app2 in H by lia.
    replace (S (List.length pre) - List.length pre)%nat with 1%nat in H
      by lia.
    injection H as H. exact H.
Qed.

(** A difference that fits 64 bits is the difference. *)
Lemma sub_small (a b : Z) :
  - 2 ^ 63 <= a - b < 2 ^ 63 -> Int64.sub a b = a - b.
Proof.
  intro H. unfold Int64.sub, Int64.wrap. rewrite Z.land_ones by lia.
  pose proof (Z.mod_pos_bound (a - b) (2 ^ 64) ltac:(lia)) as Hr.
  cbv zeta. rewrite (testbit_top ((a - b) mod 2 ^ 64) 63) by (simpl; lia).
  destruct (Z.le_gt_cases 0 (a - b)) as [Hpos|Hneg].
  - rewrite Z.mod_small by lia.
    destruct (Z.leb_spec (2 ^ 63) (a - b)); lia.
  - assert (Hm : (a - b) mod 2 ^ 64 = a - b + 2 ^ 64).
    { symmetry. apply (Z.mod_unique (a - b) (2 ^ 64) (- 1)); lia. }
    rewrite Hm. destruct (Z.leb_spec (2 ^ 63) (a - b + 2 ^ 64)); lia.
Qed.

Lemma tframe_at_elapsed (env : Env) (k : nat) :
  - 2 ^ 63 <= steady_now env (S k) - steady_now env 0 < 2 ^ 63 ->
  tframe_at env k
  = seconds_of_ticks (steady_now env (S k) - steady_now env 0).
Proof.
  intro H. unfold tframe_at. rewrite sub_small by exact H. reflexivity.
Qed.

Lemma steady_from_start (env : Env) (fuel : nat) :
  (forall i, (i < fuel)%nat -> steady_now env i <= steady_now env (S i)) ->
  forall j, (j <= fuel)%nat -> steady_now env 0 <= steady_now env j.
Proof.
  intros Hsteady j. induction j as [|j IH]; intro Hj; [lia|].
  specialize (IH ltac:(lia)). specialize (Hsteady j ltac:(lia)). lia.
Qed.

(** C3. With a steady clock (no sample earlier than the one before) whose
    elapsed tick counts fit 64 bits, the timestamps of any two consecutive
    frames handed to [TrackMonocular] are in order: the later one is
    greater than or equal to the earlier one, as [double]s; each is the
    elapsed time of the one sample taken after the read of its frame. *)
Theorem timestamps_nondecreasing (fuel : nat) (argv : list string)
    (env : Env) (pre post : list spec_float) (t1 t2 : spec_float) :
  (forall i, (i < fuel)%nat -> steady_now env i <= steady_now env (S i)) ->
  (forall i, (i <= fuel)%nat ->
             steady_now env i - steady_now env 0 < 2 ^ 63) ->
  stamps (fst (main fuel argv env)) = pre ++ t1 :: t2 :: post ->
  Float64.leb t1 t2 = true
  /\ exists k, t1 = tframe_at env k /\ t2 = tframe_at env (S k).
Proof.
  intros Hsteady Hrange Heq.
  destruct (main_stamps fuel argv env) as (n & Hn & Hs).
  rewrite Hs in Heq.
  destruct (consecutive_in_map_seq _ _ _ _ _ _ Heq) as (k & Hk & -> & ->).
  split; [|exists k; split; reflexivity].
  pose proof (steady_from_start env fuel Hsteady) as Hfrom0.
  pose proof (Hfrom0 (S k) ltac:(lia)) as H1.
  pose proof (Hfrom0 (S (S k)) ltac:(lia)) as H2.
  pose proof (Hrange (S k) ltac:(lia)) as H3.
  pose proof (Hrange (S (S k)) ltac:(lia)) as H4.
  rewrite !tframe_at_elapsed by lia.
  apply seconds_of_ticks_mono.
  - lia.
  - specialize (Hsteady (S k) ltac:(lia)). lia.
  - exact H4.
Qed.

(** Scenario A, the timestamps: three frames at thirty frames a second. *)
Lemma timestamps_nondecreasing_witness :
  let env := env_stream 10 (InitOk Float32.one) in
  Float64.leb (tframe_at env 0) (tframe_at env 1) = true
  /\ exists k, tframe_at env 0 = tframe_at env k
               /\ tframe_at env 1 = tframe_at env (S k).
Proof.
  apply (timestamps_nondecreasing 3 argv_default
           (env_stream 10 (InitOk Float32.one))
           [] [tframe_at (env_stream 10 (InitOk Float32.one)) 2]).
  - intros i _. simpl. unfold clock_30fps. lia.
  - intros i Hi. simpl. unfold clock_30fps. lia.
  - reflexivity.
Defined.

Example seconds_of_ticks_samples :
  seconds_of_ticks 0 = S754_zero false
  /\ seconds_of_ticks 1500000000 = S754_finite false 6755399441055744 (-52)
  /\ Float64.leb (seconds_of_ticks 33333333) (seconds_of_ticks 33333334)
     = true
  /\ Float64.leb (seconds_of_ticks 33333334) (seconds_of_ticks 33333333)
     = false.
Proof. repeat split; reflexivity. Qed.

(** ** Runs that do not end, and a run that does *)

(** While no iteration stops, the process stays in the loop and has not
    shut the engine down. *)
Lemma running_no_shutdown (fuel : nat) (argv : list string) (env : Env) :
  enters_loop argv env ->
  (forall i, (i < fuel)%nat -> stops env i = false) ->
  snd (main fuel argv env) = Running
  /\ count is_shutdown (fst (main fuel argv env)) = 0%nat
  /\ count is_track (fst (main fuel argv env)) = fuel.
Proof.
  intros Henter Hgo.
  destruct Henter as (Hargc & Hopen & imageScale & Hctor).
  assert (Henter : enters_loop argv env) by (repeat split; eauto).
  rewrite (main_entered fuel argv env imageScale Henter Hctor). cbv zeta.
  destruct (loop_running env (fst (parse_flags argv)) imageScale fuel 0)
    as [He Hn]; [intros j Hj; apply Hgo; lia|].
  rewrite He. cbn [fst snd]. split; [reflexivity|].
  split.
  - rewrite count_app.
    rewrite prologue_no by (intros e H1 H2; assumption).
    rewrite loop_count_none by (intros []; simpl; congruence).
    reflexivity.
  - rewrite count_track_fed, fed_app, length_app.
    rewrite (quiet_fed _ (quiet_prologue argv env imageScale)).
    exact Hn.
Qed.

(** Scenario A: ten 640 x 480 frames at scale 1.0, no [--gray]: the ten
    frames are fed as they were read, with increasing timestamps, and the
    trajectory is saved once, after the tenth. *)
Example scenario_A :
  let r := main 20 argv_default (env_stream 10 (InitOk Float32.one)) in
  snd r = Returned 0
  /\ fed (fst r) = repeat frame_vga 10
  /\ count is_save (fst r) = 1%nat
  /\ forallb (fun p => SFltb (fst p) (snd p))
       (combine (stamps (fst r)) (tl (stamps (fst r)))) = true.
Proof. vm_compute. repeat split. Qed.

(** * Further properties of [main] *)

(** ** The shape of a run *)

Lemma open_capture_cases (u : bool) (env : Env) :
  open_capture u env =
  if u then
    if open_pipeline env
    then ([ECapOpenPipeline pipeline CAP_GSTREAMER true], true)
    else ([ECapOpenPipeline pipeline CAP_GSTREAMER false;
           EStderr msg_gstreamer], false)
  else
    if open_index env
    then (ECapOpenIndex 0 CAP_V4L2 true :: mode_requests, true)
    else ([ECapOpenIndex 0 CAP_V4L2 false; EStderr msg_v4l2], false).
Proof. reflexivity. Qed.

(** The four ways a run can go. *)
Lemma main_shape (fuel : nat) (argv : list string) (env : Env) :
  (missing_args argv
   /\ main fuel argv env
      = ([EStderr (usage (nth 0 argv ""%string))], Returned 1))
  \/ ((3 <= Z.of_nat (List.length argv)
       /\ snd (open_capture (snd (parse_flags argv)) env) = false)
      /\ main fuel argv env
         = (fst (open_capture (snd (parse_flags argv)) env)
            ++ [EDestroy ObjCap], Returned 1))
  \/ (exists status,
         3 <= Z.of_nat (List.length argv)
         /\ snd (open_capture (snd (parse_flags argv)) env) = true
         /\ system_ctor env = InitError status
         /\ main fuel argv env
            = (fst (open_capture (snd (parse_flags argv)) env)
               ++ [ESystemCtor (nth 1 argv ""%string) (nth 2 argv ""%string)
                     MONOCULAR true false],
               Exited status))
  \/ (exists imageScale,
         enters_loop argv env
         /\ system_ctor env = InitOk imageScale
         /\ main fuel argv env
            = let l := capture_loop env (fst (parse_flags argv)) imageScale
                         fuel 0 in
              match snd l with
              | NoBreak => (prologue argv env imageScale ++ fst l, Running)
              | _ => ((prologue argv env imageScale ++ fst l) ++ epilogue,
                      Returned 0)
              end).
Proof.
  destruct (Z.ltb_spec (Z.of_nat (List.length argv)) 3) as [Hargc|Hargc].
  { left. split; [exact Hargc|]. unfold main.
    apply Z.ltb_lt in Hargc. rewrite Hargc. reflexivity. }
  right.
  destruct (snd (open_capture (snd (parse_flags argv)) env)) eqn:Hopen.
  - right. destruct (system_ctor env) as [imageScale|status] eqn:Hctor.
    + right. exists imageScale.
      assert (Henter : enters_loop argv env)
        by (repeat split; eauto).
      split; [exact Henter|]. split; [reflexivity|].
      apply main_entered; assumption.
    + left. exists status. repeat split; try assumption.
      unfold main. apply Z.ltb_ge in Hargc. rewrite Hargc.
      destruct (parse_flags argv) as [g u]. cbn [snd] in *.
      destruct (open_capture u env) as [tr_open opened].
      cbn [fst snd] in *. subst opened. cbn [negb]. rewrite Hctor.
      reflexivity.
  - left. split; [split; [assumption | reflexivity]|].
    unfold main. pose proof Hargc as Hargc'.
    apply Z.ltb_ge in Hargc'. rewrite Hargc'.
    destruct (parse_flags argv) as [g u]. cbn [snd] in *.
    destruct (open_capture u env) as [tr_open opened].
    cbn [fst snd] in *. subst opened. reflexivity.
Qed.

(** ** Arguments and keys *)

Lemma parse_flags_membership (argv : list string) :
  parse_flags argv
  = (existsb (String.eqb "--gray") (skipn 3 argv),
     existsb (String.eqb "--gstreamer") (skipn 3 argv)).
Proof. unfold parse_flags. rewrite parse_fold. reflexivity. Qed.

Lemma existsb_eqb_iff (s : string) (l l' : list string) :
  (In s l <-> In s l') ->
  existsb (String.eqb s) l = existsb (String.eqb s) l'.
Proof.
  intro H. rewrite <- !existsb_eqb_In in H.
  destruct (existsb (String.eqb s) l), (existsb (String.eqb s) l');
    try reflexivity.
  - symmetry. apply H. reflexivity.
  - apply H. reflexivity.
Qed.

(** X1. A run depends on its arguments only through [argv[0]], the two
    paths and which of the two flags occur after them: their order, their
    repetition and whatever else stands among them make no difference. *)
Theorem run_depends_on_flag_membership (fuel : nat) (env : Env)
    (argv argv' : list string) :
  firstn 3 argv = firstn 3 argv' ->
  (In "--gray"%string (skipn 3 argv) <-> In "--gray"%string (skipn 3 argv')) ->
  (In "--gstreamer"%string (skipn 3 argv)
   <-> In "--gstreamer"%string (skipn 3 argv')) ->
  main fuel argv env = main fuel argv' env.
Proof.
  intros Hfirst Hgray Hgst.
  assert (Hflags : parse_flags argv = parse_flags argv').
  { rewrite !parse_flags_membership.
    rewrite (existsb_eqb_iff _ _ _ Hgray), (existsb_eqb_iff _ _ _ Hgst).
    reflexivity. }
  assert (Hlen : (Z.of_nat (List.length argv) <? 3)
                 = (Z.of_nat (List.length argv') <? 3)).
  { pose proof (f_equal (@List.length string) Hfirst) as H.
    rewrite !length_firstn in H.
    destruct (Z.ltb_spec (Z.of_nat (List.length argv)) 3),
      (Z.ltb_spec (Z.of_nat (List.length argv')) 3); try reflexivity; lia. }
  assert (Hnth : forall k, (k < 3)%nat ->
             nth k argv ""%string = nth k argv' ""%string).
  { intros k Hk.
    pose proof (nth_firstn 3 argv k ""%string) as H1.
    pose proof (nth_firstn 3 argv' k ""%string) as H2.
    apply Nat.ltb_lt in Hk. rewrite Hk in H1, H2.
    rewrite <- H1, <- H2, Hfirst. reflexivity. }
  unfold main.
  rewrite Hlen, Hflags, (Hnth 0%nat), (Hnth 1%nat), (Hnth 2%nat) by lia.
  reflexivity.
Qed.

(** The flags in another order, one of them twice, among other words. *)
Lemma run_depends_on_flag_membership_witness :
  let env := env_stream 2 (InitOk scale_0_5) in
  main 5 (argv_default ++ ["--gray"; "--gstreamer"]%string) env
  = main 5 (argv_default
            ++ ["--gstreamer"; "-v"; "--gray"; "--gstreamer"]%string) env.
Proof.
  apply run_depends_on_flag_membership.
  - reflexivity.
  - simpl. tauto.
  - simpl. tauto.
Defined.

(** X2. The quit test reads the low byte of what [waitKey] returns: a
    return value quits exactly when it is 113 ('q') or 27 (ESC) modulo 256,
    so the -1 of "no key" never quits and modifier bits above the low byte
    are ignored. *)
Theorem quit_key_low_byte (ret : Z) :
  (quit_key ret = true <-> ret mod 256 = 113 \/ ret mod 256 = 27)
  /\ quit_key (-1) = false
  /\ forall k, quit_key (ret + 256 * k) = quit_key ret.
Proof.
  assert (Hland : forall z, Z.land z 255 = z mod 256).
  { intro z. change 255 with (Z.ones 8). rewrite Z.land_ones by lia.
    reflexivity. }
  unfold quit_key. split; [|split].
  - rewrite Hland, orb_true_iff, !Z.eqb_eq. reflexivity.
  - reflexivity.
  - intro k. cbv zeta. rewrite !Hland.
    rewrite (Z.mul_comm 256 k), Z.mod_add by lia. reflexivity.
Qed.

(** ** Start-up *)

Lemma count_cons (p : Event -> bool) (e : Event) (tr : Trace) :
  count p (e :: tr) = ((if p e then 1 else 0) + count p tr)%nat.
Proof. unfold count. simpl. destruct (p e); reflexivity. Qed.

Lemma count_nil (p : Event -> bool) : count p [] = 0%nat.
Proof. reflexivity. Qed.

(** X3. The three mode requests (width 640, height 480, 30 frames a
    second) are made exactly when the device was opened by index, directly
    after that open and in this order; the pipeline backend, a failed open
    and a run without the two paths make none. *)
Theorem mode_requests_follow_index_open (fuel : nat) (argv : list string)
    (env : Env) :
  if (3 <=? Z.of_nat (List.length argv))
     && negb (snd (parse_flags argv)) && open_index env
  then exists rest,
         fst (main fuel argv env)
         = ECapOpenIndex 0 CAP_V4L2 true :: mode_requests ++ rest
         /\ count is_capset rest = 0%nat
  else count is_capset (fst (main fuel argv env)) = 0%nat.
Proof.
  rewrite Z.leb_antisym. unfold main.
  destruct (Z.of_nat (List.length argv) <? 3); [reflexivity|].
  cbn [negb andb].
  destruct (parse_flags argv) as [g u]. cbn [snd].
  rewrite open_capture_cases.
  destruct u; cbn [negb andb].
  - destruct (open_pipeline env); cbn [negb]; [|reflexivity].
    destruct (system_ctor env) as [imageScale|status]; [|reflexivity].
    pose proof (loop_count_none env g imageScale is_capset fuel 0
                  ltac:(intros []; simpl; congruence)) as Hloop.
    destruct (capture_loop env g imageScale fuel 0) as [tr_loop e].
    cbn [fst] in Hloop.
    destruct e; cbn [fst]; rewrite !count_app, Hloop; reflexivity.
  - destruct (open_index env); cbn [negb]; [|reflexivity].
    destruct (system_ctor env) as [imageScale|status].
    + pose proof (loop_count_none env g imageScale is_capset fuel 0
                    ltac:(intros []; simpl; congruence)) as Hloop.
      destruct (capture_loop env g imageScale fuel 0) as [tr_loop e].
      cbn [fst] in Hloop.
      destruct e; cbn [fst]; eexists;
        (split; [cbn [app]; rewrite <- ?app_assoc; reflexivity|]);
        repeat first [rewrite count_cons | rewrite count_app];
        rewrite ?Hloop; reflexivity.
    + cbn [fst]. eexists. split; [reflexivity|]. reflexivity.
Qed.

Lemma split_unique (p : Event -> bool) (a b pre post : Trace)
    (x y : Event) :
  a ++ x :: b = pre ++ y :: post ->
  p y = true -> count p a = 0%nat -> count p b = 0%nat ->
  pre = a /\ y = x /\ post = b.
Proof.
  intros Heq Hy Ha Hb. revert pre Heq.
  induction a as [|e a IH]; intros pre Heq.
  - destruct pre as [|e' pre]; cbn [app] in Heq.
    + injection Heq as Hx Hpost. subst. repeat split.
    + exfalso. injection Heq as Hx Hpost. subst b.
      rewrite count_app, count_cons, Hy in Hb. lia.
  - rewrite count_cons in Ha.
    destruct pre as [|e' pre]; cbn [app] in Heq.
    + exfalso. injection Heq as He _. subst e. rewrite Hy in Ha. lia.
    + injection Heq as He Heq. subst e'.
      destruct (IH ltac:(destruct (p e); lia) pre Heq) as (Hp & Hxy & Hpost).
      subst. repeat split.
Qed.

Lemma no_event_in (p : Event -> bool) (tr pre post : Trace) (y : Event) :
  tr = pre ++ y :: post -> p y = true -> count p tr = 0%nat -> False.
Proof.
  intros -> Hy H. rewrite count_app, count_cons, Hy in H. lia.
Qed.

(** The constructor call stands right after the events of the open. *)
Lemma ctor_position (fuel : nat) (argv : list string)
    (env : Env) (pre post : Trace) (voc settings : string)
    (sensor : Sensor) (viewer ok : bool) :
  fst (main fuel argv env)
  = pre ++ ESystemCtor voc settings sensor viewer ok :: post ->
  pre = fst (open_capture (snd (parse_flags argv)) env)
  /\ snd (open_capture (snd (parse_flags argv)) env) = true
  /\ voc = nth 1 argv ""%string
  /\ settings = nth 2 argv ""%string
  /\ sensor = MONOCULAR /\ viewer = true
  /\ count is_ctor post = 0%nat.
Proof.
  intro Heq.
  assert (Hopen0 : count is_ctor
                     (fst (open_capture (snd (parse_flags argv)) env))
                   = 0%nat)
    by (apply open_capture_no; reflexivity).
  destruct (main_shape fuel argv env)
    as [[_ Hm] | [[_ Hm] | [(status & _ & Hopen & _ & Hm)
                           | (s & Henter & Hctor & Hm)]]].
  - exfalso. rewrite Hm in Heq. eapply (no_event_in is_ctor); eauto.
  - exfalso. rewrite Hm in Heq. cbn [fst] in Heq.
    eapply (no_event_in is_ctor); [exact Heq | reflexivity |].
    rewrite count_app, Hopen0. reflexivity.
  - rewrite Hm in Heq. cbn [fst] in Heq.
    destruct (split_unique is_ctor _ _ _ _ _ _ Heq eq_refl Hopen0 eq_refl)
      as (Hpre & Hy & Hpost).
    injection Hy as -> -> -> -> ->. subst. repeat split; assumption.
  - rewrite (main_entered_trace fuel argv env s Henter Hctor) in Heq.
    cbv zeta in Heq. unfold prologue in Heq.
    rewrite <- app_assoc in Heq. cbn [app] in Heq.
    destruct Henter as (_ & Hopen & _).
    match type of Heq with
    | _ ++ _ :: ?rest = _ =>
        assert (Hrest : count is_ctor rest = 0%nat)
    end.
    { rewrite !count_cons, count_app. cbn [is_ctor].
      rewrite loop_count_none by (intros []; simpl; congruence).
      destruct (snd (capture_loop env (fst (parse_flags argv)) s fuel 0));
        reflexivity. }
    destruct (split_unique is_ctor _ _ _ _ _ _ Heq eq_refl Hopen0 Hrest)
      as (Hpre & Hy & Hpost).
    injection Hy as -> -> -> -> ->. subst. repeat split; assumption.
Qed.

(** X4. The engine is constructed at most once, only after the camera
    has answered [true] to the open that the flags select and before any
    frame is read: what precedes the constructor call is that one
    successful open (followed by the three mode requests on the device
    backend) and nothing else, and the call gets [argv[1]] and [argv[2]]
    as they are, the monocular sensor and the viewer switched on. *)
Theorem engine_constructed_after_open (fuel : nat) (argv : list string)
    (env : Env) (pre post : Trace) (voc settings : string)
    (sensor : Sensor) (viewer ok : bool) :
  fst (main fuel argv env)
  = pre ++ ESystemCtor voc settings sensor viewer ok :: post ->
  ((In "--gstreamer"%string (skipn 3 argv)
    /\ open_pipeline env = true
    /\ pre = [ECapOpenPipeline pipeline CAP_GSTREAMER true])
   \/ (~ In "--gstreamer"%string (skipn 3 argv)
       /\ open_index env = true
       /\ pre = ECapOpenIndex 0 CAP_V4L2 true :: mode_requests))
  /\ count is_cap_acquired pre = 1%nat
  /\ voc = nth 1 argv ""%string
  /\ settings = nth 2 argv ""%string
  /\ sensor = MONOCULAR /\ viewer = true
  /\ count is_ctor post = 0%nat.
Proof.
  intro Heq.
  destruct (ctor_position fuel argv env pre post voc settings sensor
              viewer ok Heq)
    as (Hpre & Hopen & Hvoc & Hset & Hsen & Hview & Hpost).
  assert (Hshape :
            (In "--gstreamer"%string (skipn 3 argv)
             /\ open_pipeline env = true
             /\ pre = [ECapOpenPipeline pipeline CAP_GSTREAMER true])
            \/ (~ In "--gstreamer"%string (skipn 3 argv)
                /\ open_index env = true
                /\ pre = ECapOpenIndex 0 CAP_V4L2 true :: mode_requests)).
  { apply open_capture_answer in Hopen.
    destruct Hopen as [[Hin Ho] | [Hnin Ho]].
    - left. split; [exact Hin|]. split; [exact Ho|].
      apply useGStreamer_iff in Hin.
      rewrite Hpre, Hin, open_capture_cases, Ho. reflexivity.
    - right. split; [exact Hnin|]. split; [exact Ho|].
      destruct (snd (parse_flags argv)) eqn:Hu.
      + exfalso. apply Hnin, useGStreamer_iff, Hu.
      + rewrite Hpre, open_capture_cases, Ho. reflexivity. }
  split; [exact Hshape|].
  split; [|repeat split; assumption].
  destruct Hshape as [(_ & _ & ->) | (_ & _ & ->)]; reflexivity.
Qed.

(** One frame on either backend: after the pipeline open, and after the
    device open with its three mode requests. *)
Lemma engine_constructed_after_open_witness :
  (let argv := (argv_default ++ ["--gstreamer"%string]) in
   let env := env_stream 1 (InitOk Float32.one) in
   let pre := firstn 1 (fst (main 3 argv env)) in
   let post := skipn 2 (fst (main 3 argv env)) in
   ((In "--gstreamer"%string (skipn 3 argv)
     /\ open_pipeline env = true
     /\ pre = [ECapOpenPipeline pipeline CAP_GSTREAMER true])
    \/ (~ In "--gstreamer"%string (skipn 3 argv)
        /\ open_index env = true
        /\ pre = ECapOpenIndex 0 CAP_V4L2 true :: mode_requests))
   /\ count is_cap_acquired pre = 1%nat
   /\ "ORBvoc.txt"%string = nth 1 argv ""%string
   /\ "Settings.yaml"%string = nth 2 argv ""%string
   /\ MONOCULAR = MONOCULAR /\ true = true
   /\ count is_ctor post = 0%nat)
  /\ (let argv := argv_default in
      let env := env_stream 1 (InitOk Float32.one) in
      let pre := firstn 4 (fst (main 3 argv env)) in
      let post := skipn 5 (fst (main 3 argv env)) in
      ((In "--gstreamer"%string (skipn 3 argv)
        /\ open_pipeline env = true
        /\ pre = [ECapOpenPipeline pipeline CAP_GSTREAMER true])
       \/ (~ In "--gstreamer"%string (skipn 3 argv)
           /\ open_index env = true
           /\ pre = ECapOpenIndex 0 CAP_V4L2 true :: mode_requests))
      /\ count is_cap_acquired pre = 1%nat
      /\ "ORBvoc.txt"%string = nth 1 argv ""%string
      /\ "Settings.yaml"%string = nth 2 argv ""%string
      /\ MONOCULAR = MONOCULAR /\ true = true
      /\ count is_ctor post = 0%nat).
Proof.
  split.
  - intros argv env pre post.
    exact (engine_constructed_after_open 3 argv env pre post
             "ORBvoc.txt" "Settings.yaml" MONOCULAR true true eq_refl).
  - intros argv env pre post.
    exact (engine_constructed_after_open 3 argv env pre post
             "ORBvoc.txt" "Settings.yaml" MONOCULAR true true eq_refl).
Defined.

(** ** How a run ends *)

Lemma first_stop_search (env : Env) (fuel : nat) :
  (forall i, (i < fuel)%nat -> stops env i = false)
  \/ exists n, (n < fuel)%nat /\ first_stop env n.
Proof.
  induction fuel as [|fuel [IH | (n & Hn & Hfirst)]].
  - left. intros i Hi. lia.
  - destruct (stops env fuel) eqn:Hs.
    + right. exists fuel. split; [lia|]. split; assumption.
    + left. intros i Hi.
      destruct (Nat.eq_dec i fuel) as [->|Hne]; [exact Hs | apply IH; lia].
  - right. exists n. split; [lia | exact Hfirst].
Qed.

Lemma loop_breaks_iff (env : Env) (g : bool) (s : spec_float) (fuel : nat) :
  snd (capture_loop env g s fuel 0) <> NoBreak
  <-> exists n, (n < fuel)%nat /\ first_stop env n.
Proof.
  split.
  - intro Hbreak.
    destruct (first_stop_search env fuel) as [Hgo | Hex]; [|exact Hex].
    exfalso. apply Hbreak.
    apply (loop_running env g s fuel 0). intros j Hj. apply Hgo. lia.
  - intros (n & Hn & Hstop & Hgo).
    rewrite (loop_stop env g s n fuel 0
               (fun j Hj => Hgo j (proj2 Hj)) Hstop Hn).
    destruct (read_fails env (0 + n)); discriminate.
Qed.

(** How a run ends, by the go-on flag of the open. *)
Lemma outcome_cases (fuel : nat) (argv : list string) (env : Env) :
  (snd (main fuel argv env) = Returned 1
   <-> missing_args argv
       \/ (3 <= Z.of_nat (List.length argv)
           /\ snd (open_capture (snd (parse_flags argv)) env) = false))
  /\ (snd (main fuel argv env) = Returned 0
      <-> enters_loop argv env
          /\ exists n, (n < fuel)%nat /\ first_stop env n)
  /\ (forall code,
         snd (main fuel argv env) = Returned code -> code = 0 \/ code = 1)
  /\ (forall status,
         snd (main fuel argv env) = Exited status
         <-> 3 <= Z.of_nat (List.length argv)
             /\ snd (open_capture (snd (parse_flags argv)) env) = true
             /\ system_ctor env = InitError status).
Proof.
  unfold missing_args, enters_loop.
  destruct (main_shape fuel argv env)
    as [[Hmiss Hm] | [[[Hargc Hopen] Hm]
                     | [(status & Hargc & Hopen & Hctor & Hm)
                       | (s & Henter & Hctor & Hm)]]].
  - unfold missing_args in Hmiss. rewrite Hm. cbn [snd].
    split; [|split; [|split]].
    + split; [intros _; left; exact Hmiss | reflexivity].
    + split; [discriminate | intros [[Hargc _] _]; lia].
    + intros code H. injection H as <-. right. reflexivity.
    + intro st. split; [discriminate | intros [Hargc _]; lia].
  - rewrite Hm. cbn [snd]. split; [|split; [|split]].
    + split; [intros _; right; split; assumption | reflexivity].
    + split; [discriminate | intros [(_ & Hopen' & _) _]; congruence].
    + intros code H. injection H as <-. right. reflexivity.
    + intro st. split; [discriminate | intros (_ & Hopen' & _); congruence].
  - rewrite Hm. cbn [snd]. split; [|split; [|split]].
    + split; [discriminate | intros [H | [_ H]]; [lia | congruence]].
    + split; [discriminate|].
      intros [(_ & _ & s & Hs) _]. congruence.
    + intros code H. discriminate H.
    + intro st. split.
      * intro H. injection H as <-. repeat split; assumption.
      * intros (_ & _ & H). congruence.
  - pose proof (loop_breaks_iff env (fst (parse_flags argv)) s fuel)
      as Hiff.
    destruct Henter as (Hargc & Hopen & Hex).
    rewrite Hm. cbv zeta.
    destruct (snd (capture_loop env (fst (parse_flags argv)) s fuel 0))
      eqn:He; cbn [snd].
    + split; [|split; [|split]].
      * split; [discriminate | intros [H | [_ H]]; [lia | congruence]].
      * split; [intros _ | reflexivity].
        split; [repeat split; assumption|]. apply Hiff. discriminate.
      * intros code H. injection H as <-. left. reflexivity.
      * intro st. split; [discriminate | intros (_ & _ & H); congruence].
    + split; [|split; [|split]].
      * split; [discriminate | intros [H | [_ H]]; [lia | congruence]].
      * split; [intros _ | reflexivity].
        split; [repeat split; assumption|]. apply Hiff. discriminate.
      * intros code H. injection H as <-. left. reflexivity.
      * intro st. split; [discriminate | intros (_ & _ & H); congruence].
    + split; [|split; [|split]].
      * split; [discriminate | intros [H | [_ H]]; [lia | congruence]].
      * split; [discriminate|]. intros [_ Hn]. exfalso.
        apply Hiff in Hn. apply Hn. reflexivity.
      * intros code H. discriminate H.
      * intro st. split; [discriminate | intros (_ & _ & H); congruence].
Qed.

(** X5. The exit status says how the run went: [return 1] exactly when the
    two paths are missing or the camera answers [false] to the open that
    the flags select; [return 0] exactly when the paths are there, the
    camera answers [true], the engine starts and some iteration within
    the fuel stops the loop; no other value is returned; and the process
    ends inside the engine constructor exactly when the paths are there,
    the camera answers [true] and the constructor fails. *)
Theorem exit_codes (fuel : nat) (argv : list string) (env : Env) :
  (snd (main fuel argv env) = Returned 1
   <-> missing_args argv \/ open_fails argv env)
  /\ (snd (main fuel argv env) = Returned 0
      <-> 3 <= Z.of_nat (List.length argv)
          /\ selected_open argv env true
          /\ (exists imageScale, system_ctor env = InitOk imageScale)
          /\ exists n, (n < fuel)%nat /\ first_stop env n)
  /\ (forall code,
         snd (main fuel argv env) = Returned code -> code = 0 \/ code = 1)
  /\ (forall status,
         snd (main fuel argv env) = Exited status
         <-> 3 <= Z.of_nat (List.length argv)
             /\ selected_open argv env true
             /\ system_ctor env = InitError status).
Proof.
  destruct (outcome_cases fuel argv env) as (H1 & H0 & Hcode & Hexit).
  split; [|split; [|split]].
  - rewrite H1. unfold open_fails. rewrite open_capture_answer.
    reflexivity.
  - rewrite H0. unfold enters_loop. rewrite open_capture_answer. tauto.
  - exact Hcode.
  - intro status. rewrite (Hexit status), open_capture_answer.
    reflexivity.
Qed.

(** ** What goes to the error stream *)

Lemma is_failed_read_eq (env : Env) (i : nat) :
  is_failed_read (ECapRead (fst (cap_read env i)) (snd (cap_read env i)))
  = read_fails env i.
Proof. rewrite read_fails_eq. reflexivity. Qed.

Lemma loop_stderr (env : Env) (g : bool) (s : spec_float) (fuel i : nat) :
  count is_stderr (fst (capture_loop env g s fuel i))
  = count is_failed_read (fst (capture_loop env g s fuel i))
  /\ count is_failed_read (fst (capture_loop env g s fuel i))
     = match snd (capture_loop env g s fuel i) with
       | BreakRead => 1%nat
       | _ => 0%nat
       end.
Proof.
  revert i. induction fuel as [|fuel IH]; intro i.
  - split; reflexivity.
  - rewrite loop_step. pose proof (is_failed_read_eq env i) as Hf.
    destruct (read_fails env i).
    + cbn [fst snd]. unfold loop_failed_read.
      rewrite !count_cons, Hf. split; reflexivity.
    + assert (Hbody : count is_stderr (loop_body env g s i) = 0%nat
                      /\ count is_failed_read (loop_body env g s i) = 0%nat).
      { unfold loop_body. cbv zeta. rewrite !count_cons, Hf.
        split; reflexivity. }
      destruct Hbody as [Hb1 Hb2].
      destruct (quit_key (wait_key env i)); cbn [fst snd].
      * rewrite Hb1, Hb2. split; reflexivity.
      * destruct (IH (S i)) as [H1 H2].
        rewrite !count_app, Hb1, Hb2, H1, H2. split; reflexivity.
Qed.

(** X6. A message goes to the error stream for three reasons only: the
    usage message, a failed open, a failed grab.  A run that returns 1
    writes exactly one message and reads no frame; any other run writes one
    message per failed read, of which there is at most one, so a run left
    by the quit key writes none. *)
Theorem stderr_messages (fuel : nat) (argv : list string) (env : Env) :
  (snd (main fuel argv env) = Returned 1 ->
   count is_stderr (fst (main fuel argv env)) = 1%nat
   /\ count is_read (fst (main fuel argv env)) = 0%nat)
  /\ (snd (main fuel argv env) <> Returned 1 ->
      count is_stderr (fst (main fuel argv env))
      = count is_failed_read (fst (main fuel argv env))
      /\ (count is_failed_read (fst (main fuel argv env)) <= 1)%nat).
Proof.
  destruct (main_shape fuel argv env)
    as [[Hmiss Hm] | [[[Hargc Hopen] Hm]
                     | [(status & Hargc & Hopen & Hctor & Hm)
                       | (s & Henter & Hctor & Hm)]]].
  - rewrite Hm. cbn [fst snd]. split; [intros _ | congruence].
    split; reflexivity.
  - rewrite Hm. cbn [fst snd]. split; [intros _ | congruence].
    revert Hopen. rewrite open_capture_cases.
    destruct (snd (parse_flags argv)), (open_pipeline env),
      (open_index env); cbn [fst snd]; intro H; try discriminate H;
      split; reflexivity.
  - rewrite Hm. cbn [fst snd]. split; [discriminate | intros _].
    revert Hopen. rewrite open_capture_cases.
    destruct (snd (parse_flags argv)), (open_pipeline env),
      (open_index env); cbn [fst snd]; intro H; try discriminate H;
      split; try reflexivity; unfold count; simpl; lia.
  - destruct Henter as (_ & Hopen & _).
    assert (Hpro : count is_stderr (prologue argv env s) = 0%nat
                   /\ count is_failed_read (prologue argv env s) = 0%nat).
    { unfold prologue. revert Hopen. rewrite open_capture_cases.
      destruct (snd (parse_flags argv)), (open_pipeline env),
        (open_index env); cbn [fst snd]; intro H; try discriminate H;
        split; reflexivity. }
    destruct Hpro as [Hp1 Hp2].
    destruct (loop_stderr env (fst (parse_flags argv)) s fuel 0)
      as [Hl1 Hl2].
    assert (He1 : count is_stderr epilogue = 0%nat) by reflexivity.
    assert (He2 : count is_failed_read epilogue = 0%nat) by reflexivity.
    rewrite Hm. cbv zeta.
    destruct (snd (capture_loop env (fst (parse_flags argv)) s fuel 0));
      cbn [fst snd]; (split; [discriminate | intros _]);
      rewrite !count_app, ?He1, ?He2, Hp1, Hp2, Hl1, Hl2; split; lia.
Qed.

(** ** The preview *)

Lemma shown_app (a b : Trace) : shown (a ++ b) = shown a ++ shown b.
Proof.
  induction a as [|e a IH]; simpl; [reflexivity|].
  destruct e; simpl; rewrite ?IH; reflexivity.
Qed.


Lemma loop_preview (env : Env) (g : bool) (s : spec_float) (fuel i : nat) :
  shown (fst (capture_loop env g s fuel i))
  = captured (fst (capture_loop env g s fuel i))
  /\ Forall preview_call_ok (fst (capture_loop env g s fuel i)).
Proof.
  revert i. induction fuel as [|fuel IH]; intro i.
  - split; [reflexivity | constructor].
  - rewrite loop_step. pose proof (read_fails_eq env i) as Hr.
    destruct (read_fails env i).
    + cbn [fst loop_failed_read shown captured]. rewrite <- Hr.
      split; [reflexivity | repeat constructor].
    + assert (Hbody : shown (loop_body env g s i)
                      = captured (loop_body env g s i)
                      /\ Forall preview_call_ok (loop_body env g s i)).
      { unfold loop_body. cbn [shown captured]. rewrite <- Hr.
        split; [reflexivity | repeat constructor]. }
      destruct Hbody as [Hb1 Hb2].
      destruct (quit_key (wait_key env i)); cbn [fst].
      * split; assumption.
      * destruct (IH (S i)) as [H1 H2].
        rewrite shown_app, captured_app, Hb1, H1.
        split; [reflexivity | apply Forall_app; split; assumption].
Qed.

Lemma outside_loop_preview (argv : list string) (env : Env)
    (s : spec_float) :
  shown (prologue argv env s) = [] /\ captured (prologue argv env s) = []
  /\ Forall preview_call_ok (prologue argv env s)
  /\ Forall preview_call_ok
       (fst (open_capture (snd (parse_flags argv)) env)).
Proof.
  unfold prologue. rewrite open_capture_cases.
  destruct (snd (parse_flags argv)), (open_pipeline env), (open_index env);
    cbn [fst]; repeat split; repeat constructor.
Qed.

(** X7. The preview shows the frames as they were read, not as they were
    fed: the images handed to [imshow] are the successfully read frames,
    one for one and in order; every [imshow] goes to the one window and
    every [waitKey] polls for one millisecond. *)
Theorem preview_shows_raw_frames (fuel : nat) (argv : list string)
    (env : Env) :
  shown (fst (main fuel argv env)) = captured (fst (main fuel argv env))
  /\ Forall preview_call_ok (fst (main fuel argv env)).
Proof.
  destruct (main_shape fuel argv env)
    as [[Hmiss Hm] | [[[Hargc Hopen] Hm]
                     | [(status & Hargc & Hopen & Hctor & Hm)
                       | (s & Henter & Hctor & Hm)]]].
  - rewrite Hm. split; [reflexivity | repeat constructor].
  - rewrite Hm. cbn [fst]. rewrite open_capture_cases.
    destruct (snd (parse_flags argv)), (open_pipeline env),
      (open_index env); split; try reflexivity; repeat constructor.
  - rewrite Hm. cbn [fst]. rewrite open_capture_cases.
    destruct (snd (parse_flags argv)), (open_pipeline env),
      (open_index env); split; try reflexivity; repeat constructor.
  - rewrite (main_entered_trace fuel argv env s Henter Hctor). cbv zeta.
    destruct (outside_loop_preview argv env s) as (Hp1 & Hp2 & Hp3 & _).
    destruct (loop_preview env (fst (parse_flags argv)) s fuel 0)
      as [Hl1 Hl2].
    rewrite !shown_app, !captured_app, Hp1, Hp2, Hl1.
    split.
    + destruct (snd (capture_loop env (fst (parse_flags argv)) s fuel 0));
        reflexivity.
    + apply Forall_app. split; [exact Hp3|].
      apply Forall_app. split; [exact Hl2|].
      destruct (snd (capture_loop env (fst (parse_flags argv)) s fuel 0));
        repeat constructor.
Qed.

(** ** What the engine is fed *)

Lemma captured_nonempty (tr : Trace) :
  Forall (fun frame => empty frame = false) (captured tr).
Proof.
  induction tr as [|e tr IH]; [constructor|].
  destruct e; cbn [captured]; try exact IH.
  destruct ret; cbn [negb orb]; [|exact IH].
  destruct (empty frame) eqn:He; [exact IH|].
  constructor; assumption.
Qed.

Lemma preprocess_nonempty (unspec : Z) (g : bool) (s : spec_float)
    (frame : Mat) :
  empty frame = false -> empty (preprocess unspec g s frame) = false.
Proof.
  intro He. unfold preprocess, rescale.
  assert (Hproc : empty (to_proc g frame) = false)
    by (destruct g; exact He).
  destruct (Float32.neq s Float32.one); [|exact Hproc].
  cbv zeta.
  destruct (Z.ltb_spec 0 (scaled_dim unspec s (cols (to_proc g frame))));
    cbn [andb]; [|exact Hproc].
  destruct (Z.ltb_spec 0 (scaled_dim unspec s (rows (to_proc g frame))));
    [|exact Hproc].
  unfold empty, resize. cbn [cols rows].
  apply orb_false_iff. split; apply Z.eqb_neq; lia.
Qed.

(** X8. The engine never gets an empty image: every frame handed to
    [TrackMonocular] has a non-zero width and a non-zero height, whatever
    the flags and the scale. *)
Theorem fed_frames_nonempty (fuel : nat) (argv : list string) (env : Env) :
  Forall (fun im => empty im = false) (fed (fst (main fuel argv env))).
Proof.
  destruct (main_cases fuel argv env) as [(s & Henter & Hctor) | [Hq _]].
  - rewrite (main_fed fuel argv env s Henter Hctor).
    apply Forall_map.
    eapply Forall_impl; [|apply captured_nonempty].
    intros frame He. apply preprocess_nonempty. exact He.
  - rewrite (quiet_fed _ Hq). constructor.
Qed.

(** ** The grayscale flag *)

Lemma rescale_geometry (unspec : Z) (s : spec_float) (p q : Mat) :
  cols p = cols q -> rows p = rows q ->
  cols (rescale unspec s p) = cols (rescale unspec s q)
  /\ rows (rescale unspec s p) = rows (rescale unspec s q).
Proof.
  intros Hc Hr. unfold rescale. rewrite Hc, Hr.
  destruct (Float32.neq s Float32.one); [|split; assumption].
  cbv zeta.
  destruct ((0 <? scaled_dim unspec s (cols q))
            && (0 <? scaled_dim unspec s (rows q)));
    [split; reflexivity | split; assumption].
Qed.

Lemma erase_track (unspec : Z) (g g' : bool) (s t : spec_float)
    (frame : Mat) :
  erase_channels (ETrackMonocular (preprocess unspec g s frame) t)
  = erase_channels (ETrackMonocular (preprocess unspec g' s frame) t).
Proof.
  unfold erase_channels, preprocess.
  destruct (rescale_geometry unspec s (to_proc g frame) (to_proc g' frame))
    as [Hc Hr]; [destruct g, g'; reflexivity ..|].
  rewrite Hc, Hr. reflexivity.
Qed.

Lemma loop_erase (env : Env) (g g' : bool) (s : spec_float) (fuel i : nat) :
  map erase_channels (fst (capture_loop env g s fuel i))
  = map erase_channels (fst (capture_loop env g' s fuel i))
  /\ snd (capture_loop env g s fuel i) = snd (capture_loop env g' s fuel i).
Proof.
  revert i. induction fuel as [|fuel IH]; intro i.
  - split; reflexivity.
  - rewrite !loop_step.
    destruct (read_fails env i); [split; reflexivity|].
    assert (Hbody : map erase_channels (loop_body env g s i)
                    = map erase_channels (loop_body env g' s i)).
    { unfold loop_body. cbn [map].
      rewrite (erase_track _ g g'). reflexivity. }
    destruct (quit_key (wait_key env i)); cbn [fst snd].
    + split; [exact Hbody | reflexivity].
    + destruct (IH (S i)) as [H1 H2].
      rewrite !map_app, Hbody, H1. split; [reflexivity | exact H2].
Qed.

(** X9. [--gray] changes the channel count of what is fed and nothing
    else: with the flag added, the run ends the same way and emits the same
    events, the fed images having the same width and height and the same
    timestamps. *)
Theorem gray_changes_channels_only (fuel : nat) (argv : list string)
    (env : Env) :
  (3 <= List.length argv)%nat ->
  snd (main fuel (argv ++ ["--gray"%string]) env) = snd (main fuel argv env)
  /\ map erase_channels (fst (main fuel (argv ++ ["--gray"%string]) env))
     = map erase_channels (fst (main fuel argv env)).
Proof.
  intro Hlen.
  assert (Hflags : parse_flags (argv ++ ["--gray"%string])
                   = (true, snd (parse_flags argv))).
  { rewrite !parse_flags_membership.
    rewrite skipn_app_long by exact Hlen.
    rewrite !existsb_app. cbn [existsb snd].
    rewrite !orb_false_r, orb_true_r. reflexivity. }
  unfold main. rewrite Hflags.
  assert (Hl : (Z.of_nat (List.length (argv ++ ["--gray"%string])) <? 3)
               = false)
    by (apply Z.ltb_ge; rewrite length_app; lia).
  assert (Hl' : (Z.of_nat (List.length argv) <? 3) = false)
    by (apply Z.ltb_ge; lia).
  rewrite Hl, Hl'.
  rewrite !(app_nth1 argv ["--gray"%string]) by lia.
  destruct (parse_flags argv) as [g u]. cbn [snd].
  destruct (open_capture u env) as [tr_open opened].
  destruct opened; cbn [negb]; [|split; reflexivity].
  destruct (system_ctor env) as [s|status]; [|split; reflexivity].
  destruct (loop_erase env true g s fuel 0) as [H1 H2].
  destruct (capture_loop env true s fuel 0) as [tr1 e1].
  destruct (capture_loop env g s fuel 0) as [tr2 e2].
  cbn [fst snd] in H1, H2. subst e2.
  destruct e1; cbn [fst snd]; rewrite !map_app, H1; split; reflexivity.
Qed.

Lemma gray_changes_channels_only_witness :
  let env := env_quit 1 (InitOk scale_0_5) in
  snd (main 4 (argv_default ++ ["--gray"%string]) env)
  = snd (main 4 argv_default env)
  /\ map erase_channels (fst (main 4 (argv_default ++ ["--gray"%string]) env))
     = map erase_channels (fst (main 4 argv_default env)).
Proof.
  apply (gray_changes_channels_only 4 argv_default
           (env_quit 1 (InitOk scale_0_5))).
  simpl. lia.
Defined.

(** ** The clock *)




(** Outside that range the difference of the tick counts wraps: with the
    first sample at the least 64-bit value and the next one at 0, the
    elapsed count is the least 64-bit value again and the timestamp is
    negative. *)
Example elapsed_out_of_range :
  Int64.sub 0 (- 2 ^ 63) = - 2 ^ 63
  /\ SFltb (seconds_of_ticks (Int64.sub 0 (- 2 ^ 63))) (S754_zero false)
     = true.
Proof. split; reflexivity. Qed.

(** ** Timestamps are numbers *)

Lemma seconds_of_ticks_finite (a : Z) :
  0 <= a < 2 ^ 63 -> finite_nonneg (seconds_of_ticks a).
Proof.
  intros [Ha Hb]. destruct (Z.eq_dec a 0) as [->|Hne].
  - left. reflexivity.
  - right. rewrite (seconds_of_ticks_rnd a) by lia. eauto.
Qed.

(** X11. With a steady clock whose elapsed tick counts fit 64 bits, every
    timestamp handed to [TrackMonocular] is zero or a positive finite
    [double]: never negative, never an infinity, never a NaN. *)
Theorem timestamps_finite_nonneg (fuel : nat) (argv : list string)
    (env : Env) :
  (forall i, (i < fuel)%nat -> steady_now env i <= steady_now env (S i)) ->
  (forall i, (i <= fuel)%nat ->
             steady_now env i - steady_now env 0 < 2 ^ 63) ->
  Forall finite_nonneg (stamps (fst (main fuel argv env))).
Proof.
  intros Hsteady Hrange.
  destruct (main_stamps fuel argv env) as (n & Hn & Hs). rewrite Hs.
  apply Forall_map, Forall_forall. intros k Hk. apply in_seq in Hk.
  pose proof (steady_from_start env fuel Hsteady (S k) ltac:(lia)) as H1.
  pose proof (Hrange (S k) ltac:(lia)) as H2.
  rewrite tframe_at_elapsed by lia.
  apply seconds_of_ticks_finite. lia.
Qed.

Lemma timestamps_finite_nonneg_witness :
  Forall finite_nonneg
    (stamps (fst (main 4 argv_default (env_quit 2 (InitOk Float32.one))))).
Proof.
  apply timestamps_finite_nonneg.
  - intros i _. simpl. unfold clock_30fps. lia.
  - intros i Hi. simpl. unfold clock_30fps. lia.
Defined.

(** ** Rounding: exact cases and strict order *)

Lemma rhe_divisible (N D : Z) : 0 < D -> N mod D = 0 -> rhe N D = N / D.
Proof.
  intros HD Hm. rewrite rhe_spec, Hm by exact HD.
  destruct (Z.ltb_spec (2 * 0) D); [reflexivity | lia].
Qed.

Lemma rhe_strict (N1 N2 D : Z) :
  0 < D -> N1 + D < N2 -> rhe N1 D < rhe N2 D.
Proof.
  intros HD HN.
  pose proof (Z.div_mod N1 D ltac:(lia)) as H1.
  pose proof (Z.div_mod N2 D ltac:(lia)) as H2.
  pose proof (Z.mod_pos_bound N1 D HD) as Hr1.
  pose proof (Z.mod_pos_bound N2 D HD) as Hr2.
  assert (Hq : N1 / D + 1 <= N2 / D).
  { replace (N1 / D + 1) with ((N1 + 1 * D) / D)
      by (rewrite Z.div_add by lia; reflexivity).
    apply Z.div_le_mono; lia. }
  destruct (Z.eq_dec (N2 / D) (N1 / D + 1)) as [He|Hne].
  - rewrite He, Z.mul_add_distr_l, Z.mul_1_r in H2.
    rewrite !rhe_spec by exact HD. rewrite He.
    destruct (Z.ltb_spec (2 * (N1 mod D)) D);
      destruct (Z.ltb_spec (2 * (N2 mod D)) D);
      destruct (Z.ltb_spec D (2 * (N1 mod D)));
      destruct (Z.ltb_spec D (2 * (N2 mod D)));
      destruct (Z.even (N1 / D)); destruct (Z.even (N1 / D + 1)); lia.
  - pose proof (rhe_bounds N1 D HD). pose proof (rhe_bounds N2 D HD). lia.
Qed.

(** [rhe N D = t] leaves [N / D] at least [t - 1/2], and more than
    [t - 1/2] is enough for [t <= rhe N D]. *)
Lemma rhe_lower (N D : Z) : 0 < D -> (2 * rhe N D - 1) * D <= 2 * N.
Proof.
  intro HD.
  pose proof (Z.div_mod N D ltac:(lia)) as H1.
  pose proof (Z.mod_pos_bound N D HD) as Hr.
  rewrite rhe_spec by exact HD.
  destruct (Z.ltb_spec (2 * (N mod D)) D);
    [|destruct (Z.ltb_spec D (2 * (N mod D)));
      [|destruct (Z.even (N / D))]]; nia.
Qed.

Lemma rhe_ge_half (N D t : Z) :
  0 < D -> (2 * t - 1) * D < 2 * N -> t <= rhe N D.
Proof.
  intros HD Ht.
  pose proof (Z.div_mod N D ltac:(lia)) as H1.
  pose proof (Z.mod_pos_bound N D HD) as Hr.
  pose proof (rhe_bounds N D HD) as Hb.
  destruct (Z_le_gt_dec t (N / D)) as [Hle|Hgt]; [lia|].
  assert (Hq : N / D = t - 1) by nia.
  rewrite rhe_spec by exact HD.
  destruct (Z.ltb_spec (2 * (N mod D)) D); [nia|].
  destruct (Z.ltb_spec D (2 * (N mod D))); [lia|]. nia.
Qed.

Section Strict.

Variable prec : Z.
Hypothesis prec_pos : 0 < prec.

Lemma rnd_exact (N D ex : Z) :
  0 < D -> 2 ^ (prec - 1) <= N / D ->
  N mod (D * 2 ^ (Zdigits2 (N / D) - prec)) = 0 ->
  rnd prec N D ex
  = (N / (D * 2 ^ (Zdigits2 (N / D) - prec)),
     ex + (Zdigits2 (N / D) - prec)).
Proof.
  intros HD Hq Hdiv.
  destruct (rhe_normal prec prec_pos N D HD Hq) as [Hn [Hlo Hhi]].
  assert (Hq0 : 0 < N / D).
  { pose proof (Z.pow_pos_nonneg 2 (prec - 1) ltac:(lia) ltac:(lia)). lia. }
  destruct (Zdigits2_bounds (N / D) Hq0) as [_ Hup].
  unfold rnd. set (n := Zdigits2 (N / D) - prec) in *.
  assert (Hpn : 0 < 2 ^ n) by (apply Z.pow_pos_nonneg; lia).
  rewrite rhe_divisible in * by (try assumption; nia).
  assert (Hlt : N / (D * 2 ^ n) < 2 ^ prec).
  { rewrite <- Z.div_div by lia.
    apply Z.div_lt_upper_bound; [lia|].
    rewrite <- Z.pow_add_r by lia.
    replace (n + prec) with (Zdigits2 (N / D)) by (unfold n; lia).
    exact Hup. }
  destruct (Z.eqb_spec (N / (D * 2 ^ n)) (2 ^ prec)); [lia | reflexivity].
Qed.

Lemma rnd_strict (N1 N2 D ex : Z) :
  0 < D -> 2 ^ (prec - 1) <= N1 / D ->
  N1 + D * 2 ^ (Zdigits2 (N2 / D) - prec) < N2 ->
  lex_lt (rnd prec N1 D ex) (rnd prec N2 D ex).
Proof.
  intros HD Hq1 HN.
  assert (Hq0 : 0 < N1 / D).
  { pose proof (Z.pow_pos_nonneg 2 (prec - 1) ltac:(lia) ltac:(lia)). lia. }
  assert (Hle : N1 <= N2).
  { pose proof (Z.pow_nonneg 2 (Zdigits2 (N2 / D) - prec) ltac:(lia)). nia. }
  pose proof (Z.div_le_mono N1 N2 D HD Hle) as Hq.
  assert (Hq2 : 2 ^ (prec - 1) <= N2 / D) by lia.
  pose proof (Zdigits2_mono _ _ Hq0 Hq) as Hd.
  destruct (rhe_normal prec prec_pos N1 D HD Hq1) as [Hn1 [Hlo1 Hhi1]].
  destruct (rhe_normal prec prec_pos N2 D HD Hq2) as [Hn2 [Hlo2 Hhi2]].
  unfold rnd, lex_lt.
  set (n1 := Zdigits2 (N1 / D) - prec) in *.
  set (n2 := Zdigits2 (N2 / D) - prec) in *.
  assert (Hp1 : 0 < 2 ^ n1) by (apply Z.pow_pos_nonneg; lia).
  assert (Hp2 : 0 < 2 ^ n2) by (apply Z.pow_pos_nonneg; lia).
  pose proof (rhe_strict N1 N2 (D * 2 ^ n2) ltac:(nia) HN) as Hstrict.
  destruct (Z.eq_dec n1 n2) as [He|Hne].
  - rewrite He in *.
    destruct (Z.eqb_spec (rhe N1 (D * 2 ^ n2)) (2 ^ prec));
      destruct (Z.eqb_spec (rhe N2 (D * 2 ^ n2)) (2 ^ prec));
      cbn [fst snd]; lia.
  - assert (Hlt : n1 < n2) by lia.
    destruct (Z.eqb_spec (rhe N1 (D * 2 ^ n1)) (2 ^ prec)) as [Hc|Hc];
      destruct (Z.eqb_spec (rhe N2 (D * 2 ^ n2)) (2 ^ prec));
      cbn [fst snd]; try lia.
    destruct (Z.eq_dec n2 (n1 + 1)) as [Hn|Hn]; [|lia].
    right. split; [lia|].
    assert (Hhalf : 2 ^ (prec - 1) <= rhe N1 (D * 2 ^ n2)).
    { apply rhe_ge_half; [nia|].
      pose proof (rhe_lower N1 (D * 2 ^ n1) ltac:(nia)) as Hl.
      rewrite Hc in Hl.
      assert (H2n : 2 ^ n2 = 2 * 2 ^ n1).
      { rewrite Hn, Z.pow_add_r, Z.pow_1_r by lia. ring. }
      assert (H2p : 2 ^ prec = 2 * 2 ^ (prec - 1)).
      { rewrite <- Z.pow_succ_r by lia. f_equal. lia. }
      rewrite H2n, H2p in *.
      assert (0 < D * 2 ^ n1) by nia.
      nia. }
    lia.
Qed.

(** An integer of at most [prec] bits converts without rounding. *)
Lemma rnd_of_int_exact (a : Z) :
  0 < a < 2 ^ prec ->
  rnd prec (a * 2 ^ (prec - 1)) 1 (- (prec - 1))
  = (a * 2 ^ (prec - Zdigits2 a), Zdigits2 a - prec).
Proof.
  intros [Ha Hb].
  pose proof (Zdigits2_pos a Ha) as Hd0.
  assert (Hd : Zdigits2 a <= prec).
  { destruct (Zdigits2_bounds a Ha) as [Hlo _].
    assert (Zdigits2 a - 1 < prec); [|lia].
    apply (Z.pow_lt_mono_r_iff 2); lia. }
  assert (Hpp : 0 < 2 ^ (prec - 1)) by (apply Z.pow_pos_nonneg; lia).
  assert (Hdig : Zdigits2 (a * 2 ^ (prec - 1) / 1)
                 = Zdigits2 a + (prec - 1)).
  { rewrite Zdigits2_shift; rewrite ?Z.div_1_r; lia. }
  assert (Hsplit : a * 2 ^ (prec - 1)
                   = a * 2 ^ (prec - Zdigits2 a) * 2 ^ (Zdigits2 a - 1)).
  { rewrite <- Z.mul_assoc, <- Z.pow_add_r by lia.
    f_equal. f_equal. lia. }
  assert (Hp : 0 < 2 ^ (Zdigits2 a - 1)) by (apply Z.pow_pos_nonneg; lia).
  rewrite rnd_exact; rewrite ?Hdig.
  - replace (Zdigits2 a + (prec - 1) - prec) with (Zdigits2 a - 1) by lia.
    rewrite Z.mul_1_l. f_equal; [|lia].
    rewrite Hsplit at 1. apply Z.div_mul. lia.
  - lia.
  - rewrite Z.div_1_r. nia.
  - replace (Zdigits2 a + (prec - 1) - prec) with (Zdigits2 a - 1) by lia.
    rewrite Z.mul_1_l. rewrite Hsplit at 1. apply Z.mod_mul. lia.
Qed.

Lemma lex_lt_ltb (p1 p2 : positive) (e1 e2 : Z) :
  lex_lt (Z.pos p1, e1) (Z.pos p2, e2) ->
  SFltb (S754_finite false p1 e1) (S754_finite false p2 e2) = true.
Proof.
  unfold lex_lt, SFltb, SFcompare. cbn [fst snd].
  intros [Hlt | [-> Hlt]].
  - apply Z.compare_lt_iff in Hlt. rewrite Hlt. reflexivity.
  - rewrite Z.compare_refl.
    change (Pos.compare_cont Eq p1 p2) with (Pos.compare p1 p2).
    destruct (Pos.compare_spec p1 p2); try reflexivity; lia.
Qed.

End Strict.

(** ** Timestamps that advance *)

Lemma Zdigits2_le (a k : Z) : 0 < a < 2 ^ k -> 0 <= k -> Zdigits2 a <= k.
Proof.
  intros [Ha Hb] Hk. destruct (Zdigits2_bounds a Ha) as [Hlo _].
  pose proof (Zdigits2_pos a Ha).
  assert (Zdigits2 a - 1 < k); [|lia].
  apply (Z.pow_lt_mono_r_iff 2); lia.
Qed.

(** Below [2 ^ 53] the conversion to [double] is exact. *)
Lemma of_int_exact (a : Z) :
  0 < a < 2 ^ 53 ->
  rnd 53 (a * 2 ^ 52) 1 (-52)
  = (a * 2 ^ (53 - Zdigits2 a), Zdigits2 a - 53).
Proof.
  intro Ha. exact (rnd_of_int_exact 53 ltac:(lia) a Ha).
Qed.

(** Line 93-95 is strictly increasing on tick counts below [2 ^ 52], about
    fifty-two days of nanoseconds. *)
Theorem seconds_of_ticks_strict (a b : Z) :
  0 <= a -> a < b -> b < 2 ^ 52 ->
  SFltb (seconds_of_ticks a) (seconds_of_ticks b) = true.
Proof.
  intros Ha Hab Hb.
  destruct (Z.eq_dec a 0) as [->|Ha0].
  { rewrite (seconds_of_ticks_rnd b) by lia. reflexivity. }
  rewrite (seconds_of_ticks_rnd a), (seconds_of_ticks_rnd b) by lia.
  rewrite (of_int_exact a), (of_int_exact b) by lia. cbn [fst snd].
  pose proof (Zdigits2_pos a ltac:(lia)) as Hda0.
  pose proof (Zdigits2_mono a b ltac:(lia) ltac:(lia)) as Hdab.
  pose proof (Zdigits2_le b 52 ltac:(lia) ltac:(lia)) as Hdb.
  destruct (Zdigits2_bounds a ltac:(lia)) as [Hloa _].
  destruct (Zdigits2_bounds b ltac:(lia)) as [Hlob _].
  set (da := Zdigits2 a) in *. set (db := Zdigits2 b) in *.
  set (j := db - da).
  set (ma := a * 2 ^ (53 - da)). set (mb := b * 2 ^ (53 - db)).
  set (mc := 8388608000000000).
  assert (Hsa : 2 ^ (da - 1) * 2 ^ (53 - da) = 2 ^ 52)
    by (rewrite <- Z.pow_add_r by lia; f_equal; lia).
  assert (Hsb : 2 ^ (db - 1) * 2 ^ (53 - db) = 2 ^ 52)
    by (rewrite <- Z.pow_add_r by lia; f_equal; lia).
  assert (Hpa : 0 < 2 ^ (53 - da)) by (apply Z.pow_pos_nonneg; lia).
  assert (Hpb : 0 < 2 ^ (53 - db)) by (apply Z.pow_pos_nonneg; lia).
  assert (Hma : 2 ^ 52 <= ma) by (unfold ma; nia).
  assert (Hmb : 2 ^ 52 <= mb) by (unfold mb; nia).
  assert (Hq : forall m, 2 ^ 52 <= m -> 2 ^ (53 - 1) <= m * 2 ^ 53 / mc).
  { intros m Hm. apply Z.div_le_lower_bound; [unfold mc; lia|].
    change (53 - 1) with 52. unfold mc. lia. }
  assert (Hpj : 0 < 2 ^ j) by (apply Z.pow_pos_nonneg; unfold j; lia).
  assert (Hmbj : mb * 2 ^ j = b * 2 ^ (53 - da)).
  { unfold mb. rewrite <- Z.mul_assoc, <- Z.pow_add_r by (unfold j; lia).
    f_equal. f_equal. unfold j. lia. }
  assert (Hscale : rnd 53 (mb * 2 ^ 53) mc (db - 53 - 30)
                   = rnd 53 (mb * 2 ^ 53 * 2 ^ j) mc (da - 53 - 30)).
  { rewrite <- (rnd_scale 53 ltac:(lia) (mb * 2 ^ 53) mc (db - 53 - 30) 1 j)
      by (try apply Hq; unfold j, mc; lia).
    rewrite !Z.mul_1_r. f_equal. unfold j. lia. }
  assert (Hstrict : lex_lt (rnd 53 (ma * 2 ^ 53) mc (da - 53 - 30))
                           (rnd 53 (mb * 2 ^ 53 * 2 ^ j) mc (da - 53 - 30))).
  { apply rnd_strict; [lia | unfold mc; lia | apply Hq; exact Hma |].
    assert (Hdq : Zdigits2 (mb * 2 ^ 53 * 2 ^ j / mc) <= 54 + j).
    { rewrite Zdigits2_shift; [| unfold mc; lia | | unfold j; lia].
      - assert (Zdigits2 (mb * 2 ^ 53 / mc) <= 54); [|lia].
        apply Zdigits2_le; [|lia]. split.
        + specialize (Hq mb Hmb). change (53 - 1) with 52 in Hq. lia.
        + apply Z.div_lt_upper_bound; [unfold mc; lia|].
          assert (mb < 2 ^ 53); [|unfold mc; lia].
          unfold mb.
          destruct (Zdigits2_bounds b ltac:(lia)) as [_ Hupb]. fold db in Hupb.
          assert (2 ^ db * 2 ^ (53 - db) = 2 ^ 53)
            by (rewrite <- Z.pow_add_r by lia; f_equal; lia).
          nia.
      - specialize (Hq mb Hmb). change (53 - 1) with 52 in Hq. lia. }
    assert (Hpow : 2 ^ (Zdigits2 (mb * 2 ^ 53 * 2 ^ j / mc) - 53)
                   <= 2 ^ (53 - da)).
    { apply Z.pow_le_mono_r; [lia|].
      pose proof (eq_refl : j = db - da) as Hj. lia. }
    assert (Hdiff : ma * 2 ^ 53 + 2 ^ 53 * 2 ^ (53 - da)
                    <= mb * 2 ^ 53 * 2 ^ j).
    { replace (mb * 2 ^ 53 * 2 ^ j) with (mb * 2 ^ j * 2 ^ 53) by ring.
      rewrite Hmbj. unfold ma. nia. }
    assert (Hpq : 0 < 2 ^ (Zdigits2 (mb * 2 ^ 53 * 2 ^ j / mc) - 53)).
    { apply Z.pow_pos_nonneg; [lia|].
      assert (53 <= Zdigits2 (mb * 2 ^ 53 * 2 ^ j / mc)); [|lia].
      rewrite Zdigits2_shift; [| unfold mc; lia | | unfold j; lia].
      - specialize (Hq mb Hmb). change (53 - 1) with 52 in Hq.
        destruct (Zdigits2_bounds (mb * 2 ^ 53 / mc) ltac:(lia)) as [_ Hu].
        assert (52 < Zdigits2 (mb * 2 ^ 53 / mc)); [|unfold j; lia].
        apply (Z.pow_lt_mono_r_iff 2); try lia.
        pose proof (Zdigits2_pos (mb * 2 ^ 53 / mc) ltac:(lia)). lia.
      - specialize (Hq mb Hmb). change (53 - 1) with 52 in Hq. lia. }
    assert (mc * 2 ^ (Zdigits2 (mb * 2 ^ 53 * 2 ^ j / mc) - 53)
            < 2 ^ 53 * 2 ^ (53 - da)); [|lia].
    assert (Hmc : mc < 2 ^ 53) by (unfold mc; lia).
    apply Z.lt_le_trans
      with (2 ^ 53 * 2 ^ (Zdigits2 (mb * 2 ^ 53 * 2 ^ j / mc) - 53)).
    - apply Z.mul_lt_mono_pos_r; assumption.
    - apply Z.mul_le_mono_nonneg_l; [lia | exact Hpow]. }
  rewrite <- Hscale in Hstrict.
  pose proof (rnd_mantissa 53 ltac:(lia) (ma * 2 ^ 53) mc (da - 53 - 30)
                ltac:(unfold mc; lia) (Hq _ Hma)) as Ha'.
  pose proof (rnd_mantissa 53 ltac:(lia) (mb * 2 ^ 53) mc (db - 53 - 30)
                ltac:(unfold mc; lia) (Hq _ Hmb)) as Hb'.
  apply lex_lt_ltb. rewrite !Z2Pos.id by lia.
  rewrite <- !surjective_pairing. exact Hstrict.
Qed.

(** X12. When the clock has advanced between any two samples and the
    elapsed tick counts stay below [2 ^ 52] (about fifty-two days of
    nanoseconds), the timestamps of consecutive frames handed to
    [TrackMonocular] are strictly increasing as [double]s. *)
Theorem timestamps_strictly_increasing (fuel : nat) (argv : list string)
    (env : Env) (pre post : list spec_float) (t1 t2 : spec_float) :
  (forall i, (i < fuel)%nat -> steady_now env i < steady_now env (S i)) ->
  (forall i, (i <= fuel)%nat ->
             steady_now env i - steady_now env 0 < 2 ^ 52) ->
  stamps (fst (main fuel argv env)) = pre ++ t1 :: t2 :: post ->
  SFltb t1 t2 = true.
Proof.
  intros Hsteady Hrange Heq.
  destruct (main_stamps fuel argv env) as (n & Hn & Hs).
  rewrite Hs in Heq.
  destruct (consecutive_in_map_seq _ _ _ _ _ _ Heq) as (k & Hk & -> & ->).
  pose proof (steady_from_start env fuel
                (fun i Hi => Z.lt_le_incl _ _ (Hsteady i Hi))
                (S k) ltac:(lia)) as H0.
  pose proof (steady_from_start env fuel
                (fun i Hi => Z.lt_le_incl _ _ (Hsteady i Hi))
                (S (S k)) ltac:(lia)) as H1.
  pose proof (Hrange (S k) ltac:(lia)) as H2.
  pose proof (Hrange (S (S k)) ltac:(lia)) as H3.
  rewrite !tframe_at_elapsed by lia.
  apply seconds_of_ticks_strict.
  - lia.
  - specialize (Hsteady (S k) ltac:(lia)). lia.
  - exact H3.
Qed.

Lemma timestamps_strictly_increasing_witness :
  let env := env_stream 10 (InitOk Float32.one) in
  SFltb (tframe_at env 0) (tframe_at env 1) = true.
Proof.
  apply (timestamps_strictly_increasing 3 argv_default
           (env_stream 10 (InitOk Float32.one))
           [] [tframe_at (env_stream 10 (InitOk Float32.one)) 2]).
  - intros i _. simpl. unfold clock_30fps. lia.
  - intros i Hi. simpl. unfold clock_30fps. lia.
  - reflexivity.
Defined.

(** Beyond that range two tick counts can share a timestamp. *)
Example seconds_of_ticks_tie :
  SFeqb (seconds_of_ticks (2 ^ 53)) (seconds_of_ticks (2 ^ 53 + 1)) = true.
Proof. reflexivity. Qed.

(** ** Rescaling when the products are whole numbers *)

Lemma f32_of_int_exact (w : Z) :
  0 < w < 2 ^ 24 ->
  Float32.of_int w
  = S754_finite false (Z.to_pos (w * 2 ^ (24 - Zdigits2 w)))
      (Zdigits2 w - 24).
Proof.
  intros [Hw Hb].
  pose proof (Zdigits2_pos w Hw) as Hd0.
  pose proof (Zdigits2_le w 24 ltac:(lia) ltac:(lia)) as Hd.
  unfold Float32.of_int, Float32.prec, Float32.emax.
  rewrite (binary_normalize_rnd 24 128 ltac:(lia) w Hw).
  - change (24 - 1) with 23.
    pose proof (rnd_of_int_exact 24 ltac:(lia) w ltac:(lia)) as Hex.
    change (24 - 1) with 23 in Hex. rewrite Hex. reflexivity.
  - unfold emin. lia.
  - lia.
Qed.

Lemma lround_of_int (unspec P : Z) :
  0 < P < 2 ^ 24 ->
  Float32.lround unspec
    (S754_finite false (Z.to_pos (P * 2 ^ (24 - Zdigits2 P)))
       (Zdigits2 P - 24)) = P.
Proof.
  intros [HP Hb].
  pose proof (Zdigits2_pos P HP) as Hd0.
  pose proof (Zdigits2_le P 24 ltac:(lia) ltac:(lia)) as Hd.
  assert (Hp : 0 < 2 ^ (24 - Zdigits2 P)) by (apply Z.pow_pos_nonneg; lia).
  unfold Float32.lround. rewrite Z2Pos.id by nia.
  assert (Hr : Float32.round_half_away (P * 2 ^ (24 - Zdigits2 P))
                 (Zdigits2 P - 24) = P).
  { unfold Float32.round_half_away.
    destruct (Z.leb_spec 0 (Zdigits2 P - 24)) as [H0|H0].
    - replace (Zdigits2 P) with 24 by lia. simpl. lia.
    - replace (- (Zdigits2 P - 24)) with (24 - Zdigits2 P) by lia.
      rewrite Z.mod_mul, Z.div_mul by lia.
      destruct (Z.leb_spec (2 ^ (24 - Zdigits2 P)) (2 * 0)); lia. }
  rewrite Hr.
  destruct (Z.leb_spec (- 2 ^ 63) P); [|lia].
  destruct (Z.ltb_spec P (2 ^ 63)); [reflexivity | lia].
Qed.

(** The product of an integer and a scale, taken in [float], when the
    exact product is a whole number of at most 24 bits: it is that number,
    exactly. *)
Lemma f32_mul_exact (w P : Z) (ms : positive) (es : Z) :
  0 < w < 2 ^ 24 -> 0 < P < 2 ^ 24 ->
  2 ^ 23 <= Z.pos ms < 2 ^ 24 -> es <= 0 ->
  w * Z.pos ms = P * 2 ^ (- es) ->
  Float32.mul (Float32.of_int w) (S754_finite false ms es)
  = S754_finite false (Z.to_pos (P * 2 ^ (24 - Zdigits2 P)))
      (Zdigits2 P - 24).
Proof.
  intros Hw HP Hms Hes Hprod.
  pose proof (Zdigits2_pos w ltac:(lia)) as Hdw0.
  pose proof (Zdigits2_le w 24 ltac:(lia) ltac:(lia)) as Hdw.
  pose proof (Zdigits2_pos P ltac:(lia)) as HdP0.
  pose proof (Zdigits2_le P 24 ltac:(lia) ltac:(lia)) as HdP.
  destruct (Zdigits2_bounds w ltac:(lia)) as [Hlow _].
  rewrite (f32_of_int_exact w Hw).
  set (dw := Zdigits2 w) in *. set (dP := Zdigits2 P) in *.
  assert (Hpw : 0 < 2 ^ (24 - dw)) by (apply Z.pow_pos_nonneg; lia).
  assert (Hsw : 2 ^ (dw - 1) * 2 ^ (24 - dw) = 2 ^ 23)
    by (rewrite <- Z.pow_add_r by lia; f_equal; lia).
  assert (Hmw : 2 ^ 23 <= w * 2 ^ (24 - dw)) by nia.
  unfold Float32.mul, Float32.prec, Float32.emax, SFmul. cbn [xorb].
  set (k := - es + (24 - dw)).
  assert (Hk : 0 <= k) by (unfold k; lia).
  assert (HN : Z.pos (Z.to_pos (w * 2 ^ (24 - dw)) * ms) = P * 2 ^ k).
  { rewrite Pos2Z.inj_mul, Z2Pos.id by lia.
    unfold k. rewrite Z.pow_add_r by lia.
    rewrite Z.mul_assoc, <- Hprod. ring. }
  rewrite HN.
  assert (Hpk : 0 < 2 ^ k) by (apply Z.pow_pos_nonneg; lia).
  assert (Hbig : 2 ^ 23 * 2 ^ 23 <= P * 2 ^ k).
  { rewrite <- HN, Pos2Z.inj_mul, Z2Pos.id by lia. nia. }
  assert (Hdig : Zdigits2 (P * 2 ^ k / 1) = dP + k).
  { rewrite Zdigits2_shift; rewrite ?Z.div_1_r; fold dP; lia. }
  assert (Hn : 0 <= dP + k - 24).
  { destruct (Zdigits2_bounds (P * 2 ^ k) ltac:(nia)) as [_ Hup].
    rewrite Z.div_1_r in Hdig. rewrite Hdig in Hup.
    assert (23 < dP + k); [|lia].
    apply (Z.pow_lt_mono_r_iff 2); try lia. }
  assert (Hex : rnd 24 (P * 2 ^ k) 1 (dw - 24 + es)
                = (P * 2 ^ (24 - dP), dP - 24)).
  { rewrite (rnd_exact 24 ltac:(lia)); rewrite ?Hdig.
    - rewrite Z.mul_1_l. f_equal; [|unfold k; lia].
      replace k with ((24 - dP) + (dP + k - 24)) at 1 by lia.
      rewrite Z.pow_add_r, Z.mul_assoc by lia.
      apply Z.div_mul.
      pose proof (Z.pow_pos_nonneg 2 (dP + k - 24) ltac:(lia) Hn). lia.
    - lia.
    - rewrite Z.div_1_r. change (24 - 1) with 23. nia.
    - rewrite Z.mul_1_l.
      replace k with ((24 - dP) + (dP + k - 24)) at 1 by lia.
      rewrite Z.pow_add_r, Z.mul_assoc by lia.
      apply Z.mod_mul.
      pose proof (Z.pow_pos_nonneg 2 (dP + k - 24) ltac:(lia) Hn). lia. }
  replace (binary_round_aux 24 128 false (P * 2 ^ k) (dw - 24 + es)
             loc_Exact)
    with (binary_round_aux 24 128 false (P * 2 ^ k / 1) (dw - 24 + es)
            (loc_of (P * 2 ^ k) 1)).
  - rewrite (binary_round_aux_rnd 24 128 ltac:(lia)); rewrite ?Hex;
      cbn [fst snd]; rewrite ?Hdig; try reflexivity; try lia.
    + rewrite Z.div_1_r. change (24 - 1) with 23. nia.
    + unfold emin, k. lia.
  - unfold loc_of. rewrite Z.div_1_r, Z.mod_1_r. reflexivity.
Qed.

Lemma scaled_dim_exact (unspec w P : Z) (ms : positive) (es : Z) :
  0 < w < 2 ^ 24 -> 0 < P < 2 ^ 24 ->
  2 ^ 23 <= Z.pos ms < 2 ^ 24 -> es <= 0 ->
  w * Z.pos ms = P * 2 ^ (- es) ->
  scaled_dim unspec (S754_finite false ms es) w = P.
Proof.
  intros Hw HP Hms Hes Hprod. unfold scaled_dim.
  rewrite (f32_mul_exact w P ms es) by assumption.
  rewrite lround_of_int by exact HP.
  apply wrap_small. lia.
Qed.

Lemma exact_scaled_whole (w P : Z) (ms : positive) (es : Z) :
  es <= 0 ->
  (exact_scaled (S754_finite false ms es) w == inject_Z P)%Q ->
  w * Z.pos ms = P * 2 ^ (- es).
Proof.
  intros Hes H. unfold exact_scaled in H.
  destruct (Z.eq_dec es 0) as [->|Hne].
  - unfold Float32.to_Q in H. change (Qpower 2 0) with 1%Q in H.
    unfold Qeq, Qmult, inject_Z in H. cbn [Qnum Qden] in H.
    change (2 ^ (- 0)) with 1. lia.
  - rewrite to_Q_finite in H by lia.
    assert (Hp : 0 < 2 ^ (- es)) by (apply Z.pow_pos_nonneg; lia).
    unfold Qeq, Qmult, inject_Z in H. cbn [Qnum Qden] in H.
    rewrite Pos2Z.inj_mul, Z2Pos.id in H by exact Hp. lia.
Qed.

Lemma neq_one_false (ms : positive) (es : Z) :
  Float32.neq (S754_finite false ms es) Float32.one = false ->
  es = -23 /\ Z.pos ms = 2 ^ 23.
Proof.
  unfold Float32.neq, Float32.one, SFeqb, SFcompare.
  destruct (Z.compare_spec es (-23)) as [He|He|He];
    try discriminate.
  change (Pos.compare_cont Eq ms 8388608) with (Pos.compare ms 8388608).
  destruct (Pos.compare_spec ms 8388608) as [Hm|Hm|Hm]; try discriminate.
  intros _. split; [exact He|]. rewrite Hm. reflexivity.
Qed.

(** X13. When the exact products of the two dimensions and the scale are
    whole numbers (dimensions and products positive and below [2 ^ 24],
    the scale a positive normalised [float] with exponent at most 0), no
    rounding takes place: the fed frame has exactly these products as
    width and height, as for 640 x 480 at 0.5 or at 0.75. *)
Theorem rescale_whole_products (unspec : Z) (ms : positive) (es : Z)
    (proc : Mat) (Pw Ph : Z) :
  2 ^ 23 <= Z.pos ms < 2 ^ 24 -> es <= 0 ->
  0 < cols proc < 2 ^ 24 -> 0 < rows proc < 2 ^ 24 ->
  0 < Pw < 2 ^ 24 -> 0 < Ph < 2 ^ 24 ->
  (exact_scaled (S754_finite false ms es) (cols proc) == inject_Z Pw)%Q ->
  (exact_scaled (S754_finite false ms es) (rows proc) == inject_Z Ph)%Q ->
  dims (rescale unspec (S754_finite false ms es) proc) = (Pw, Ph).
Proof.
  intros Hms Hes Hc Hr HPw HPh Hw Hh.
  apply exact_scaled_whole in Hw; [|exact Hes].
  apply exact_scaled_whole in Hh; [|exact Hes].
  unfold rescale, dims.
  destruct (Float32.neq (S754_finite false ms es) Float32.one) eqn:Hneq.
  - rewrite (scaled_dim_exact unspec (cols proc) Pw ms es) by assumption.
    rewrite (scaled_dim_exact unspec (rows proc) Ph ms es) by assumption.
    cbv zeta.
    destruct (Z.ltb_spec 0 Pw); [|lia].
    destruct (Z.ltb_spec 0 Ph); [|lia].
    reflexivity.
  - destruct (neq_one_false ms es Hneq) as [-> Hm].
    rewrite Hm in Hw, Hh. change (- -23) with 23 in Hw, Hh.
    f_equal; lia.
Qed.

Lemma rescale_whole_products_witness :
  dims (rescale 0 scale_0_75 frame_vga) = (480, 360).
Proof.
  apply (rescale_whole_products 0 12582912 (-24) frame_vga 480 360);
    try (simpl; lia); reflexivity.
Defined.
